(** * bitbucket-aws-sg-whitelister: a shallow embedding and its properties

    The script [bitbucket-aws-sg-whitelister.py] fetches the Atlassian IP
    feed, keeps the Bitbucket egress IPv4 ranges, collapses them with
    Python's [ipaddress] module, compares them with the port-443 ingress
    rules of an AWS security group and revokes / authorizes the difference.

    Layout of this file:
    - [Py]: the few pieces of the Python runtime the script relies on
      (exceptions, [sorted], [int.bit_length], [str.split]);
    - [ipaddress]: the IPv4 part of CPython's [Lib/ipaddress.py] that the
      script calls ([ip_network], [collapse_addresses], [str]);
    - [Whitelister]: the script itself, function by function, over an
      explicit environment (the answers of the network collaborators) and
      an explicit trace of the calls it makes;
    - the lemmas and theorems. *)

From Stdlib Require Import ZArith Ascii String.
From stdpp Require Import base numbers option list gmap strings pretty sorting.

Local Open Scope Z_scope.

(** ** Python runtime *)

Module Py.

(** The exceptions that can occur in the script.  [HTTPError] stands for
    whatever [requests] raises, [ClientError] for whatever [boto3]
    raises, [Exception] for the [raise Exception(data)] of line 143. *)
Inductive exn : Type :=
| KeyError (key : string)
| ValueError
| AttributeError
| HTTPError
| ClientError
| Exception.

(** The value of a call that may raise. *)
Inductive result (A : Type) : Type :=
| Ok (a : A)
| Raise (e : exn).
Global Arguments Ok {A} a.
Global Arguments Raise {A} e.

Global Instance result_ret : MRet result := λ A a, Ok a.
Global Instance result_bind : MBind result := λ A B f r,
  match r with
  | Ok a => f a
  | Raise e => Raise e
  end.
Global Instance result_fmap : FMap result := λ A B f r,
  match r with
  | Ok a => Ok (f a)
  | Raise e => Raise e
  end.

(** The truth value of a string that may be [None]: [None] and the
    empty string are false. *)
Definition truthy (o : option string) : bool :=
  match o with
  | Some (String _ _) => true
  | _ => false
  end.

(** An [option] read as a call that raises [e] on [None]. *)
Definition or_raise {A} (e : exn) (o : option A) : result A :=
  match o with
  | Some a => Ok a
  | None => Raise e
  end.

Global Instance exn_eq_dec : EqDecision exn.
Proof. solve_decision. Defined.

(** [sorted(l, key=key)]: Python's sort is stable and compares keys with
    [<] only.  Every stable sort computes the same list; this one inserts
    from the right, placing an element before the first one whose key is
    not smaller. *)
Section sorted.
Context {A K : Type} (lt : K → K → bool) (key : A → K).

Fixpoint insert_sorted (x : A) (l : list A) : list A :=
  match l with
  | [] => [x]
  | y :: l' => if lt (key y) (key x) then y :: insert_sorted x l' else x :: l
  end.

Definition sorted (l : list A) : list A := foldr insert_sorted [] l.

(** [y] does not have to come before [x]. *)
Definition in_order (x y : A) : Prop := lt (key y) (key x) = false.
End sorted.

(** [int.bit_length()]. *)
Definition bit_length (n : Z) : Z :=
  if n =? 0 then 0 else Z.log2 (Z.abs n) + 1.

(** [s.split(sep)] for a one-character separator: at least one part. *)
Fixpoint split (sep : ascii) (s : string) : list string :=
  match s with
  | EmptyString => [EmptyString]
  | String c s' =>
      if decide (c = sep) then EmptyString :: split sep s'
      else match split sep s' with
           | [] => [String c EmptyString]
           | part :: parts => String c part :: parts
           end
  end.

(** [c in s] for a one-character [c] and a string [s]. *)
Fixpoint contains_char (c : ascii) (s : string) : bool :=
  match s with
  | EmptyString => false
  | String c' s' => if decide (c' = c) then true else contains_char c s'
  end.

Definition digit_value (c : ascii) : option Z :=
  let n := Z.of_N (N_of_ascii c) in
  if (48 <=? n) && (n <=? 57) then Some (n - 48) else None.

(** [s.isascii() and s.isdigit()]: non-empty and only ['0'..'9']. *)
Fixpoint all_digits (s : string) : bool :=
  match s with
  | EmptyString => true
  | String c s' => bool_decide (is_Some (digit_value c)) && all_digits s'
  end.

Definition isdigit (s : string) : bool :=
  match s with
  | EmptyString => false
  | _ => all_digits s
  end.

(** [int(s, 10)] on a string of decimal digits. *)
Fixpoint int_digits (acc : Z) (s : string) : Z :=
  match s with
  | EmptyString => acc
  | String c s' => int_digits (10 * acc + default 0 (digit_value c)) s'
  end.

Definition int (s : string) : Z := int_digits 0 s.

End Py.

(** ** The [ipaddress] module, IPv4 only

    Modelled after CPython's [Lib/ipaddress.py] (3.9.5 and later, where an
    octet with a leading zero is rejected).  The script hands this module
    only strings without [':'], which can never denote an IPv6 network, so
    the IPv6 classes are left out: every failure of the IPv4 constructor
    ends in a [ValueError] of [ip_network]. *)

Module ipaddress.
Import Py.

Definition IPV4LENGTH : Z := 32.
Definition ALL_ONES : Z := 2 ^ IPV4LENGTH - 1.

(** An [IPv4Network] object: the integer of its network address and its
    prefix length.  ([netmask] is a function of [prefixlen].) *)
Record IPv4Network : Type := Network {
  network_address : Z;
  prefixlen : Z
}.

Global Instance IPv4Network_eq_dec : EqDecision IPv4Network.
Proof. solve_decision. Defined.

Global Instance IPv4Network_countable : Countable IPv4Network.
Proof.
  refine (inj_countable' (λ n, (network_address n, prefixlen n))
                         (λ p, Network p.1 p.2) _).
  by intros [].
Defined.

(** [_ip_int_from_prefix] *)
Definition ip_int_from_prefix (prefixlen : Z) : Z :=
  Z.lxor ALL_ONES (Z.shiftr ALL_ONES prefixlen).

Definition netmask (n : IPv4Network) : Z := ip_int_from_prefix (prefixlen n).
Definition hostmask (n : IPv4Network) : Z := Z.lxor (netmask n) ALL_ONES.
Definition broadcast_address (n : IPv4Network) : Z :=
  Z.lor (network_address n) (hostmask n).

(** [_BaseNetwork.__lt__]: by network address, then by netmask. *)
Definition net_lt (a b : IPv4Network) : bool :=
  if negb (network_address a =? network_address b)
  then network_address a <? network_address b
  else if negb (netmask a =? netmask b)
       then netmask a <? netmask b
       else false.

(** [supernet()] with the default [prefixlen_diff=1]. *)
Definition supernet (n : IPv4Network) : IPv4Network :=
  if prefixlen n =? 0 then n
  else Network (Z.land (network_address n) (Z.shiftl (netmask n) 1))
               (prefixlen n - 1).

(** *** Parsing: [ip_network(s)] for a string [s] *)

(** [_parse_octet] *)
Definition parse_octet (octet_str : string) : option Z :=
  if negb (isdigit octet_str) then None
  else if 3 <? Z.of_nat (String.length octet_str) then None
  else if negb (bool_decide (octet_str = "0"%string))
          && bool_decide (String.get 0 octet_str = Some "0"%char) then None
  else let octet_int := int octet_str in
       if 255 <? octet_int then None else Some octet_int.

(** [_ip_int_from_string]: [int.from_bytes(map(_parse_octet, octets), 'big')] *)
Definition ip_int_from_string (ip_str : string) : option Z :=
  match split "."%char ip_str with
  | [o1; o2; o3; o4] =>
      a ← parse_octet o1; b ← parse_octet o2;
      c ← parse_octet o3; d ← parse_octet o4;
      Some (((a * 256 + b) * 256 + c) * 256 + d)
  | _ => None
  end.

(** [_count_righthand_zero_bits] *)
Definition count_righthand_zero_bits (number bits : Z) : Z :=
  if number =? 0 then bits
  else Z.min bits (bit_length (Z.land (Z.lnot number) (number - 1))).

(** [_prefix_from_prefix_string] *)
Definition prefix_from_prefix_string (prefixlen_str : string) : option Z :=
  if negb (isdigit prefixlen_str) then None
  else let prefixlen := int prefixlen_str in
       if (0 <=? prefixlen) && (prefixlen <=? IPV4LENGTH) then Some prefixlen
       else None.

(** [_prefix_from_ip_int] *)
Definition prefix_from_ip_int (ip_int : Z) : option Z :=
  let trailing_zeroes := count_righthand_zero_bits ip_int IPV4LENGTH in
  let prefixlen := IPV4LENGTH - trailing_zeroes in
  let leading_ones := Z.shiftr ip_int trailing_zeroes in
  let all_ones := Z.shiftl 1 prefixlen - 1 in
  if leading_ones =? all_ones then Some prefixlen else None.

(** [_prefix_from_ip_string]: a netmask, or else a hostmask. *)
Definition prefix_from_ip_string (ip_str : string) : option Z :=
  ip_int ← ip_int_from_string ip_str;
  match prefix_from_ip_int ip_int with
  | Some p => Some p
  | None => prefix_from_ip_int (Z.lxor ip_int ALL_ONES)
  end.

(** [_make_netmask] for a string argument. *)
Definition make_netmask (arg : string) : option Z :=
  match prefix_from_prefix_string arg with
  | Some p => Some p
  | None => prefix_from_ip_string arg
  end.

(** [IPv4Network(address)] with [strict=True], behind [ip_network]:
    [None] is the [ValueError]. *)
Definition ip_network (address : string) : option IPv4Network :=
  match split "/"%char address with
  | [addr] =>
      packed ← ip_int_from_string addr;
      Some (Network packed IPV4LENGTH)
  | [addr; mask] =>
      packed ← ip_int_from_string addr;
      p ← make_netmask mask;
      if Z.land packed (ip_int_from_prefix p) =? packed
      then Some (Network packed p) else None
  | _ => None
  end.

(** *** Printing: [str(network)] *)

Definition str_address (ip_int : Z) : string :=
  pretty (Z.land (Z.shiftr ip_int 24) 255) +:+ "." +:+
  pretty (Z.land (Z.shiftr ip_int 16) 255) +:+ "." +:+
  pretty (Z.land (Z.shiftr ip_int 8) 255) +:+ "." +:+
  pretty (Z.land ip_int 255).

Definition str (n : IPv4Network) : string :=
  str_address (network_address n) +:+ "/" +:+ pretty (prefixlen n).

(** *** [collapse_addresses] *)

(** [_find_address_range]: the maximal runs of consecutive integers of a
    sorted list, each as (first, last). *)
Fixpoint find_address_range_from (first last : Z) (rest : list Z)
  : list (Z * Z) :=
  match rest with
  | [] => [(first, last)]
  | ip :: rest' =>
      if negb (ip =? last + 1)
      then (first, last) :: find_address_range_from ip ip rest'
      else find_address_range_from first ip rest'
  end.

Definition find_address_range (addresses : list Z) : list (Z * Z) :=
  match addresses with
  | [] => []
  | ip :: rest => find_address_range_from ip ip rest
  end.

(** The [while first_int <= last_int] loop of [summarize_address_range].
    [fuel] bounds the number of iterations; see
    [summarize_loop_run] for the loop itself. *)
Fixpoint summarize_loop (fuel : nat) (first_int last_int : Z)
  : list IPv4Network :=
  match fuel with
  | O => []
  | S fuel' =>
      if first_int <=? last_int then
        let nbits :=
          Z.min (count_righthand_zero_bits first_int IPV4LENGTH)
                (bit_length (last_int - first_int + 1) - 1) in
        let net := Network first_int (IPV4LENGTH - nbits) in
        let first_int' := first_int + Z.shiftl 1 nbits in
        if first_int' - 1 =? ALL_ONES then [net]
        else net :: summarize_loop fuel' first_int' last_int
      else []
  end.

Definition summarize_fuel (first last : Z) : nat :=
  S (Z.to_nat (last - first + 1)).

(** [summarize_address_range(first, last)] for two IPv4 addresses. *)
Definition summarize_address_range (first last : Z)
  : result (list IPv4Network) :=
  if last <? first then Raise ValueError
  else Ok (summarize_loop (summarize_fuel first last) first last).

(** The [while to_merge] loop of [_collapse_addresses_internal].  The
    Python list [to_merge] is kept with its end first, so that [pop()]
    and [append()] act on the head.  [fuel] bounds the number of
    iterations; see [merge_loop_run] for the loop itself. *)
Fixpoint merge_loop (fuel : nat) (to_merge : list IPv4Network)
    (subnets : gmap IPv4Network IPv4Network)
  : gmap IPv4Network IPv4Network :=
  match fuel with
  | O => subnets
  | S fuel' =>
      match to_merge with
      | [] => subnets
      | net :: to_merge' =>
          let supernet := supernet net in
          match subnets !! supernet with
          | None => merge_loop fuel' to_merge' (<[supernet:=net]> subnets)
          | Some existing =>
              if decide (existing = net)
              then merge_loop fuel' to_merge' subnets
              else merge_loop fuel' (supernet :: to_merge')
                              (delete supernet subnets)
          end
      end
  end.

Definition merge_fuel (to_merge : list IPv4Network)
    (subnets : gmap IPv4Network IPv4Network) : nat :=
  S (2 * length to_merge + size subnets).

(** The [for net in sorted(subnets.values())] loop: a network is skipped
    when the last one kept reaches at least as far. *)
Fixpoint skip_subsumed (last : option IPv4Network) (nets : list IPv4Network)
  : list IPv4Network :=
  match nets with
  | [] => []
  | net :: nets' =>
      match last with
      | Some l =>
          if broadcast_address net <=? broadcast_address l
          then skip_subsumed last nets'
          else net :: skip_subsumed (Some net) nets'
      | None => net :: skip_subsumed (Some net) nets'
      end
  end.

(** [_collapse_addresses_internal] *)
Definition collapse_addresses_internal (addresses : list IPv4Network)
  : list IPv4Network :=
  let to_merge := reverse addresses in
  let subnets := merge_loop (merge_fuel to_merge ∅) to_merge ∅ in
  skip_subsumed None (sorted net_lt id (map_to_list subnets).*2).

(** The first loop of [collapse_addresses]: networks of full prefix
    length go to [ips] as addresses, the others to [nets]. *)
Fixpoint split_ips_nets (addresses : list IPv4Network)
  : list Z * list IPv4Network :=
  match addresses with
  | [] => ([], [])
  | ip :: addresses' =>
      let '(ips, nets) := split_ips_nets addresses' in
      if prefixlen ip =? IPV4LENGTH
      then (network_address ip :: ips, nets)
      else (ips, ip :: nets)
  end.

(** [collapse_addresses(addresses)] for a list of [IPv4Network]s, with
    the generator it returns run to its end. *)
Definition collapse_addresses (addresses : list IPv4Network)
  : result (list IPv4Network) :=
  let '(ips, nets) := split_ips_nets addresses in
  let ips := sorted Z.ltb id (elements (list_to_set ips : gset Z)) in
  addrs ← mapM (λ '(first, last), summarize_address_range first last)
               (find_address_range ips);
  Ok (collapse_addresses_internal (concat addrs ++ nets)).


(** *** Notions used to state what [collapse_addresses] does *)

(** A network as the constructor accepts it: the prefix length is at
    most 32, the address is a 32-bit integer and has no host bit set. *)
Definition valid_network (n : IPv4Network) : Prop :=
  0 ≤ prefixlen n ≤ IPV4LENGTH ∧
  0 ≤ network_address n < 2 ^ IPV4LENGTH ∧
  network_address n mod 2 ^ (IPV4LENGTH - prefixlen n) = 0.

(** The number of addresses of a network. *)
Definition block_size (n : IPv4Network) : Z := 2 ^ (32 - prefixlen n).

(** [x] lies between the network address and the broadcast address
    of [n]. *)
Definition contains (n : IPv4Network) (x : Z) : Prop :=
  network_address n ≤ x ≤ broadcast_address n.

(** [a.subnet_of(b)] *)
Definition subnet_of (a b : IPv4Network) : Prop :=
  network_address b ≤ network_address a ∧
  broadcast_address a ≤ broadcast_address b.

(** The addresses that some network of a list contains. *)
Definition covered (l : list IPv4Network) (x : Z) : Prop :=
  ∃ n, n ∈ l ∧ contains n x.

(** The two halves of a network. *)
Definition left_half (n : IPv4Network) : IPv4Network :=
  Network (network_address n) (prefixlen n + 1).
Definition right_half (n : IPv4Network) : IPv4Network :=
  Network (network_address n + 2 ^ (31 - prefixlen n)) (prefixlen n + 1).

(** No two different networks of the list have the same supernet. *)
Definition no_siblings (V : list IPv4Network) : Prop :=
  ∀ v1 v2, v1 ∈ V → v2 ∈ V → supernet v1 = supernet v2 → v1 = v2.

(** By network address, then by prefix length. *)
Definition before (a b : IPv4Network) : Prop :=
  network_address a < network_address b ∨
  (network_address a = network_address b ∧ prefixlen a < prefixlen b).

(** The networks of [V] that lie in no other network of [V]. *)
Definition maximal_in (V : list IPv4Network) (n : IPv4Network) : Prop :=
  n ∈ V ∧ ∀ m, m ∈ V → subnet_of n m → m = n.

(** The largest blocks inside a set of addresses. *)
Definition maximal_block (U : Z → Prop) (n : IPv4Network) : Prop :=
  valid_network n ∧ (∀ x, contains n x → U x) ∧
  ∀ m, valid_network m → subnet_of n m → (∀ x, contains m x → U x) → m = n.

(** The runs of the [while to_merge] loop, step by step. *)
Inductive merge_run :
  list IPv4Network → gmap IPv4Network IPv4Network →
  gmap IPv4Network IPv4Network → Prop :=
| merge_done subnets :
    merge_run [] subnets subnets
| merge_insert net to_merge subnets result :
    subnets !! supernet net = None →
    merge_run to_merge (<[supernet net := net]> subnets) result →
    merge_run (net :: to_merge) subnets result
| merge_same net to_merge subnets result :
    subnets !! supernet net = Some net →
    merge_run to_merge subnets result →
    merge_run (net :: to_merge) subnets result
| merge_pair net existing to_merge subnets result :
    subnets !! supernet net = Some existing → existing ≠ net →
    merge_run (supernet net :: to_merge) (delete (supernet net) subnets) result →
    merge_run (net :: to_merge) subnets result.

(** Every value of [subnets] is a valid network stored under its
    supernet. *)
Definition keyed (subnets : gmap IPv4Network IPv4Network) : Prop :=
  ∀ k v, subnets !! k = Some v → valid_network v ∧ supernet v = k.

Definition covered_map (subnets : gmap IPv4Network IPv4Network) (x : Z) : Prop :=
  ∃ k v, subnets !! k = Some v ∧ contains v x.

(** The runs of the [while first_int <= last_int] loop. *)
Inductive summarize_run (last_int : Z) : Z → list IPv4Network → Prop :=
| summarize_done first_int :
    last_int < first_int → summarize_run last_int first_int []
| summarize_break first_int :
    first_int ≤ last_int →
    let nbits := Z.min (count_righthand_zero_bits first_int IPV4LENGTH)
                       (bit_length (last_int - first_int + 1) - 1) in
    first_int + Z.shiftl 1 nbits - 1 = ALL_ONES →
    summarize_run last_int first_int [Network first_int (IPV4LENGTH - nbits)]
| summarize_next first_int nets :
    first_int ≤ last_int →
    let nbits := Z.min (count_righthand_zero_bits first_int IPV4LENGTH)
                       (bit_length (last_int - first_int + 1) - 1) in
    first_int + Z.shiftl 1 nbits - 1 ≠ ALL_ONES →
    summarize_run last_int (first_int + Z.shiftl 1 nbits) nets →
    summarize_run last_int first_int
                  (Network first_int (IPV4LENGTH - nbits) :: nets).

(** What printing a number below [bound] must satisfy to be read back. *)
Definition reads_back (bound : nat) (read : string → option Z) : bool :=
  forallb (λ k : nat,
             bool_decide (read (pretty (Z.of_nat k)) = Some (Z.of_nat k))
             && negb (contains_char "." (pretty (Z.of_nat k)))
             && negb (contains_char "/" (pretty (Z.of_nat k))))
          (seq 0 bound).

End ipaddress.

(** ** The script *)

Module Whitelister.
Import Py ipaddress.

(** *** Constants *)

Definition IP_FEED_URL : string := "https://ip-ranges.atlassian.com/".
Definition AWS_SG_RULE_LIMIT : Z := 60.
Definition AWS_SG_RULE_PORT : Z := 443.
Definition RULE_DESCRIPTION : string :=
  "Bitbucket CIDR rule added via automation".
Definition SLACK_CHANNEL : string := "#devops-jenkins".

(** *** Data *)

(** The module-level values read from the environment. *)
Record Config : Type := {
  AWS_SG_ID : option string;
  AWS_REGION : option string;
  DRY_RUN : bool;
  JENKINS_URL : option string;
  JOB_NAME : option string;
  SLACK_BOT_TOKEN : option string
}.

(** An entry of the feed's ["items"]: a JSON object in which each of the
    three keys the script reads may be absent. *)
Record FeedItem : Type := {
  product : option (list string);
  direction : option (list string);
  cidr : option string
}.

(** The feed document: a JSON object whose ["items"] may be absent. *)
Record FeedData : Type := {
  items : option (list FeedItem)
}.

(** An entry of ["IpPermissions"] as [describe_security_groups] returns
    it; the keys read with [.get] may be absent. *)
Record SgPermission : Type := {
  sg_IpProtocol : option string;
  sg_FromPort : option Z;
  sg_ToPort : option Z;
  sg_IpRanges : option (list string)  (* the ["CidrIp"] of each range *)
}.

(** An entry of ["IpRanges"] in a request. *)
Record IpRange : Type := {
  CidrIp : string;
  Description : option string
}.

(** An entry of [IpPermissions] in a request. *)
Record IpPermission : Type := {
  IpProtocol : string;
  FromPort : Z;
  ToPort : Z;
  IpRanges : list IpRange
}.

(** The text of a Slack message: which of the two templates of [main],
    and the values formatted into it. *)
Inductive message : Type :=
| AlertMsg (n_cidrs : nat) (sg jenkins_url job_name : option string)
| SuccessMsg (n_cidrs : nat) (sg jenkins_url job_name : option string).

(** What [requests.post] to Slack, [resp.json()] and [data.get("ok")]
    come to. *)
Inductive SlackReply : Type :=
| PostRaises (e : exn)      (* [requests.post] raises *)
| BodyNotJson               (* [resp.json()] raises *)
| BodyNotObject             (* [data] has no [get] *)
| BodyJson (ok : bool).     (* the truth value of [data.get("ok")] *)

(** The answers of the collaborators during one run. *)
Record World : Type := {
  feed_response : result FeedData;
  boto3_client : result unit;
  describe_response : result (option (list SgPermission));
  revoke_response : result unit;
  authorize_response : result unit;
  slack_response : SlackReply
}.

(** The lines the script prints, by the statement that prints them. *)
Inductive log_line : Type :=
| LogFetching
| LogTotalBefore (n : nat)
| LogTotalAfter (n : nat)
| LogReduced (before_count after_count : nat)
| LogNoReduction
| LogRanges (n : nat)
| LogCidr (cidr : string)
| LogCurrent (sg : option string) (n : nat)
| LogNoChangesDetected
| LogLimitAlert
| LogLimitExceeded (n : nat)
| LogChecking
| LogUpToDate
| LogRemoving (n : nat)
| LogAdding (n : nat)
| LogDryRun
| LogUpdated (n : nat)
| LogTokenNotSet
| LogSlackSent
| LogSlackFailed (e : exn).

(** What a run does to the outside, in order. *)
Inductive event : Type :=
| Print (line : log_line)
| HttpGet (url : string)
| DescribeSecurityGroups (GroupIds : list (option string))
| RevokeSecurityGroupIngress (GroupId : option string)
                             (IpPermissions : list IpPermission)
| AuthorizeSecurityGroupIngress (GroupId : option string)
                                (IpPermissions : list IpPermission)
| SlackPost (token : string) (channel : string) (text : message).

(** How a piece of the script ends: it returns a value, calls
    [sys.exit(code)], or lets an exception escape. *)
Inductive outcome (A : Type) : Type :=
| Return (a : A)
| SysExit (code : option Z)
| Uncaught (e : exn).
Global Arguments Return {A} a.
Global Arguments SysExit {A} code.
Global Arguments Uncaught {A} e.

(** A piece of the script: the events it causes and how it ends. *)
Definition prog (A : Type) : Type := list event * outcome A.

Definition ret {A} (a : A) : prog A := ([], Return a).

Definition bind {A B} (m : prog A) (f : A → prog B) : prog B :=
  match m with
  | (t, Return a) => let '(t', r) := f a in (t ++ t', r)
  | (t, SysExit c) => (t, SysExit c)
  | (t, Uncaught e) => (t, Uncaught e)
  end.

Notation "x <- m ;; k" := (bind m (λ x, k))
  (at level 100, m at next level, right associativity).
Notation "m ;; k" := (bind m (λ _, k))
  (at level 100, right associativity).

Definition emit (e : event) : prog unit := ([e], Return tt).
Definition print (line : log_line) : prog unit := emit (Print line).
Definition sys_exit {A} (code : option Z) : prog A := ([], SysExit code).
Definition raise {A} (e : exn) : prog A := ([], Uncaught e).

Definition lift {A} (r : result A) : prog A :=
  match r with
  | Ok a => ret a
  | Raise e => raise e
  end.

(** A call to a collaborator: the request is an event, the answer comes
    from the [World]. *)
Definition call {A} (request : event) (response : result A) : prog A :=
  emit request ;; lift response.

(** [for x in l: body(x)] *)
Fixpoint for_each {A} (l : list A) (body : A → prog unit) : prog unit :=
  match l with
  | [] => ret tt
  | x :: l' => body x ;; for_each l' body
  end.

(** The process exit status of a run of [main]. *)
Definition exit_status {A} (o : outcome A) : Z :=
  match o with
  | Return _ => 0
  | SysExit None => 0
  | SysExit (Some code) => code
  | Uncaught _ => 1
  end.

(** *** [extract_bitbucket_egress_ipv4] *)

(** The condition of the comprehension, lines 44 to 46. *)
Definition keep_item (item : FeedItem) : bool :=
  bool_decide ("bitbucket"%string ∈ default [] (product item))
  && bool_decide ("egress"%string ∈ default [] (direction item))
  && negb (contains_char ":" (default ""%string (cidr item))).

(** The comprehension of lines 41 to 47; [item["cidr"]] raises
    [KeyError] when the key is absent. *)
Fixpoint filter_items (l : list FeedItem) : result (list string) :=
  match l with
  | [] => Ok []
  | item :: l' =>
      if keep_item item then
        c ← or_raise (KeyError "cidr") (cidr item);
        cs ← filter_items l';
        Ok (c :: cs)
      else filter_items l'
  end.

(** The key of line 51: [(c.network_address, c.prefixlen)], compared as
    Python compares tuples. *)
Definition key_lt (a b : Z * Z) : bool :=
  (a.1 <? b.1) || ((a.1 =? b.1) && (a.2 <? b.2)).

Definition sort_key (c : IPv4Network) : Z * Z :=
  (network_address c, prefixlen c).

(** Lines 49 to 51. *)
Definition collapse_cidrs (cidrs : list string) : result (list string) :=
  cidr_objs ← mapM (λ c, or_raise ValueError (ip_network c)) cidrs;
  collapsed ← collapse_addresses cidr_objs;
  Ok (str <$> sorted key_lt sort_key collapsed).

Definition extract_bitbucket_egress_ipv4 (data : FeedData)
  : result (list string * list string) :=
  cidrs ← filter_items (default [] (items data));
  collapsed ← collapse_cidrs cidrs;
  Ok (cidrs, collapsed).

(** *** The update step, lines 76 to 80 *)

Definition to_add (after_cidrs current_cidrs : list string) : gset string :=
  let current : gset string := list_to_set current_cidrs in
  let desired : gset string := list_to_set after_cidrs in
  desired ∖ current.

Definition to_remove (after_cidrs current_cidrs : list string) : gset string :=
  let current : gset string := list_to_set current_cidrs in
  let desired : gset string := list_to_set after_cidrs in
  current ∖ desired.

Definition revoke_payload (to_remove : gset string) : list IpPermission :=
  [ {| IpProtocol := "tcp";
       FromPort := AWS_SG_RULE_PORT;
       ToPort := AWS_SG_RULE_PORT;
       IpRanges := (λ c, {| CidrIp := c; Description := None |})
                     <$> elements to_remove |} ].

Definition auth_payload (to_add : gset string) : list IpPermission :=
  [ {| IpProtocol := "tcp";
       FromPort := AWS_SG_RULE_PORT;
       ToPort := AWS_SG_RULE_PORT;
       IpRanges := (λ c, {| CidrIp := c;
                            Description := Some RULE_DESCRIPTION |})
                     <$> elements to_add |} ].

Section run.
Variable cfg : Config.
Variable world : World.

(** *** [fetch_ip_ranges] *)
Definition fetch_ip_ranges : prog FeedData :=
  call (HttpGet IP_FEED_URL) (feed_response world).

(** *** [get_sg_ingress_rules] *)

(** The loop of lines 61 to 63. *)
Definition sg_rules (perms : list SgPermission) : list string :=
  flat_map (λ perm,
    if bool_decide (sg_IpProtocol perm = Some "tcp"%string)
       && bool_decide (sg_FromPort perm = Some AWS_SG_RULE_PORT)
    then default [] (sg_IpRanges perm) else []) perms.

(** [sorted(rules, key=ipaddress.ip_network)]: the keys are computed
    first, and a key that cannot be parsed raises. *)
Definition sorted_by_network (rules : list string) : result (list string) :=
  keys ← mapM (λ c, or_raise ValueError (ip_network c)) rules;
  Ok ((sorted net_lt snd (zip rules keys)).*1).

Definition get_sg_ingress_rules : prog (list string) :=
  lift (boto3_client world) ;;
  ec2_sg <- call (DescribeSecurityGroups [AWS_SG_ID cfg])
                 (describe_response world) ;;
  lift (sorted_by_network (sg_rules (default [] ec2_sg))).

(** *** [replace_sg_ingress_rules] *)
Definition replace_sg_ingress_rules (after_cidrs current_cidrs : list string)
  : prog unit :=
  lift (boto3_client world) ;;
  print LogChecking ;;
  let to_add := to_add after_cidrs current_cidrs in
  let to_remove := to_remove after_cidrs current_cidrs in
  if bool_decide (to_add = ∅) && bool_decide (to_remove = ∅) then
    print LogUpToDate
  else
    (if negb (bool_decide (to_remove = ∅)) then
       print (LogRemoving (size to_remove)) ;;
       for_each (elements to_remove) (λ cidr, print (LogCidr cidr)) ;;
       if negb (DRY_RUN cfg) then
         call (RevokeSecurityGroupIngress (AWS_SG_ID cfg)
                                          (revoke_payload to_remove))
              (revoke_response world)
       else ret tt
     else ret tt) ;;
    (if negb (bool_decide (to_add = ∅)) then
       print (LogAdding (size to_add)) ;;
       for_each (elements to_add) (λ cidr, print (LogCidr cidr)) ;;
       if negb (DRY_RUN cfg) then
         call (AuthorizeSecurityGroupIngress (AWS_SG_ID cfg)
                                             (auth_payload to_add))
              (authorize_response world)
       else ret tt
     else ret tt) ;;
    if DRY_RUN cfg then
      print LogDryRun ;;
      sys_exit None
    else ret tt.

(** *** [send_slack_alert] *)

(** The [try] block of lines 139 to 144. *)
Definition slack_try (token : string) (text : message) : prog unit :=
  emit (SlackPost token SLACK_CHANNEL text) ;;
  match slack_response world with
  | PostRaises e => raise e
  | BodyNotJson => raise ValueError
  | BodyNotObject => raise AttributeError
  | BodyJson ok =>
      if negb ok then raise Exception
      else print LogSlackSent
  end.

(** [try: body except Exception as e: handler(e)]; [SystemExit] is not
    an [Exception] and passes through. *)
Definition try_except {A} (body : prog A) (handler : exn → prog A)
  : prog A :=
  match body with
  | (t, Uncaught e) => let '(t', r) := handler e in (t ++ t', r)
  | other => other
  end.

Definition send_slack_alert (text : message) : prog unit :=
  if negb (truthy (SLACK_BOT_TOKEN cfg)) then
    print LogTokenNotSet ;;
    sys_exit (Some 1)
  else
    try_except (slack_try (default ""%string (SLACK_BOT_TOKEN cfg)) text)
               (λ e, print (LogSlackFailed e)).

(** *** [main] *)

(** Lines 150 to 173: the desired and the current list. *)
Definition main_read : prog (list string * list string) :=
  print LogFetching ;;
  data <- fetch_ip_ranges ;;
  extracted <- lift (extract_bitbucket_egress_ipv4 data) ;;
  let '(before_cidrs, after_cidrs) := extracted in
  let before_count := length before_cidrs in
  let after_count := length after_cidrs in
  print (LogTotalBefore before_count) ;;
  print (LogTotalAfter after_count) ;;
  (if bool_decide (after_count < before_count)%nat
   then print (LogReduced before_count after_count)
   else print LogNoReduction) ;;
  print (LogRanges (length after_cidrs)) ;;
  for_each after_cidrs (λ cidr, print (LogCidr cidr)) ;;
  current_cidrs <- get_sg_ingress_rules ;;
  print (LogCurrent (AWS_SG_ID cfg) (length current_cidrs)) ;;
  for_each current_cidrs (λ cidr, print (LogCidr cidr)) ;;
  ret (after_cidrs, current_cidrs).

(** Lines 175 to 204: what to do with them. *)
Definition main_update (after_cidrs current_cidrs : list string)
  : prog unit :=
  if bool_decide (after_cidrs = current_cidrs) then
    print LogNoChangesDetected
  else if bool_decide (AWS_SG_RULE_LIMIT < Z.of_nat (length after_cidrs)) then
    let alert_msg :=
      AlertMsg (length after_cidrs) (AWS_SG_ID cfg) (JENKINS_URL cfg)
               (JOB_NAME cfg) in
    print LogLimitAlert ;;
    print (LogLimitExceeded (length after_cidrs)) ;;
    (if negb (DRY_RUN cfg) then send_slack_alert alert_msg else ret tt) ;;
    sys_exit (Some 1)
  else
    replace_sg_ingress_rules after_cidrs current_cidrs ;;
    let success_msg :=
      SuccessMsg (length after_cidrs) (AWS_SG_ID cfg) (JENKINS_URL cfg)
                 (JOB_NAME cfg) in
    print (LogUpdated (length after_cidrs)) ;;
    send_slack_alert success_msg.

Definition main : prog unit :=
  lists <- main_read ;;
  main_update lists.1 lists.2.

End run.

(** The firewall mutation calls among the events of a run. *)
Definition is_mutation (e : event) : bool :=
  match e with
  | RevokeSecurityGroupIngress _ _ | AuthorizeSecurityGroupIngress _ _ => true
  | _ => false
  end.

Definition mutations (t : list event) : list event := filter is_mutation t.

Definition is_slack_post (e : event) : bool :=
  match e with
  | SlackPost _ _ _ => true
  | _ => false
  end.

Definition slack_posts (t : list event) : list event := filter is_slack_post t.

(** A permission entry for TCP port 443 and nothing else. *)
Definition tcp_443 (p : IpPermission) : Prop :=
  IpProtocol p = "tcp"%string ∧ FromPort p = 443 ∧ ToPort p = 443.

(** An event that, if it is a mutation call, only names TCP port 443. *)
Definition touches_only_443 (e : event) : Prop :=
  match e with
  | RevokeSecurityGroupIngress _ ps
  | AuthorizeSecurityGroupIngress _ ps => Forall tcp_443 ps
  | _ => True
  end.

(** The same run with another answer from Slack. *)
Definition with_slack_response (w : World) (reply : SlackReply) : World :=
  {| feed_response := feed_response w;
     boto3_client := boto3_client w;
     describe_response := describe_response w;
     revoke_response := revoke_response w;
     authorize_response := authorize_response w;
     slack_response := reply |}.

(** The CIDRs a request payload carries. *)
Definition payload_cidrs (ps : list IpPermission) : list string :=
  p ← ps; CidrIp <$> IpRanges p.

End Whitelister.

(** ** Concrete inputs *)

Module Examples.
Import Py ipaddress Whitelister.
Local Open Scope string_scope.

Definition bitbucket_item (c : string) : FeedItem :=
  {| product := Some ["bitbucket"]; direction := Some ["egress"];
     cidr := Some c |}.

Definition feed_of (cidrs : list string) : FeedData :=
  {| items := Some (bitbucket_item <$> cidrs) |}.

Definition tcp_rule (to_port : Z) (cidrs : list string) : SgPermission :=
  {| sg_IpProtocol := Some "tcp"; sg_FromPort := Some 443;
     sg_ToPort := Some to_port; sg_IpRanges := Some cidrs |}.

(** A run in which every collaborator answers normally. *)
Definition world_of (feed : FeedData) (perms : list SgPermission) : World :=
  {| feed_response := Ok feed;
     boto3_client := Ok tt;
     describe_response := Ok (Some perms);
     revoke_response := Ok tt;
     authorize_response := Ok tt;
     slack_response := BodyJson true |}.

Definition config (dry_run : bool) (token : option string) : Config :=
  {| AWS_SG_ID := Some "sg-0123"; AWS_REGION := Some "us-east-1";
     DRY_RUN := dry_run; JENKINS_URL := None; JOB_NAME := None;
     SLACK_BOT_TOKEN := token |}.

(** 61 ranges no two of which merge: 10.0.0.0/24, 10.1.0.0/24, ... *)
Definition sixty_one : list string :=
  (λ k : nat, "10." +:+ pretty k +:+ ".0.0/24") <$> seq 0 61.

Definition token : option string := Some "xoxb-token".

(** One desired range, which the group already allows twice: once for
    port 443 alone and once for the port range 443 to 8443. *)
Definition world_twice : World :=
  world_of (feed_of ["10.0.0.0/24"])
           [tcp_rule 443 ["10.0.0.0/24"]; tcp_rule 8443 ["10.0.0.0/24"]].

(** A feed entry tagged for Bitbucket egress that has no ["cidr"]. *)
Definition item_without_cidr : FeedItem :=
  {| product := Some ["bitbucket"]; direction := Some ["egress"];
     cidr := None |}.

(** Scenario B of the specification. *)
Definition world_B : World :=
  world_of (feed_of ["10.0.0.0/24"; "10.0.1.0/24"])
           [tcp_rule 443 ["10.0.1.0/24"; "10.0.0.0/24"]].

(** A feed document without ["items"], and a group with one rule. *)
Definition world_no_items : World :=
  world_of {| items := None |} [tcp_rule 443 ["10.0.0.0/24"]].

(** The group holds the two desired ranges, in another order. *)
Definition world_in_sync : World :=
  world_of (feed_of ["10.0.0.0/24"; "10.0.2.0/24"])
           [tcp_rule 443 ["10.0.2.0/24"; "10.0.0.0/24"]].

(** The feed request fails. *)
Definition world_feed_down : World :=
  {| feed_response := Raise HTTPError;
     boto3_client := Ok tt;
     describe_response := Ok (Some []);
     revoke_response := Ok tt;
     authorize_response := Ok tt;
     slack_response := BodyJson true |}.

(** Scenario B with a revoke call that fails. *)
Definition world_B_revoke_fails : World :=
  {| feed_response := feed_response world_B;
     boto3_client := Ok tt;
     describe_response := describe_response world_B;
     revoke_response := Raise ClientError;
     authorize_response := Ok tt;
     slack_response := BodyJson true |}.

End Examples.

Import Py ipaddress Whitelister.

(** ** The monad of runs *)

Section prog_lemmas.
Context (P : event → Prop).

Lemma bind_fst_Return {A B} (m : prog A) (f : A → prog B) t a :
  m = (t, Return a) → bind m f = (t ++ (f a).1, (f a).2).
Proof. intros ->. unfold bind. by destruct (f a). Qed.

Lemma Forall_bind {A B} (m : prog A) (f : A → prog B) :
  Forall P m.1 → (∀ a, Forall P (f a).1) → Forall P (bind m f).1.
Proof.
  destruct m as [t [a| |]]; simpl; intros Ht Hf; try done.
  specialize (Hf a). destruct (f a) as [t' r]. simpl in *.
  by apply Forall_app.
Qed.

Lemma Forall_ret {A} (a : A) : Forall P (ret a).1.
Proof. constructor. Qed.

Lemma Forall_lift {A} (r : result A) : Forall P (lift r).1.
Proof. destruct r; constructor. Qed.

Lemma Forall_sys_exit {A} c : Forall P (@sys_exit A c).1.
Proof. constructor. Qed.

Lemma Forall_raise {A} e : Forall P (@raise A e).1.
Proof. constructor. Qed.

Lemma Forall_emit e : P e → Forall P (emit e).1.
Proof. by repeat constructor. Qed.

Lemma Forall_call {A} e (r : result A) : P e → Forall P (call e r).1.
Proof.
  intros. apply Forall_bind; [by apply Forall_emit|intros; apply Forall_lift].
Qed.

Lemma Forall_for_each {A} (l : list A) body :
  (∀ x, Forall P (body x).1) → Forall P (for_each l body).1.
Proof.
  intros Hb. induction l; simpl; [constructor|].
  by apply Forall_bind.
Qed.

Lemma Forall_try_except {A} (body : prog A) handler :
  Forall P body.1 → (∀ e, Forall P (handler e).1) →
  Forall P (try_except body handler).1.
Proof.
  destruct body as [t [a| |e]]; simpl; intros Ht Hh; try done.
  specialize (Hh e). destruct (handler e). simpl in *. by apply Forall_app.
Qed.
End prog_lemmas.

(** Decomposes a goal [Forall P (...).1] along the structure of the
    program; what remains are the events themselves. *)
Ltac trace_step :=
  first
    [ apply Forall_bind; [|intros]
    | apply Forall_ret
    | apply Forall_lift
    | apply Forall_sys_exit
    | apply Forall_raise
    | apply Forall_for_each; intros
    | apply Forall_try_except; [|intros]
    | apply Forall_call
    | apply Forall_emit
    | match goal with
      | |- Forall _ (if ?b then _ else _).1 => destruct b
      | |- Forall _ (match ?x with _ => _ end).1 => destruct x
      | |- Forall _ (let '(_, _) := ?x in _).1 => destruct x
      end ].

Ltac trace_solve := repeat trace_step.

(** ** The update step *)

Section diff.
Implicit Types D C : list string.

Lemma to_add_spec D C c : c ∈ to_add D C ↔ c ∈ D ∧ c ∉ C.
Proof. unfold to_add. set_solver. Qed.

Lemma to_remove_spec D C c : c ∈ to_remove D C ↔ c ∈ C ∧ c ∉ D.
Proof. unfold to_remove. set_solver. Qed.

Lemma diff_empty_iff D C :
  to_add D C = ∅ ∧ to_remove D C = ∅ ↔
  (list_to_set D : gset string) = list_to_set C.
Proof.
  unfold to_add, to_remove. split.
  - intros [Ha Hr]. apply set_eq. intros c.
    destruct (decide (c ∈ (list_to_set C : gset string)));
      destruct (decide (c ∈ (list_to_set D : gset string))); set_solver.
  - intros ->. set_solver.
Qed.
End diff.

(** C1. For every desired list D and current list C of CIDR strings, the
    sets the update step computes from them satisfy: toAdd is D without C,
    toRemove is C without D, the two are disjoint, and C without toRemove,
    joined with toAdd, is D. *)
Theorem diff_correct (D C : list string) :
  let desired : gset string := list_to_set D in
  let current : gset string := list_to_set C in
  to_add D C = desired ∖ current ∧
  to_remove D C = current ∖ desired ∧
  to_add D C ## to_remove D C ∧
  (current ∖ to_remove D C) ∪ to_add D C = desired.
Proof.
  intros desired current. unfold to_add, to_remove.
  fold desired current. split_and!; [done|done|set_solver|].
  apply set_eq. intros c.
  destruct (decide (c ∈ current)); destruct (decide (c ∈ desired)); set_solver.
Qed.

Lemma for_each_print {A} (l : list A) (f : A → log_line) :
  for_each l (λ x, print (f x)) = ((λ x, Print (f x)) <$> l, Return tt).
Proof.
  induction l as [|x l IH]; [done|].
  simpl. rewrite IH. done.
Qed.

Lemma mutations_app t1 t2 : mutations (t1 ++ t2) = mutations t1 ++ mutations t2.
Proof. apply filter_app. Qed.

Lemma mutations_prints {A} (l : list A) (f : A → log_line) :
  mutations ((λ x, Print (f x)) <$> l) = [].
Proof. induction l; [done|]. by rewrite fmap_cons. Qed.

Lemma mutations_nil_Forall t :
  mutations t = [] ↔ Forall (λ e, is_mutation e = false) t.
Proof.
  unfold mutations. induction t as [|e t IH]; [by split; constructor|].
  rewrite filter_cons, Forall_cons. destruct (is_mutation e) eqn:He.
  - rewrite decide_True by done. split; [done|]. by intros [? _].
  - rewrite decide_False by (by intros []). rewrite IH. naive_solver.
Qed.

Lemma mutations_cons e t :
  mutations (e :: t) = if is_mutation e then e :: mutations t else mutations t.
Proof.
  unfold mutations. rewrite filter_cons. by destruct (is_mutation e).
Qed.

Ltac mutations_simpl :=
  repeat (rewrite ?mutations_cons, ?mutations_app, ?mutations_prints; simpl).

Lemma revoke_payload_cidrs (rm : gset string) :
  payload_cidrs (revoke_payload rm) = elements rm.
Proof.
  unfold payload_cidrs, revoke_payload. simpl.
  rewrite app_nil_r, <- list_fmap_compose. apply list_fmap_id.
Qed.

Lemma auth_payload_cidrs (add : gset string) :
  payload_cidrs (auth_payload add) = elements add.
Proof.
  unfold payload_cidrs, auth_payload. simpl.
  rewrite app_nil_r, <- list_fmap_compose. apply list_fmap_id.
Qed.

(** C10. Every revoke or authorize request a run makes carries only
    permission entries with IpProtocol tcp and FromPort = ToPort = 443,
    whatever the configuration, the feed and the current rules are. *)
Theorem mutations_touch_only_443 (cfg : Config) (w : World) :
  Forall touches_only_443 (main cfg w).1.
Proof.
  unfold main, main_update, main_read, get_sg_ingress_rules, fetch_ip_ranges,
    replace_sg_ingress_rules, send_slack_alert, slack_try, print.
  trace_solve; simpl; try done.
  all: by repeat constructor.
Qed.

(** C8. Outside dry-run mode the mutation calls of the update step are, in
    this order, one revoke request when toRemove is not empty and one
    authorize request when toAdd is not empty: the calls made are a
    prefix of that list, and the whole list when no call fails.  The
    revoke request carries exactly the CIDRs of toRemove and the
    authorize request exactly those of toAdd. *)
Theorem revoke_before_authorize (cfg : Config) (w : World)
    (after_cidrs current_cidrs : list string) :
  DRY_RUN cfg = false →
  let rm := to_remove after_cidrs current_cidrs in
  let add := to_add after_cidrs current_cidrs in
  let revoke :=
    RevokeSecurityGroupIngress (AWS_SG_ID cfg) (revoke_payload rm) in
  let authorize :=
    AuthorizeSecurityGroupIngress (AWS_SG_ID cfg) (auth_payload add) in
  let expected :=
    (if decide (rm = ∅) then [] else [revoke]) ++
    (if decide (add = ∅) then [] else [authorize]) in
  let calls :=
    mutations (replace_sg_ingress_rules cfg w after_cidrs current_cidrs).1 in
  calls `prefix_of` expected ∧
  (boto3_client w = Ok tt → revoke_response w = Ok tt →
   authorize_response w = Ok tt → calls = expected) ∧
  length (revoke_payload rm) = 1%nat ∧
  length (auth_payload add) = 1%nat ∧
  (∀ c, c ∈ payload_cidrs (revoke_payload rm) ↔ c ∈ rm) ∧
  (∀ c, c ∈ payload_cidrs (auth_payload add) ↔ c ∈ add).
Proof.
  intros Hdry rm add revoke authorize expected calls.
  assert (Hcalls :
    match boto3_client w with
    | Raise _ => calls = []
    | Ok _ =>
        calls =
          (if decide (rm = ∅) then [] else
             revoke :: match revoke_response w with
                       | Ok _ => []
                       | Raise _ => []
                       end) ++
          (if decide (add = ∅) then [] else
             match (if decide (rm = ∅) then Ok tt else revoke_response w) with
             | Ok _ => [authorize]
             | Raise _ => []
             end)
    end).
  { subst calls revoke authorize. unfold replace_sg_ingress_rules.
    fold rm add. rewrite Hdry.
    rewrite !for_each_print. unfold call, print, emit, lift, ret, raise.
    destruct (boto3_client w) as [[]|e0]; [|done].
    destruct (decide (rm = ∅)) as [Hrm|Hrm], (decide (add = ∅)) as [Hadd|Hadd];
      rewrite ?(bool_decide_eq_true_2 _ Hrm), ?(bool_decide_eq_false_2 _ Hrm),
        ?(bool_decide_eq_true_2 _ Hadd), ?(bool_decide_eq_false_2 _ Hadd);
      destruct (revoke_response w) as [[]|e1];
      destruct (authorize_response w) as [[]|e2]; simpl;
      mutations_simpl; done. }
  split_and!; try done.
  - subst expected. destruct (boto3_client w); [|rewrite Hcalls; apply prefix_nil].
    rewrite Hcalls.
    destruct (decide (rm = ∅)), (decide (add = ∅)), (revoke_response w);
      simpl; try done; try apply prefix_nil; by apply prefix_cons, prefix_nil.
  - intros Hb Hr Ha. rewrite Hb, Hr in Hcalls. rewrite Hcalls. subst expected.
    by destruct (decide (rm = ∅)), (decide (add = ∅)).
  - intros c. rewrite revoke_payload_cidrs. apply elem_of_elements.
  - intros c. rewrite auth_payload_cidrs. apply elem_of_elements.
Qed.

(** ** Runs of [main] *)

Lemma slack_posts_cons e t :
  slack_posts (e :: t) =
  if is_slack_post e then e :: slack_posts t else slack_posts t.
Proof.
  unfold slack_posts. rewrite filter_cons. by destruct (is_slack_post e).
Qed.

Lemma slack_posts_app t1 t2 :
  slack_posts (t1 ++ t2) = slack_posts t1 ++ slack_posts t2.
Proof. apply filter_app. Qed.

Lemma slack_posts_prints {A} (l : list A) (f : A → log_line) :
  slack_posts ((λ x, Print (f x)) <$> l) = [].
Proof. induction l; [done|]. by rewrite fmap_cons. Qed.

Lemma slack_posts_nil_Forall t :
  slack_posts t = [] ↔ Forall (λ e, is_slack_post e = false) t.
Proof.
  induction t as [|e t IH]; [by split; constructor|].
  rewrite slack_posts_cons, Forall_cons. destruct (is_slack_post e).
  - split; [done|]. by intros [? _].
  - rewrite IH. naive_solver.
Qed.

Ltac slack_simpl :=
  repeat (rewrite ?slack_posts_cons, ?slack_posts_app, ?slack_posts_prints;
          simpl).

Lemma bind_Return_inv {A B} (m : prog A) (f : A → prog B) t b :
  bind m f = (t, Return b) →
  ∃ t1 a t2, m = (t1, Return a) ∧ f a = (t2, Return b) ∧ t = t1 ++ t2.
Proof.
  destruct m as [t1 [a| |]]; simpl; [|done..].
  destruct (f a) as [t2 r] eqn:Hf. intros [= <- ->]. eauto 6.
Qed.

Lemma main_read_mutations cfg w : mutations (main_read cfg w).1 = [].
Proof.
  apply mutations_nil_Forall.
  unfold main_read, get_sg_ingress_rules, fetch_ip_ranges, print.
  trace_solve; done.
Qed.

Lemma main_read_slack_posts cfg w : slack_posts (main_read cfg w).1 = [].
Proof.
  apply slack_posts_nil_Forall.
  unfold main_read, get_sg_ingress_rules, fetch_ip_ranges, print.
  trace_solve; done.
Qed.

Lemma main_read_boto3_client cfg w t lists :
  main_read cfg w = (t, Return lists) → boto3_client w = Ok tt.
Proof.
  unfold main_read, fetch_ip_ranges, get_sg_ingress_rules, call, lift.
  destruct (feed_response w) as [data|]; simpl; [|done].
  destruct (extract_bitbucket_egress_ipv4 data) as [[b a]|]; simpl; [|done].
  destruct (boto3_client w) as [[]|]; [done|].
  rewrite for_each_print. by destruct (bool_decide _).
Qed.

Lemma main_after_read cfg w t after_cidrs current_cidrs :
  main_read cfg w = (t, Return (after_cidrs, current_cidrs)) →
  main cfg w = (t ++ (main_update cfg w after_cidrs current_cidrs).1,
                (main_update cfg w after_cidrs current_cidrs).2).
Proof. intros H. unfold main. by rewrite (bind_fst_Return _ _ _ _ H). Qed.

(** *** The rule limit *)

Lemma main_update_over_limit cfg w after_cidrs current_cidrs :
  after_cidrs ≠ current_cidrs →
  AWS_SG_RULE_LIMIT < Z.of_nat (length after_cidrs) →
  let alert :=
    SlackPost (default ""%string (SLACK_BOT_TOKEN cfg)) SLACK_CHANNEL
      (AlertMsg (length after_cidrs) (AWS_SG_ID cfg) (JENKINS_URL cfg)
                (JOB_NAME cfg)) in
  let r := main_update cfg w after_cidrs current_cidrs in
  mutations r.1 = [] ∧
  r.2 = SysExit (Some 1) ∧
  slack_posts r.1 =
    if DRY_RUN cfg then []
    else if truthy (SLACK_BOT_TOKEN cfg) then [alert] else [].
Proof.
  intros Hne Hlimit alert r. subst r alert. unfold main_update.
  rewrite (bool_decide_eq_false_2 _ Hne), (bool_decide_eq_true_2 _ Hlimit).
  unfold send_slack_alert, slack_try.
  destruct (DRY_RUN cfg); simpl; [done|].
  destruct (truthy (SLACK_BOT_TOKEN cfg)); simpl; [|done].
  by destruct (slack_response w) as [e| | |[]].
Qed.

(** C2 (amended). Whenever the collapsed desired list has more than 60
    entries and differs from the current list, the run makes no authorize
    or revoke call, ends with exit status 1, and posts the alert to Slack
    exactly once when it is not a dry run and the Slack bot token is set;
    in a dry run, and when the token is not set, nothing is posted. *)
Theorem over_limit_aborts (cfg : Config) (w : World) (t : list event)
    (after_cidrs current_cidrs : list string) :
  main_read cfg w = (t, Return (after_cidrs, current_cidrs)) →
  after_cidrs ≠ current_cidrs →
  AWS_SG_RULE_LIMIT < Z.of_nat (length after_cidrs) →
  let alert :=
    SlackPost (default ""%string (SLACK_BOT_TOKEN cfg)) SLACK_CHANNEL
      (AlertMsg (length after_cidrs) (AWS_SG_ID cfg) (JENKINS_URL cfg)
                (JOB_NAME cfg)) in
  mutations (main cfg w).1 = [] ∧
  exit_status (main cfg w).2 = 1 ∧
  slack_posts (main cfg w).1 =
    if DRY_RUN cfg then []
    else if truthy (SLACK_BOT_TOKEN cfg) then [alert] else [].
Proof.
  intros Hread Hne Hlimit alert.
  destruct (main_update_over_limit cfg w _ _ Hne Hlimit) as (Hm & Ho & Hs).
  rewrite (main_after_read _ _ _ _ _ Hread). simpl.
  rewrite mutations_app, slack_posts_app, Hm, Ho, Hs.
  pose proof (main_read_mutations cfg w) as Hm0.
  pose proof (main_read_slack_posts cfg w) as Hs0.
  rewrite Hread in Hm0, Hs0. simpl in Hm0, Hs0. by rewrite Hm0, Hs0.
Qed.

(** *** Dry runs *)

Lemma replace_dry_run cfg w after_cidrs current_cidrs :
  DRY_RUN cfg = true →
  boto3_client w = Ok tt →
  to_add after_cidrs current_cidrs ≠ ∅ ∨
    to_remove after_cidrs current_cidrs ≠ ∅ →
  let r := replace_sg_ingress_rules cfg w after_cidrs current_cidrs in
  r.2 = SysExit None ∧ mutations r.1 = [] ∧ slack_posts r.1 = [] ∧
  Print LogDryRun ∈ r.1.
Proof.
  intros Hdry Hb Hdiff r. subst r. unfold replace_sg_ingress_rules.
  rewrite Hdry, Hb, !for_each_print.
  destruct (decide (to_add after_cidrs current_cidrs = ∅)) as [Ha|Ha];
    destruct (decide (to_remove after_cidrs current_cidrs = ∅)) as [Hr|Hr];
    [naive_solver|..];
    rewrite ?(bool_decide_eq_true_2 _ Ha), ?(bool_decide_eq_false_2 _ Ha),
      ?(bool_decide_eq_true_2 _ Hr), ?(bool_decide_eq_false_2 _ Hr); simpl;
    rewrite ?app_nil_r; (split_and!; [done|by mutations_simpl|by slack_simpl|]);
    repeat (first [apply list_elem_of_here | apply list_elem_of_further
                  | apply elem_of_app; right]).
Qed.

(** C4 (amended). When the dry-run flag is set, the computed diff is not
    empty and the desired list is within the rule limit, the run makes no
    mutation call and no Slack post and ends through [sys.exit()] with
    exit status 0, the status of a successful run. *)
Theorem dry_run_exits_zero (cfg : Config) (w : World) (t : list event)
    (after_cidrs current_cidrs : list string) :
  main_read cfg w = (t, Return (after_cidrs, current_cidrs)) →
  DRY_RUN cfg = true →
  to_add after_cidrs current_cidrs ≠ ∅ ∨
    to_remove after_cidrs current_cidrs ≠ ∅ →
  Z.of_nat (length after_cidrs) ≤ AWS_SG_RULE_LIMIT →
  (main cfg w).2 = SysExit None ∧
  exit_status (main cfg w).2 = 0 ∧
  mutations (main cfg w).1 = [] ∧
  slack_posts (main cfg w).1 = [] ∧
  Print LogDryRun ∈ (main cfg w).1.
Proof.
  intros Hread Hdry Hdiff Hlimit.
  pose proof (main_read_boto3_client _ _ _ _ Hread) as Hb.
  destruct (replace_dry_run cfg w _ _ Hdry Hb Hdiff) as (Ho & Hm & Hs & Hlog).
  pose proof (main_read_mutations cfg w) as Hm0.
  pose proof (main_read_slack_posts cfg w) as Hs0.
  rewrite Hread in Hm0, Hs0. simpl in Hm0, Hs0.
  assert (Hne : after_cidrs ≠ current_cidrs).
  { intros ->. unfold to_add, to_remove in Hdiff. set_solver. }
  rewrite (main_after_read _ _ _ _ _ Hread). unfold main_update.
  rewrite (bool_decide_eq_false_2 _ Hne).
  rewrite bool_decide_eq_false_2 by lia.
  destruct (replace_sg_ingress_rules cfg w after_cidrs current_cidrs)
    as [t' o]. simpl in *. subst o. simpl.
  rewrite mutations_app, slack_posts_app, Hm, Hs, Hm0, Hs0.
  split_and!; try done. apply elem_of_app. by right.
Qed.

(** *** Slack notifications *)

Lemma bind_snd {A B} (m : prog A) (f : A → prog B) :
  (bind m f).2 =
  match m.2 with
  | Return a => (f a).2
  | SysExit c => SysExit c
  | Uncaught e => Uncaught e
  end.
Proof. destruct m as [t [a| |]]; simpl; [|done..]. by destruct (f a). Qed.

Lemma send_slack_alert_returns cfg w text :
  truthy (SLACK_BOT_TOKEN cfg) = true →
  (send_slack_alert cfg w text).2 = Return tt.
Proof.
  intros Htoken. unfold send_slack_alert, slack_try. rewrite Htoken. simpl.
  by destruct (slack_response w) as [e| | |[]].
Qed.

Lemma send_slack_alert_logs_failure cfg w text :
  truthy (SLACK_BOT_TOKEN cfg) = true →
  slack_response w ≠ BodyJson true →
  ∃ e, Print (LogSlackFailed e) ∈ (send_slack_alert cfg w text).1.
Proof.
  intros Htoken Hfail. unfold send_slack_alert, slack_try. rewrite Htoken.
  simpl. destruct (slack_response w) as [e| | |[]]; simpl; [..|done| ];
    eexists; apply list_elem_of_further, list_elem_of_here.
Qed.

Lemma send_slack_alert_no_token cfg w text :
  truthy (SLACK_BOT_TOKEN cfg) = false →
  send_slack_alert cfg w text = ([Print LogTokenNotSet], SysExit (Some 1)).
Proof. intros Htoken. unfold send_slack_alert. by rewrite Htoken. Qed.

Lemma main_update_outcome_slack cfg w reply after_cidrs current_cidrs :
  truthy (SLACK_BOT_TOKEN cfg) = true →
  (main_update cfg (with_slack_response w reply) after_cidrs current_cidrs).2
  = (main_update cfg w after_cidrs current_cidrs).2.
Proof.
  intros Htoken. unfold main_update.
  repeat case_bool_decide; [done| |].
  - repeat (rewrite !bind_snd; simpl).
    destruct (DRY_RUN cfg); simpl; [done|].
    by rewrite !send_slack_alert_returns.
  - change (replace_sg_ingress_rules cfg (with_slack_response w reply))
      with (replace_sg_ingress_rules cfg w).
    rewrite !bind_snd.
    destruct (replace_sg_ingress_rules cfg w after_cidrs current_cidrs).2;
      [|done..].
    repeat (rewrite !bind_snd; simpl). by rewrite !send_slack_alert_returns.
Qed.

(** C5 (amended). With a Slack bot token configured, a failure of the
    notification call never aborts the run: whatever the request does
    (it raises, the body is not JSON, the reply is not ok), the
    notification step returns normally, logs the failure, and the way the
    run ends does not depend on it.  Without a token the notification
    step does not return: it logs that and exits with status 1. *)
Theorem notification_failure_not_fatal (cfg : Config) (w : World)
    (text : message) (reply : SlackReply) :
  (truthy (SLACK_BOT_TOKEN cfg) = true →
     (send_slack_alert cfg w text).2 = Return tt ∧
     (slack_response w ≠ BodyJson true →
      ∃ e, Print (LogSlackFailed e) ∈ (send_slack_alert cfg w text).1) ∧
     (main cfg (with_slack_response w reply)).2 = (main cfg w).2) ∧
  (truthy (SLACK_BOT_TOKEN cfg) = false →
     send_slack_alert cfg w text = ([Print LogTokenNotSet], SysExit (Some 1))).
Proof.
  split; [|apply send_slack_alert_no_token].
  intros Htoken. split_and!.
  - by apply send_slack_alert_returns.
  - by apply send_slack_alert_logs_failure.
  - unfold main.
    change (main_read cfg (with_slack_response w reply))
      with (main_read cfg w).
    rewrite !bind_snd. destruct (main_read cfg w).2; [|done..].
    by apply main_update_outcome_slack.
Qed.

(** *** Malformed ranges *)

Lemma parse_all_malformed (cidrs : list string) :
  Exists (λ c, ip_network c = None) cidrs →
  mapM (λ c, or_raise ValueError (ip_network c)) cidrs = Raise ValueError.
Proof.
  induction 1 as [c l Hc|c l _ IH]; simpl.
  - by rewrite Hc.
  - rewrite IH. by destruct (ip_network c).
Qed.

(** C7. If a CIDR string that passed the feed filter is malformed, the
    normalization raises [ValueError] instead of returning a collapsed
    list, and the run ends there with that exception: nothing follows the
    feed request, so no firewall call of any kind is made. *)
Theorem malformed_cidr_aborts (cfg : Config) (w : World) (data : FeedData)
    (cidrs : list string) :
  feed_response w = Ok data →
  filter_items (default [] (items data)) = Ok cidrs →
  Exists (λ c, ip_network c = None) cidrs →
  collapse_cidrs cidrs = Raise ValueError ∧
  extract_bitbucket_egress_ipv4 data = Raise ValueError ∧
  main cfg w = ([Print LogFetching; HttpGet IP_FEED_URL], Uncaught ValueError) ∧
  mutations (main cfg w).1 = [] ∧
  exit_status (main cfg w).2 = 1.
Proof.
  intros Hfeed Hfilter Hbad.
  assert (Hc : collapse_cidrs cidrs = Raise ValueError).
  { unfold collapse_cidrs. by rewrite parse_all_malformed. }
  assert (He : extract_bitbucket_egress_ipv4 data = Raise ValueError).
  { unfold extract_bitbucket_egress_ipv4. rewrite Hfilter. simpl.
    by rewrite Hc. }
  assert (Hmain : main cfg w =
    ([Print LogFetching; HttpGet IP_FEED_URL], Uncaught ValueError)).
  { unfold main, main_read, fetch_ip_ranges. rewrite Hfeed. simpl.
    by rewrite He. }
  rewrite Hmain. done.
Qed.

(** *** The feed filter *)

Lemma keep_item_iff (item : FeedItem) :
  keep_item item = true ↔
  "bitbucket"%string ∈ default [] (product item) ∧
  "egress"%string ∈ default [] (direction item) ∧
  contains_char ":" (default ""%string (cidr item)) = false.
Proof.
  unfold keep_item. rewrite !andb_true_iff, !bool_decide_eq_true,
    negb_true_iff. naive_solver.
Qed.

(** Entries that lack ["product"] or ["direction"] are dropped. *)
Lemma keep_item_missing_tags (item : FeedItem) :
  product item = None ∨ direction item = None → keep_item item = false.
Proof.
  intros Hmissing. apply not_true_is_false. rewrite keep_item_iff.
  intros (Hp & Hd & _).
  destruct Hmissing as [H|H]; rewrite H in *; simpl in *;
    by eapply not_elem_of_nil.
Qed.

(** When every kept entry has a ["cidr"], the filter returns the CIDRs of
    the kept entries in the order of the feed. *)
Lemma filter_items_ok (l : list FeedItem) :
  Forall (λ item, keep_item item = true → is_Some (cidr item)) l →
  filter_items l =
  Ok (omap (λ item, if keep_item item then cidr item else None) l).
Proof.
  induction 1 as [|item l Hitem _ IH]; [done|].
  simpl. destruct (keep_item item); [|done].
  destruct Hitem as [c Hc]; [done|]. rewrite Hc. simpl. by rewrite IH.
Qed.

(** The first kept entry without a ["cidr"] makes the filter raise. *)
Lemma filter_items_missing_cidr (l1 l2 : list FeedItem) (item : FeedItem) :
  Forall (λ item, keep_item item = true → is_Some (cidr item)) l1 →
  keep_item item = true → cidr item = None →
  filter_items (l1 ++ item :: l2) = Raise (KeyError "cidr").
Proof.
  intros Hl1 Hkeep Hnone.
  induction Hl1 as [|item1 l1 Hitem _ IH]; simpl.
  - by rewrite Hkeep, Hnone.
  - destruct (keep_item item1); [|done].
    destruct Hitem as [c Hc]; [done|]. rewrite Hc. simpl. by rewrite IH.
Qed.

(** C9, at an entry the claim does not describe.  A feed entry tagged for
    Bitbucket egress that has no ["cidr"] key passes the condition of the
    comprehension (the default [""] holds no [':']), and [item["cidr"]]
    then raises [KeyError]: the entry is not skipped, the run ends. *)
Theorem entry_without_cidr_raises :
  let data := {| items := Some [Examples.item_without_cidr] |} in
  keep_item Examples.item_without_cidr = true ∧
  extract_bitbucket_egress_ipv4 data = Raise (KeyError "cidr") ∧
  ∀ cfg, main cfg (Examples.world_of data [])
         = ([Print LogFetching; HttpGet IP_FEED_URL],
            Uncaught (KeyError "cidr")).
Proof. split_and!; [done..|]. by intros cfg. Qed.

(** C3, at a current list with a repeated CIDR.  The group allows the one
    desired range under two port-443 permissions, so the desired and the
    current list hold the same CIDRs, toAdd and toRemove are empty and no
    mutation call is made; yet the lists differ, and the run goes on to
    log an update and to post the success message to Slack. *)
Theorem repeated_rule_reports_update :
  let cfg := Examples.config false Examples.token in
  let w := Examples.world_twice in
  let after_cidrs := ["10.0.0.0/24"%string] in
  let current_cidrs := ["10.0.0.0/24"; "10.0.0.0/24"]%string in
  (main_read cfg w).2 = Return (after_cidrs, current_cidrs) ∧
  (list_to_set after_cidrs : gset string) = list_to_set current_cidrs ∧
  to_add after_cidrs current_cidrs = ∅ ∧
  to_remove after_cidrs current_cidrs = ∅ ∧
  mutations (main cfg w).1 = [] ∧
  Print LogUpToDate ∈ (main cfg w).1 ∧
  Print (LogUpdated 1) ∈ (main cfg w).1 ∧
  slack_posts (main cfg w).1 =
    [SlackPost "xoxb-token" SLACK_CHANNEL
       (SuccessMsg 1 (AWS_SG_ID cfg) (JENKINS_URL cfg) (JOB_NAME cfg))] ∧
  (main (Examples.config false None) w).2 = SysExit (Some 1).
Proof.
  split_and!; try (vm_compute; reflexivity).
  all: vm_compute; set_solver.
Qed.

(** *** Concrete runs *)

Lemma diff_correct_scenario_B :
  to_add ["10.0.0.0/23"%string] ["10.0.0.0/24"; "10.0.1.0/24"]%string
    = {["10.0.0.0/23"%string]} ∧
  to_remove ["10.0.0.0/23"%string] ["10.0.0.0/24"; "10.0.1.0/24"]%string
    = {["10.0.0.0/24"%string; "10.0.1.0/24"%string]}.
Proof. unfold to_add, to_remove. split; set_solver. Qed.

Lemma revoke_before_authorize_witness :
  let cfg := Examples.config false Examples.token in
  let after_cidrs := ["10.0.0.0/23"%string] in
  let current_cidrs := ["10.0.0.0/24"; "10.0.1.0/24"]%string in
  DRY_RUN cfg = false ∧
  mutations
    (replace_sg_ingress_rules cfg Examples.world_B after_cidrs current_cidrs).1
  = [RevokeSecurityGroupIngress (AWS_SG_ID cfg)
       (revoke_payload (to_remove after_cidrs current_cidrs));
     AuthorizeSecurityGroupIngress (AWS_SG_ID cfg)
       (auth_payload (to_add after_cidrs current_cidrs))].
Proof.
  intros cfg after_cidrs current_cidrs. split; [reflexivity|].
  destruct (revoke_before_authorize cfg Examples.world_B after_cidrs
              current_cidrs eq_refl) as (_ & Hall & _).
  rewrite Hall by reflexivity.
  rewrite !decide_False; [done|..].
  - intros H. assert ("10.0.0.0/23"%string ∈ to_add after_cidrs current_cidrs)
      as Hin by (apply to_add_spec; set_solver).
    rewrite H in Hin. set_solver.
  - intros H.
    assert ("10.0.0.0/24"%string ∈ to_remove after_cidrs current_cidrs)
      as Hin by (apply to_remove_spec; set_solver).
    rewrite H in Hin. set_solver.
Defined.

Lemma over_limit_aborts_witness :
  let cfg := Examples.config false Examples.token in
  let w := Examples.world_of (Examples.feed_of Examples.sixty_one) [] in
  mutations (main cfg w).1 = [] ∧
  exit_status (main cfg w).2 = 1 ∧
  slack_posts (main cfg w).1 =
    [SlackPost "xoxb-token" SLACK_CHANNEL
       (AlertMsg 61 (AWS_SG_ID cfg) (JENKINS_URL cfg) (JOB_NAME cfg))].
Proof.
  intros cfg w.
  apply (over_limit_aborts cfg w (main_read cfg w).1 Examples.sixty_one []).
  - vm_compute. reflexivity.
  - vm_compute. discriminate.
  - vm_compute. reflexivity.
Defined.

(** C2 as stated fails when the Slack bot token is not set: the desired
    list has 61 entries and differs from the (empty) current list, the run
    is not a dry run, and no alert is posted. *)
Lemma over_limit_without_token_no_alert :
  let cfg := Examples.config false None in
  let w := Examples.world_of (Examples.feed_of Examples.sixty_one) [] in
  (main_read cfg w).2 = Return (Examples.sixty_one, []) ∧
  Examples.sixty_one ≠ [] ∧
  AWS_SG_RULE_LIMIT < Z.of_nat (length Examples.sixty_one) ∧
  DRY_RUN cfg = false ∧
  exit_status (main cfg w).2 = 1 ∧
  length (slack_posts (main cfg w).1) ≠ 1%nat.
Proof.
  split_and!; try (vm_compute; reflexivity); vm_compute; discriminate.
Qed.

Lemma dry_run_exits_zero_witness :
  let cfg := Examples.config true Examples.token in
  let w := Examples.world_B in
  (main cfg w).2 = SysExit None ∧
  exit_status (main cfg w).2 = 0 ∧
  mutations (main cfg w).1 = [] ∧
  slack_posts (main cfg w).1 = [] ∧
  Print LogDryRun ∈ (main cfg w).1.
Proof.
  intros cfg w.
  apply (dry_run_exits_zero cfg w (main_read cfg w).1
           ["10.0.0.0/23"%string] ["10.0.0.0/24"; "10.0.1.0/24"]%string).
  - vm_compute. reflexivity.
  - reflexivity.
  - left. vm_compute. discriminate.
  - vm_compute. discriminate.
Defined.

(** C4 as stated fails: in Scenario B under the dry-run flag the diff is
    not empty and no mutation call is made, but the exit status is 0. *)
Lemma dry_run_status_is_zero :
  let cfg := Examples.config true Examples.token in
  let w := Examples.world_B in
  let after_cidrs := ["10.0.0.0/23"%string] in
  let current_cidrs := ["10.0.0.0/24"; "10.0.1.0/24"]%string in
  DRY_RUN cfg = true ∧
  (main_read cfg w).2 = Return (after_cidrs, current_cidrs) ∧
  to_add after_cidrs current_cidrs ≠ ∅ ∧
  mutations (main cfg w).1 = [] ∧
  ¬ exit_status (main cfg w).2 ≠ 0.
Proof.
  split_and!; try (vm_compute; reflexivity).
  - vm_compute. discriminate.
  - intros H. apply H. vm_compute. reflexivity.
Qed.

Lemma notification_failure_not_fatal_witness :
  let cfg := Examples.config false Examples.token in
  let w := with_slack_response Examples.world_B (PostRaises HTTPError) in
  let text := SuccessMsg 1 None None None in
  truthy (SLACK_BOT_TOKEN cfg) = true ∧
  slack_response w ≠ BodyJson true ∧
  (send_slack_alert cfg w text).2 = Return tt ∧
  (∃ e, Print (LogSlackFailed e) ∈ (send_slack_alert cfg w text).1) ∧
  (main cfg (with_slack_response w BodyNotJson)).2 = (main cfg w).2 ∧
  truthy (SLACK_BOT_TOKEN (Examples.config false None)) = false ∧
  send_slack_alert (Examples.config false None) w text
    = ([Print LogTokenNotSet], SysExit (Some 1)).
Proof.
  intros cfg w text.
  destruct (notification_failure_not_fatal cfg w text BodyNotJson)
    as [Hset _].
  destruct (notification_failure_not_fatal (Examples.config false None) w
              text BodyNotJson) as [_ Hunset].
  destruct (Hset eq_refl) as (Hret & Hlog & Hrun).
  split; [reflexivity|]. split; [discriminate|].
  split; [exact Hret|]. split; [apply Hlog; discriminate|].
  split; [exact Hrun|]. split; [reflexivity|].
  apply Hunset. reflexivity.
Defined.

(** C5 as stated fails for a missing notifier configuration: without a
    Slack bot token the notification step does not return but exits, and
    a run that has just applied the changes of Scenario B ends with
    status 1 where the same run with a token ends with status 0. *)
Lemma missing_token_aborts_run :
  let cfg := Examples.config false None in
  let w := Examples.world_B in
  (send_slack_alert cfg w (SuccessMsg 1 None None None)).2 ≠ Return tt ∧
  mutations (main cfg w).1 ≠ [] ∧
  exit_status (main cfg w).2 = 1 ∧
  exit_status (main (Examples.config false Examples.token) w).2 = 0.
Proof.
  split_and!; try (vm_compute; reflexivity); vm_compute; discriminate.
Qed.

Lemma malformed_cidr_aborts_witness :
  let cfg := Examples.config false Examples.token in
  let cidrs := ["10.0.0.0/24"; "10.0.0.1/24"]%string in
  let w := Examples.world_of (Examples.feed_of cidrs) [] in
  Exists (λ c, ip_network c = None) cidrs ∧
  collapse_cidrs cidrs = Raise ValueError ∧
  extract_bitbucket_egress_ipv4 (Examples.feed_of cidrs) = Raise ValueError ∧
  main cfg w = ([Print LogFetching; HttpGet IP_FEED_URL], Uncaught ValueError) ∧
  mutations (main cfg w).1 = [] ∧
  exit_status (main cfg w).2 = 1.
Proof.
  intros cfg cidrs w.
  assert (Hbad : Exists (λ c, ip_network c = None) cidrs).
  { apply Exists_cons_tl, Exists_cons_hd. vm_compute. reflexivity. }
  split; [done|].
  apply (malformed_cidr_aborts cfg w (Examples.feed_of cidrs) cidrs);
    [reflexivity|vm_compute; reflexivity|done].
Defined.

(** ** Networks as blocks of addresses *)

Lemma prefix_cases (P : Z → Prop) :
  (∀ n : nat, (n ≤ 32)%nat → P (Z.of_nat n)) → ∀ p, 0 ≤ p ≤ 32 → P p.
Proof. intros H p Hp. rewrite <- (Z2Nat.id p) by lia. apply H. lia. Qed.

Lemma ip_int_from_prefix_eq p :
  0 ≤ p ≤ 32 → ip_int_from_prefix p = 2 ^ 32 - 2 ^ (32 - p).
Proof.
  revert p. apply prefix_cases. intros n Hn.
  do 33 (destruct n as [|n]; [vm_compute; reflexivity|]). lia.
Qed.

Lemma hostmask_eq n :
  0 ≤ prefixlen n ≤ 32 → hostmask n = 2 ^ (32 - prefixlen n) - 1.
Proof.
  unfold hostmask, netmask. generalize (prefixlen n).
  apply prefix_cases. intros k Hk.
  do 33 (destruct k as [|k]; [vm_compute; reflexivity|]). lia.
Qed.

Lemma lor_low_ones a k :
  0 ≤ k → a mod 2 ^ k = 0 → Z.lor a (2 ^ k - 1) = a + 2 ^ k - 1.
Proof.
  intros Hk Ha.
  assert (Hland : Z.land a (Z.ones k) = 0) by (by rewrite Z.land_ones).
  rewrite Z.ones_equiv in Hland. unfold Z.pred in Hland.
  replace (2 ^ k - 1) with (2 ^ k + -1) by lia.
  rewrite <- Z.lxor_lor by done. rewrite <- Z.add_nocarry_lxor by done. lia.
Qed.

Lemma broadcast_eq n :
  valid_network n →
  broadcast_address n = network_address n + 2 ^ (32 - prefixlen n) - 1.
Proof.
  intros (Hp & Ha & Hmod). unfold broadcast_address.
  rewrite hostmask_eq by done. apply lor_low_ones; [unfold IPV4LENGTH in *; lia|done].
Qed.

Lemma land_high_mask w a k :
  0 ≤ k ≤ w → 0 ≤ a < 2 ^ w →
  Z.land a (2 ^ w - 2 ^ k) = 2 ^ k * (a / 2 ^ k).
Proof.
  intros Hk Ha.
  assert (HM : 2 ^ w - 2 ^ k = Z.shiftl (Z.ones (w - k)) k).
  { rewrite Z.shiftl_mul_pow2, Z.ones_equiv by lia. unfold Z.pred.
    rewrite Z.mul_add_distr_r, <- Z.pow_add_r by lia.
    replace (w - k + k) with w by lia. lia. }
  rewrite HM. rewrite Z.mul_comm, <- Z.shiftl_mul_pow2, <- Z.shiftr_div_pow2 by lia.
  apply Z.bits_inj'. intros i Hi.
  rewrite Z.land_spec, !Z.shiftl_spec by lia.
  destruct (decide (i < k)) as [Hlt|Hge].
  - rewrite !(Z.testbit_neg_r _ (i - k)) by lia. apply andb_false_r.
  - rewrite Z.shiftr_spec by lia. replace (i - k + k) with i by lia.
    destruct (decide (i < w)).
    + rewrite Z.ones_spec_low by lia. apply andb_true_r.
    + rewrite Z.ones_spec_high by lia. rewrite andb_false_r.
      symmetry. destruct (decide (a = 0)) as [->|]; [apply Z.bits_0|].
      apply Z.bits_above_log2; [lia|].
      assert (Z.log2 a < w) by (apply Z.log2_lt_pow2; lia). lia.
Qed.

Lemma supernet_eq n :
  valid_network n → 0 < prefixlen n →
  supernet n =
  Network (2 ^ (33 - prefixlen n) * (network_address n / 2 ^ (33 - prefixlen n)))
          (prefixlen n - 1).
Proof.
  intros (Hp & Ha & Hmod) Hpos. unfold IPV4LENGTH in *. unfold supernet.
  rewrite (proj2 (Z.eqb_neq _ _)) by lia. f_equal.
  unfold netmask. rewrite ip_int_from_prefix_eq by done.
  rewrite Z.shiftl_mul_pow2 by lia.
  replace ((2 ^ 32 - 2 ^ (32 - prefixlen n)) * 2 ^ 1)
    with (2 ^ 33 - 2 ^ (33 - prefixlen n)).
  - apply (land_high_mask 33); lia.
  - replace (33 - prefixlen n) with (32 - prefixlen n + 1) by lia.
    rewrite Z.pow_add_r by lia. lia.
Qed.

Lemma valid_network_block n :
  valid_network n →
  ∃ c, network_address n = block_size n * c ∧ 0 ≤ c ∧
       0 < block_size n ∧
       broadcast_address n = network_address n + block_size n - 1.
Proof.
  intros Hv. pose proof Hv as (Hp & Ha & Hmod). unfold IPV4LENGTH in *.
  exists (network_address n / block_size n). unfold block_size.
  assert (0 < 2 ^ (32 - prefixlen n)) by (apply Z.pow_pos_nonneg; lia).
  split_and!; [|apply Z.div_pos; lia|done|by apply broadcast_eq].
  apply Z.div_exact; [lia|done].
Qed.

Lemma contains_iff n x :
  valid_network n →
  contains n x ↔ network_address n ≤ x < network_address n + block_size n.
Proof.
  intros Hv. destruct (valid_network_block n Hv) as (c & _ & _ & _ & Hb).
  unfold contains. rewrite Hb. lia.
Qed.

Lemma subnet_of_iff a b :
  valid_network a → valid_network b →
  subnet_of a b ↔
  network_address b ≤ network_address a ∧
  network_address a + block_size a ≤ network_address b + block_size b.
Proof.
  intros Ha Hb.
  destruct (valid_network_block a Ha) as (? & _ & _ & _ & Hba).
  destruct (valid_network_block b Hb) as (? & _ & _ & _ & Hbb).
  unfold subnet_of. rewrite Hba, Hbb. lia.
Qed.

Lemma block_size_le a b :
  prefixlen b ≤ 32 → prefixlen a ≤ prefixlen b →
  ∃ q, 0 < q ∧ block_size a = block_size b * q.
Proof.
  intros Hb Hab. unfold block_size.
  exists (2 ^ (prefixlen b - prefixlen a)). split.
  - apply Z.pow_pos_nonneg; lia.
  - rewrite <- Z.pow_add_r by lia. f_equal. lia.
Qed.

Lemma block_size_lt a b :
  prefixlen b ≤ 32 → prefixlen a < prefixlen b →
  block_size b < block_size a.
Proof.
  intros Hb Hab. unfold block_size. apply Z.pow_lt_mono_r; lia.
Qed.

Lemma block_size_inj a b :
  prefixlen a ≤ 32 → prefixlen b ≤ 32 →
  block_size a = block_size b → prefixlen a = prefixlen b.
Proof.
  intros Ha Hb Heq.
  destruct (Z.lt_trichotomy (prefixlen a) (prefixlen b)) as [H|[H|H]]; [|done|].
  - pose proof (block_size_lt a b Hb H). lia.
  - pose proof (block_size_lt b a Ha H). lia.
Qed.

(** Two networks that share an address are nested. *)
Lemma networks_nested m n x :
  valid_network m → valid_network n →
  prefixlen n ≤ prefixlen m →
  contains m x → contains n x → subnet_of m n.
Proof.
  intros Hm Hn Hp Hxm Hxn.
  rewrite subnet_of_iff by done. rewrite contains_iff in Hxm, Hxn by done.
  destruct (valid_network_block m Hm) as (cm & Hcm & ? & ? & _).
  destruct (valid_network_block n Hn) as (cn & Hcn & ? & ? & _).
  destruct (block_size_le n m) as (q & Hq & Hsz); [apply Hm|done|].
  rewrite Hsz in *. clear Hsz.
  generalize dependent (block_size m). intros P. intros.
  rewrite Hcm, Hcn in *.
  assert (P * (q * cn) < P * (cm + 1)) as Hlo by lia.
  assert (P * cm < P * (q * (cn + 1))) as Hhi by lia.
  apply Z.mul_lt_mono_pos_l in Hlo, Hhi; [|done..].
  assert (P * (q * cn) ≤ P * cm) by (apply Z.mul_le_mono_nonneg_l; lia).
  assert (P * (cm + 1) ≤ P * (q * (cn + 1)))
    by (apply Z.mul_le_mono_nonneg_l; lia).
  lia.
Qed.

Lemma subnet_of_antisym a b :
  valid_network a → valid_network b →
  subnet_of a b → subnet_of b a → a = b.
Proof.
  intros Ha Hb Hab Hba. rewrite subnet_of_iff in Hab, Hba by done.
  destruct a as [aa pa], b as [ab pb]. simpl in *.
  assert (aa = ab) as -> by lia.
  f_equal. apply (block_size_inj (Network ab pa) (Network ab pb));
    [apply Ha|apply Hb|lia].
Qed.

Lemma subnet_of_refl a : subnet_of a a.
Proof. unfold subnet_of. lia. Qed.

Lemma subnet_of_trans a b c : subnet_of a b → subnet_of b c → subnet_of a c.
Proof. unfold subnet_of. lia. Qed.

Lemma subnet_of_contains a b x : subnet_of a b → contains a x → contains b x.
Proof. unfold subnet_of, contains. lia. Qed.

Lemma contains_network_address n : valid_network n → contains n (network_address n).
Proof.
  intros Hv. rewrite contains_iff by done.
  destruct (valid_network_block n Hv) as (c & _ & _ & ? & _). lia.
Qed.

(** A subnet is not shorter in prefix. *)
Lemma subnet_of_prefixlen a b :
  valid_network a → valid_network b → subnet_of a b → prefixlen b ≤ prefixlen a.
Proof.
  intros Ha Hb Hab. rewrite subnet_of_iff in Hab by done.
  destruct (decide (prefixlen b ≤ prefixlen a)); [done|].
  pose proof (block_size_lt a b (proj2 (proj1 Hb)) ltac:(lia)). lia.
Qed.

Lemma block_size_pred m n :
  prefixlen n ≤ 32 → prefixlen m = prefixlen n - 1 →
  block_size m = 2 * block_size n.
Proof.
  intros Hp Hm. unfold block_size. rewrite Hm.
  replace (32 - (prefixlen n - 1)) with (32 - prefixlen n + 1) by lia.
  rewrite Z.pow_add_r by lia. lia.
Qed.

Lemma supernet_block n :
  valid_network n → 0 < prefixlen n →
  ∃ c, network_address n = block_size n * c ∧ 0 ≤ c ∧
       supernet n = Network (2 * block_size n * (c / 2)) (prefixlen n - 1) ∧
       block_size (supernet n) = 2 * block_size n.
Proof.
  intros Hv Hpos. pose proof Hv as (Hp & Ha & Hmod). unfold IPV4LENGTH in *.
  destruct (valid_network_block n Hv) as (c & Hc & Hc0 & Hsz & _).
  exists c. split_and!; [done..| |].
  - rewrite supernet_eq by done. f_equal.
    replace (33 - prefixlen n) with (32 - prefixlen n + 1) by lia.
    rewrite Z.pow_add_r by lia. fold (block_size n).
    replace (block_size n * 2 ^ 1) with (2 * block_size n) by lia.
    f_equal. rewrite Hc.
    replace (2 * block_size n) with (block_size n * 2) by lia.
    rewrite Z.div_mul_cancel_l by lia. done.
  - rewrite supernet_eq by done. apply block_size_pred; [lia|done].
Qed.

Lemma supernet_valid n : valid_network n → valid_network (supernet n).
Proof.
  intros Hv. destruct (decide (prefixlen n = 0)) as [H0|H0].
  { unfold supernet. by rewrite H0. }
  pose proof Hv as (Hp & Ha & Hmod). unfold IPV4LENGTH in *.
  destruct (supernet_block n Hv) as (c & Hc & Hc0 & Hs & Hsz); [lia|].
  destruct (valid_network_block n Hv) as (_ & _ & _ & Hpos & _).
  pose proof Hsz as Hsz'. rewrite Hs in Hsz'.
  rewrite Hs. unfold valid_network, IPV4LENGTH. simpl.
  pose proof (Z.mul_div_le c 2 ltac:(lia)).
  assert (0 ≤ c / 2) by (apply Z.div_pos; lia).
  split_and!; [lia|lia|nia|nia|].
  unfold block_size in Hsz'. simpl in Hsz'. rewrite Hsz'.
  rewrite Z.mul_comm. apply Z_mod_mult.
Qed.

Lemma supernet_subnet n : valid_network n → subnet_of n (supernet n).
Proof.
  intros Hv. destruct (decide (prefixlen n = 0)) as [H0|H0].
  { unfold supernet. rewrite H0. apply subnet_of_refl. }
  pose proof (supernet_valid n Hv) as Hvs.
  pose proof Hv as (Hp & Ha & Hmod). unfold IPV4LENGTH in *.
  destruct (supernet_block n Hv) as (c & Hc & Hc0 & Hs & Hsz); [lia|].
  destruct (valid_network_block n Hv) as (_ & _ & _ & Hpos & _).
  rewrite subnet_of_iff by done. rewrite Hsz. rewrite Hs. simpl. rewrite Hc.
  pose proof (Z.mul_div_le c 2 ltac:(lia)).
  pose proof (Z.mul_succ_div_gt c 2 ltac:(lia)).
  split; nia.
Qed.

(** Two different networks with the same supernet make up the supernet. *)
Lemma supernet_siblings n1 n2 x :
  valid_network n1 → valid_network n2 → n1 ≠ n2 →
  supernet n1 = supernet n2 →
  contains (supernet n1) x ↔ contains n1 x ∨ contains n2 x.
Proof.
  intros Hv1 Hv2 Hne Hsuper.
  pose proof (supernet_subnet n1 Hv1) as Hs1.
  pose proof (supernet_subnet n2 Hv2) as Hs2.
  split; [|intros [H|H]; [|rewrite Hsuper]; by eapply subnet_of_contains].
  destruct (decide (prefixlen n1 = 0)) as [H1|H1].
  { unfold supernet at 1. rewrite H1. simpl. by left. }
  destruct (decide (prefixlen n2 = 0)) as [H2|H2].
  { rewrite Hsuper. unfold supernet at 1. rewrite H2. simpl. by right. }
  pose proof Hv1 as (Hp1 & _). pose proof Hv2 as (Hp2 & _).
  unfold IPV4LENGTH in *.
  destruct (supernet_block n1 Hv1) as (c1 & Hc1 & ? & Hsn1 & Hsz1); [lia|].
  destruct (supernet_block n2 Hv2) as (c2 & Hc2 & ? & Hsn2 & Hsz2); [lia|].
  destruct (valid_network_block n1 Hv1) as (_ & _ & _ & Hpos & _).
  rewrite !contains_iff by (done || by apply supernet_valid).
  rewrite Hsz1. rewrite Hsn1 at 1 2. simpl.
  rewrite Hsn1, Hsn2 in Hsuper. injection Hsuper as Haddr Hplen.
  assert (prefixlen n1 = prefixlen n2) as Hp by lia.
  assert (block_size n1 = block_size n2) as Hsz by (unfold block_size; by rewrite Hp).
  rewrite <- Hsz in *. rewrite Hc1, Hc2.
  assert (c1 / 2 = c2 / 2) as Hhalf.
  { apply (Z.mul_reg_l _ _ (2 * block_size n1)); [lia|done]. }
  assert (c1 ≠ c2).
  { intros ->. apply Hne. destruct n1 as [a1 p1], n2 as [a2 p2]. simpl in *.
    f_equal; [congruence|lia]. }
  pose proof (Z.div_mod c1 2 ltac:(lia)). pose proof (Z.div_mod c2 2 ltac:(lia)).
  pose proof (Z.mod_pos_bound c1 2 ltac:(lia)).
  pose proof (Z.mod_pos_bound c2 2 ltac:(lia)).
  generalize dependent (block_size n1). intros P. intros.
  nia.
Qed.

Section halves.
Context (n : IPv4Network) (Hv : valid_network n) (Hp : prefixlen n < 32).

Lemma block_size_halves :
  block_size n = 2 * 2 ^ (31 - prefixlen n) ∧ 0 < 2 ^ (31 - prefixlen n).
Proof.
  destruct Hv as (? & _). unfold block_size.
  replace (32 - prefixlen n) with (31 - prefixlen n + 1) by lia.
  rewrite Z.pow_add_r by lia. split; [lia|].
  apply Z.pow_pos_nonneg; lia.
Qed.

Lemma address_room : network_address n + block_size n ≤ 2 ^ 32.
Proof.
  destruct (valid_network_block n Hv) as (c & Hc & Hc0 & Hpos & _).
  destruct Hv as (Hpl & Ha & _). unfold IPV4LENGTH in *.
  assert (2 ^ 32 = block_size n * 2 ^ prefixlen n) as Hfull.
  { unfold block_size. rewrite <- Z.pow_add_r by lia. f_equal. lia. }
  rewrite Hfull, Hc in *.
  assert (c < 2 ^ prefixlen n) by (apply (Z.mul_lt_mono_pos_l (block_size n)); lia).
  nia.
Qed.

Lemma left_half_valid : valid_network (left_half n).
Proof.
  destruct block_size_halves as [Hsz Hpos].
  pose proof Hv as (Hpl & Ha & Hmod). unfold IPV4LENGTH in *.
  unfold valid_network, left_half, IPV4LENGTH. simpl.
  split_and!; [lia..|].
  replace (32 - (prefixlen n + 1)) with (31 - prefixlen n) by lia.
  destruct (valid_network_block n Hv) as (c & Hc & _).
  rewrite Hc, Hsz.
  replace (2 * 2 ^ (31 - prefixlen n) * c)
    with (2 * c * 2 ^ (31 - prefixlen n)) by lia.
  apply Z_mod_mult.
Qed.

Lemma right_half_valid : valid_network (right_half n).
Proof.
  destruct block_size_halves as [Hsz Hpos]. pose proof address_room.
  pose proof Hv as (Hpl & Ha & Hmod). unfold IPV4LENGTH in *.
  unfold valid_network, right_half, IPV4LENGTH. simpl.
  split_and!; [lia..|].
  replace (32 - (prefixlen n + 1)) with (31 - prefixlen n) by lia.
  destruct (valid_network_block n Hv) as (c & Hc & _).
  rewrite Hc, Hsz.
  replace (2 * 2 ^ (31 - prefixlen n) * c + 2 ^ (31 - prefixlen n))
    with ((2 * c + 1) * 2 ^ (31 - prefixlen n)) by lia.
  apply Z_mod_mult.
Qed.

Lemma supernet_left_half : supernet (left_half n) = n.
Proof.
  pose proof Hv as (Hpl & Ha & Hmod). unfold IPV4LENGTH in *.
  rewrite supernet_eq; [|apply left_half_valid|simpl; lia].
  unfold left_half. simpl. destruct n as [a p]. simpl in *. f_equal; [|lia].
  replace (33 - (p + 1)) with (32 - p) by lia.
  symmetry. apply Z.div_exact; [|done].
  assert (0 < 2 ^ (32 - p)) by (apply Z.pow_pos_nonneg; lia). lia.
Qed.

Lemma supernet_right_half : supernet (right_half n) = n.
Proof.
  destruct block_size_halves as [Hsz Hpos].
  pose proof Hv as (Hpl & Ha & Hmod). unfold IPV4LENGTH in *.
  rewrite supernet_eq; [|apply right_half_valid|simpl; lia].
  destruct (valid_network_block n Hv) as (c & Hc & _).
  unfold right_half. simpl. destruct n as [a p]. simpl in *. f_equal; [|lia].
  replace (33 - (p + 1)) with (32 - p) by lia.
  unfold block_size in *. simpl in *.
  assert ((a + 2 ^ (31 - p)) / 2 ^ (32 - p) = c) as ->; [|lia].
  symmetry. apply (Z.div_unique_pos _ _ c (2 ^ (31 - p))); lia.
Qed.

Lemma halves_cover x :
  contains n x → contains (left_half n) x ∨ contains (right_half n) x.
Proof.
  destruct block_size_halves as [Hsz Hpos].
  rewrite !contains_iff by auto using left_half_valid, right_half_valid.
  assert (block_size (left_half n) = 2 ^ (31 - prefixlen n)) as ->.
  { unfold block_size, left_half. simpl. f_equal. lia. }
  assert (block_size (right_half n) = 2 ^ (31 - prefixlen n)) as ->.
  { unfold block_size, right_half. simpl. f_equal. lia. }
  unfold left_half, right_half. simpl. lia.
Qed.

Lemma halves_differ : left_half n ≠ right_half n.
Proof.
  destruct block_size_halves as [Hsz Hpos].
  unfold left_half, right_half. intros [= H]. lia.
Qed.
End halves.

(** In a list without two networks of the same supernet, a block that is
    covered address by address lies within one member. *)
Lemma covered_block_in_member (V : list IPv4Network) :
  Forall valid_network V → no_siblings V →
  ∀ B, valid_network B → (∀ x, contains B x → covered V x) →
       ∃ v, v ∈ V ∧ subnet_of B v.
Proof.
  intros HV Hsib.
  assert (∀ k : nat, ∀ B, prefixlen B = 32 - Z.of_nat k →
    valid_network B → (∀ x, contains B x → covered V x) →
    ∃ v, v ∈ V ∧ subnet_of B v) as Hind.
  { induction k as [|k IH]; intros B Hk HB Hcov.
    - destruct (Hcov (network_address B)) as (v & Hv & Hx);
        [by apply contains_network_address|].
      exists v. split; [done|].
      assert (valid_network v) as Hvv by (by eapply Forall_forall in HV).
      apply (networks_nested B v (network_address B)); auto.
      + destruct Hvv as ((_ & ?) & _). unfold IPV4LENGTH in *. lia.
      + by apply contains_network_address.
    - assert (prefixlen B < 32) as Hlt by lia.
      pose proof (left_half_valid B HB Hlt) as HL.
      pose proof (right_half_valid B HB Hlt) as HR.
      pose proof (supernet_subnet _ HL) as HLB.
      pose proof (supernet_subnet _ HR) as HRB.
      rewrite supernet_left_half in HLB by done.
      rewrite supernet_right_half in HRB by done.
      destruct (IH (left_half B)) as (v1 & Hv1 & Hs1);
        [simpl; lia|done|
         intros x Hx; apply Hcov;
         by apply (subnet_of_contains (left_half B))|].
      destruct (IH (right_half B)) as (v2 & Hv2 & Hs2);
        [simpl; lia|done|
         intros x Hx; apply Hcov;
         by apply (subnet_of_contains (right_half B))|].
      assert (valid_network v1) as Hvv1 by (by eapply Forall_forall in HV).
      assert (valid_network v2) as Hvv2 by (by eapply Forall_forall in HV).
      assert (∀ H v, valid_network H → valid_network v → subnet_of H B →
                subnet_of H v → prefixlen v ≤ prefixlen B → subnet_of B v)
        as Hup.
      { intros H v HH Hv HHB HHv Hle.
        apply (networks_nested B v (network_address H)); auto.
        - apply (subnet_of_contains H); [done|].
          by apply contains_network_address.
        - apply (subnet_of_contains H); [done|].
          by apply contains_network_address. }
      destruct (decide (prefixlen v1 ≤ prefixlen B)) as [Hle1|Hgt1].
      { exists v1. split; [done|]. by apply (Hup (left_half B)). }
      destruct (decide (prefixlen v2 ≤ prefixlen B)) as [Hle2|Hgt2].
      { exists v2. split; [done|]. by apply (Hup (right_half B)). }
      exfalso.
      assert (∀ H v, valid_network H → valid_network v → subnet_of H v →
                prefixlen H ≤ prefixlen v → v = H) as Hsame.
      { intros H v HH Hv HHv Hle. apply subnet_of_antisym; [done..| |done].
        apply (networks_nested v H (network_address H)); auto.
        - apply (subnet_of_contains H); [done|].
          by apply contains_network_address.
        - by apply contains_network_address. }
      assert (v1 = left_half B) as ->
        by (apply Hsame; auto; simpl; lia).
      assert (v2 = right_half B) as ->
        by (apply Hsame; auto; simpl; lia).
      apply (halves_differ B HB Hlt). apply Hsib; [done..|].
      by rewrite supernet_left_half, supernet_right_half. }
  intros B HB Hcov.
  apply (Hind (Z.to_nat (32 - prefixlen B))); [|done..].
  destruct HB as ((? & ?) & _). unfold IPV4LENGTH in *. lia.
Qed.

(** ** The merge loop of [_collapse_addresses_internal] *)

(** With enough fuel, [merge_loop] is a run of the loop to its end. *)
Lemma merge_loop_run fuel to_merge subnets :
  (2 * length to_merge + size subnets < fuel)%nat →
  merge_run to_merge subnets (merge_loop fuel to_merge subnets).
Proof.
  revert to_merge subnets.
  induction fuel as [|fuel IH]; intros to_merge subnets Hfuel; [lia|].
  destruct to_merge as [|net to_merge]; simpl; [constructor|].
  destruct (subnets !! supernet net) as [existing|] eqn:Hget.
  - destruct (decide (existing = net)) as [->|Hne].
    + apply merge_same; [done|]. apply IH. simpl in Hfuel. lia.
    + eapply merge_pair; [done..|]. apply IH.
      pose proof (map_size_delete (supernet net) subnets) as Hsize.
      rewrite Hget in Hsize.
      assert (size subnets ≠ 0%nat).
      { intros Hempty%map_size_empty_iff. rewrite Hempty in Hget.
        by rewrite lookup_empty in Hget. }
      simpl in *. lia.
  - apply merge_insert; [done|]. apply IH.
    rewrite map_size_insert_None by done. simpl in Hfuel. lia.
Qed.

Lemma merge_fuel_run to_merge :
  merge_run to_merge ∅ (merge_loop (merge_fuel to_merge ∅) to_merge ∅).
Proof. apply merge_loop_run. unfold merge_fuel. lia. Qed.

Lemma merge_run_spec to_merge subnets result :
  merge_run to_merge subnets result →
  Forall valid_network to_merge → keyed subnets →
  keyed result ∧
  ∀ x, covered_map result x ↔ covered to_merge x ∨ covered_map subnets x.
Proof.
  induction 1 as [subnets|net to_merge subnets result Hget _ IH
                 |net to_merge subnets result Hget _ IH
                 |net existing to_merge subnets result Hget Hne _ IH];
    intros Hvalid Hkeyed.
  - split; [done|]. intros x. split; [by right|].
    intros [(n & Hn & _)|H]; [by apply elem_of_nil in Hn|done].
  - apply Forall_cons in Hvalid as [Hnet Hvalid].
    destruct IH as [Hres Hcov]; [done| |].
    { intros k v. rewrite lookup_insert. case_decide as Hk.
      - intros [= <-]. done.
      - apply Hkeyed. }
    split; [done|]. intros x. rewrite Hcov. unfold covered, covered_map.
    split.
    + intros [(n & Hn & Hx)|(k & v & Hkv & Hx)].
      * left. exists n. split; [by right|done].
      * revert Hkv. rewrite lookup_insert. case_decide as Hk.
        -- intros [= <-]. left. exists net. split; [by left|done].
        -- intros Hkv. right. eauto.
    + intros [(n & Hn & Hx)|(k & v & Hkv & Hx)].
      * apply elem_of_cons in Hn as [->|Hn]; [|left; eauto].
        right. exists (supernet net), net. by rewrite lookup_insert_eq.
      * right. exists k, v. split; [|done].
        rewrite lookup_insert_ne; [done|]. intros <-. congruence.
  - apply Forall_cons in Hvalid as [Hnet Hvalid].
    destruct IH as [Hres Hcov]; [done..|].
    split; [done|]. intros x. rewrite Hcov. unfold covered, covered_map.
    split.
    + intros [(n & Hn & Hx)|H]; [|by right].
      left. exists n. split; [by right|done].
    + intros [(n & Hn & Hx)|H]; [|by right].
      apply elem_of_cons in Hn as [->|Hn]; [|left; eauto].
      right. eauto.
  - apply Forall_cons in Hvalid as [Hnet Hvalid].
    destruct (Hkeyed _ _ Hget) as [Hexisting Hsuper].
    destruct IH as [Hres Hcov].
    { constructor; [by apply supernet_valid|done]. }
    { intros k v. rewrite lookup_delete. case_decide; [done|]. apply Hkeyed. }
    split; [done|]. intros x. rewrite Hcov. unfold covered, covered_map.
    pose proof (supernet_siblings existing net x Hexisting Hnet Hne Hsuper)
      as Hsib. rewrite Hsuper in Hsib.
    split.
    + intros [(n & Hn & Hx)|(k & v & Hkv & Hx)].
      * apply elem_of_cons in Hn as [->|Hn]; [|left; exists n; split; [by right|done]].
        apply Hsib in Hx as [Hx|Hx]; [right; eauto|].
        left. exists net. split; [by left|done].
      * revert Hkv. rewrite lookup_delete. case_decide; [done|].
        intros Hkv. right. eauto.
    + intros [(n & Hn & Hx)|(k & v & Hkv & Hx)].
      * apply elem_of_cons in Hn as [->|Hn].
        -- left. exists (supernet net). split; [by left|]. apply Hsib. by right.
        -- left. exists n. split; [by right|done].
      * destruct (decide (k = supernet net)) as [->|Hk].
        -- assert (v = existing) as -> by congruence.
           left. exists (supernet net). split; [by left|]. apply Hsib. by left.
        -- right. exists k, v. by rewrite lookup_delete_ne.
Qed.

(** The values of the final [subnets]. *)
Lemma merged_values (addresses : list IPv4Network) :
  Forall valid_network addresses →
  let V := (map_to_list (merge_loop (merge_fuel (reverse addresses) ∅)
                                    (reverse addresses) ∅)).*2 in
  Forall valid_network V ∧ NoDup V ∧ no_siblings V ∧
  ∀ x, covered V x ↔ covered addresses x.
Proof.
  intros Hvalid V.
  destruct (merge_run_spec _ _ _ (merge_fuel_run (reverse addresses)))
    as [Hkeyed Hcov].
  { by apply Forall_reverse. }
  { intros k v. by rewrite lookup_empty. }
  assert (∀ v, v ∈ V ↔ ∃ k, merge_loop (merge_fuel (reverse addresses) ∅)
                              (reverse addresses) ∅ !! k = Some v) as HV.
  { intros v. unfold V. rewrite list_elem_of_fmap. split.
    - intros ([k v'] & -> & Hin). apply elem_of_map_to_list in Hin. eauto.
    - intros (k & Hk). exists (k, v). split; [done|].
      by apply elem_of_map_to_list. }
  split_and!.
  - apply Forall_forall. intros v (k & Hk)%HV. by apply (Hkeyed k v).
  - apply NoDup_fmap_2_strong; [|apply NoDup_map_to_list].
    intros [k1 v1] [k2 v2] H1%elem_of_map_to_list H2%elem_of_map_to_list.
    simpl. intros ->. f_equal.
    destruct (Hkeyed _ _ H1) as [_ <-]. by destruct (Hkeyed _ _ H2) as [_ <-].
  - intros v1 v2 (k1 & H1)%HV (k2 & H2)%HV Hsuper.
    destruct (Hkeyed _ _ H1) as [_ E1]. destruct (Hkeyed _ _ H2) as [_ E2].
    congruence.
  - intros x. transitivity (covered_map (merge_loop (merge_fuel (reverse addresses) ∅)
                              (reverse addresses) ∅) x).
    + unfold covered, covered_map. split.
      * intros (v & (k & Hk)%HV & Hx). eauto.
      * intros (k & v & Hk & Hx). exists v. split; [apply HV; eauto|done].
    + rewrite Hcov. unfold covered, covered_map. split.
      * intros [(n & Hn & Hx)|(k & v & Hk & _)].
        -- exists n. split; [|done]. by apply elem_of_reverse.
        -- by rewrite lookup_empty in Hk.
      * intros (n & Hn & Hx). left. exists n. split; [|done].
        by apply elem_of_reverse.
Qed.

(** ** [sorted] *)

Section sorted_lemmas.
Context {A K : Type} (lt : K → K → bool) (key : A → K).
Hypothesis lt_asym : ∀ a b, lt a b = true → lt b a = false.
Hypothesis lt_negtrans :
  ∀ a b c, lt b a = false → lt c b = false → lt c a = false.

Lemma insert_sorted_perm x l : insert_sorted lt key x l ≡ₚ x :: l.
Proof.
  induction l as [|y l IH]; simpl; [done|].
  destruct (lt (key y) (key x)); [|done].
  rewrite IH. apply Permutation_swap.
Qed.

Lemma sorted_perm l : sorted lt key l ≡ₚ l.
Proof.
  induction l as [|x l IH]; simpl; [done|].
  by rewrite insert_sorted_perm, IH.
Qed.

Lemma insert_sorted_in_order x l :
  StronglySorted (in_order lt key) l →
  StronglySorted (in_order lt key) (insert_sorted lt key x l).
Proof using lt_asym lt_negtrans.
  induction 1 as [|y l Hl IH Hy]; simpl; [by repeat constructor|].
  destruct (lt (key y) (key x)) eqn:Hyx.
  - constructor; [done|]. rewrite insert_sorted_perm.
    constructor; [|done]. by apply lt_asym.
  - constructor; [by constructor|]. constructor; [done|].
    eapply Forall_impl; [done|]. intros z Hz. unfold in_order in *.
    by apply (lt_negtrans _ (key y)).
Qed.

Lemma sorted_in_order l : StronglySorted (in_order lt key) (sorted lt key l).
Proof using lt_asym lt_negtrans.
  induction l as [|x l IH]; simpl; [constructor|].
  by apply insert_sorted_in_order.
Qed.
End sorted_lemmas.

Lemma StronglySorted_strengthen {A} (R R' : relation A) (P : A → Prop) l :
  (∀ a b, P a → P b → a ≠ b → R a b → R' a b) →
  Forall P l → NoDup l → StronglySorted R l → StronglySorted R' l.
Proof.
  intros HR HP Hnd Hs. induction Hs as [|x l _ IH Hx]; [constructor|].
  apply Forall_cons in HP as [Hpx HP]. apply NoDup_cons in Hnd as [Hnx Hnd].
  constructor; [by apply IH|].
  apply Forall_forall. intros y Hy. apply HR; [done| |set_solver|].
  - by eapply Forall_forall in HP.
  - by eapply Forall_forall in Hx.
Qed.

(** ** The order of networks *)

Lemma net_lt_iff a b :
  net_lt a b = true ↔
  network_address a < network_address b ∨
  (network_address a = network_address b ∧ netmask a < netmask b).
Proof.
  unfold net_lt.
  destruct (Z.eqb_spec (network_address a) (network_address b));
    destruct (Z.eqb_spec (netmask a) (netmask b)); simpl;
    rewrite ?Z.ltb_lt; lia.
Qed.

Lemma net_lt_asym a b : net_lt a b = true → net_lt b a = false.
Proof.
  intros H. apply not_true_is_false. revert H. rewrite !net_lt_iff. lia.
Qed.

Lemma net_lt_negtrans a b c :
  net_lt b a = false → net_lt c b = false → net_lt c a = false.
Proof.
  intros H1%not_true_iff_false H2%not_true_iff_false.
  apply not_true_is_false. revert H1 H2. rewrite !net_lt_iff. lia.
Qed.

Lemma netmask_lt a b :
  valid_network a → valid_network b →
  netmask a < netmask b ↔ prefixlen a < prefixlen b.
Proof.
  intros (Ha & _) (Hb & _). unfold IPV4LENGTH in *. unfold netmask.
  rewrite !ip_int_from_prefix_eq by done. fold (block_size a) (block_size b).
  split.
  - intros H. destruct (decide (prefixlen a < prefixlen b)); [done|].
    destruct (block_size_le b a) as (q & Hq & Hsz); [lia..|].
    assert (0 < block_size a) by (apply Z.pow_pos_nonneg; lia). nia.
  - intros H. pose proof (block_size_lt a b). lia.
Qed.

Lemma net_lt_before a b :
  valid_network a → valid_network b → net_lt a b = true ↔ before a b.
Proof.
  intros Ha Hb. rewrite net_lt_iff. unfold before.
  by rewrite (netmask_lt a b).
Qed.

Lemma before_total a b : before a b ∨ a = b ∨ before b a.
Proof.
  unfold before. destruct a as [aa pa], b as [ab pb]. simpl.
  destruct (Z.lt_trichotomy aa ab) as [?|[->|?]]; [lia| |lia].
  destruct (Z.lt_trichotomy pa pb) as [?|[->|?]]; [lia| |lia].
  right. by left.
Qed.

Lemma before_asym a b : before a b → before b a → False.
Proof. unfold before. lia. Qed.

Lemma before_irrefl a : ¬ before a a.
Proof. unfold before. lia. Qed.

Lemma StronglySorted_before_NoDup l : StronglySorted before l → NoDup l.
Proof.
  induction 1 as [|x l _ IH Hx]; constructor; [|done].
  intros Hin. eapply Forall_forall in Hx; [|done]. by apply before_irrefl in Hx.
Qed.

(** The sorted values of [subnets] are strictly ascending. *)
Lemma sorted_networks_before V :
  Forall valid_network V → NoDup V →
  StronglySorted before (sorted net_lt id V).
Proof.
  intros Hvalid Hnd.
  pose proof (sorted_perm net_lt id V) as Hperm.
  apply (StronglySorted_strengthen (in_order net_lt id) before valid_network).
  - intros a b Ha Hb Hne Hab. unfold in_order in Hab. simpl in Hab.
    destruct (before_total a b) as [?|[?|Hba]]; [done..|].
    apply net_lt_before in Hba; [|done..]. congruence.
  - by rewrite Hperm.
  - by rewrite Hperm.
  - apply sorted_in_order; [apply net_lt_asym|apply net_lt_negtrans].
Qed.

(** ** Skipping subsumed networks *)

Lemma skip_subsumed_elem_of last nets n :
  n ∈ skip_subsumed last nets → n ∈ nets.
Proof.
  revert last. induction nets as [|net nets IH]; intros last; simpl; [done|].
  destruct last as [l|].
  - destruct (broadcast_address net <=? broadcast_address l).
    + intros H%IH. by right.
    + intros [->|H%IH]%elem_of_cons; [by left|by right].
  - intros [->|H%IH]%elem_of_cons; [by left|by right].
Qed.

Lemma skip_subsumed_sorted (R : relation IPv4Network) last nets :
  StronglySorted R nets → StronglySorted R (skip_subsumed last nets).
Proof.
  intros Hs. revert last.
  induction Hs as [|net nets _ IH Hnet]; intros last; simpl; [constructor|].
  assert (StronglySorted R (net :: skip_subsumed (Some net) nets)).
  { constructor; [apply IH|]. apply Forall_forall.
    intros n Hn%skip_subsumed_elem_of. by eapply Forall_forall in Hnet. }
  destruct last as [l|]; [|done].
  by destruct (broadcast_address net <=? broadcast_address l).
Qed.

(** A later network of equal address is strictly inside. *)
Lemma before_not_subnet a b :
  valid_network a → valid_network b → before a b → ¬ subnet_of a b.
Proof.
  intros Ha Hb Hab Hsub. rewrite subnet_of_iff in Hsub by done.
  destruct Hab as [?|[Heq Hlt]]; [lia|].
  pose proof (block_size_lt a b (proj2 (proj1 Hb)) Hlt). lia.
Qed.

Lemma skip_subsumed_Some l nets :
  Forall valid_network (l :: nets) → StronglySorted before (l :: nets) →
  ∀ n, n ∈ skip_subsumed (Some l) nets ↔
       n ∈ nets ∧ ∀ m, m ∈ l :: nets → subnet_of n m → m = n.
Proof.
  revert l. induction nets as [|net nets IH]; intros l Hvalid Hsorted n.
  { simpl. split; [by intros ?%elem_of_nil|by intros [?%elem_of_nil _]]. }
  apply Forall_cons in Hvalid as [Hl Hvalid].
  pose proof Hvalid as [Hnet Hnets]%Forall_cons.
  apply StronglySorted_inv in Hsorted as [Hsorted Hl_before].
  pose proof Hsorted as [Hsorted' Hnet_before]%StronglySorted_inv.
  pose proof Hl_before as [Hl_net Hl_nets]%Forall_cons.
  rewrite Forall_forall in Hl_nets, Hnet_before.
  assert (∀ z, z ∈ nets → valid_network z) as Hnets'
    by (by apply Forall_forall).
  simpl. destruct (Z.leb_spec (broadcast_address net) (broadcast_address l))
    as [Hle|Hgt].
  - assert (subnet_of net l) as Hnet_l.
    { split; [|done]. destruct Hl_net; lia. }
    rewrite IH; [|by constructor|constructor; [done|by apply Forall_forall]].
    split.
    + intros [Hn Hmax]. split; [by right|].
      intros m [->|[->|Hm]%elem_of_cons]%elem_of_cons Hsub.
      * apply Hmax; [by left|done].
      * exfalso. apply (before_irrefl n).
        rewrite <- (Hmax l) at 1; [by apply Hl_nets|by left|].
        by apply (subnet_of_trans _ net).
      * apply Hmax; [by right|done].
    + intros [[->|Hn]%elem_of_cons Hmax].
      * exfalso. apply (before_irrefl net).
        rewrite <- (Hmax l) at 1; [done|by left|done].
      * split; [done|]. intros m [->|Hm]%elem_of_cons Hsub.
        -- apply Hmax; [by left|done].
        -- apply Hmax; [by right; right|done].
  - rewrite elem_of_cons. rewrite IH; [|done..].
    split.
    + intros [->|[Hn Hmax]].
      * split; [by left|].
        intros m [->|[->|Hm]%elem_of_cons]%elem_of_cons Hsub.
        -- destruct Hsub. lia.
        -- done.
        -- exfalso. apply (before_not_subnet net m); auto.
      * split; [by right|].
        intros m [->|Hm]%elem_of_cons Hsub; [|by apply Hmax].
        exfalso. apply (before_irrefl n).
        rewrite <- (Hmax net) at 1; [by apply Hnet_before|by left|].
        split; [|destruct Hsub; lia].
        destruct (Hnet_before n Hn); lia.
    + intros [[->|Hn]%elem_of_cons Hmax]; [by left|].
      right. split; [done|]. intros m Hm Hsub. apply Hmax; [by right|done].
Qed.

Lemma skip_subsumed_None V :
  Forall valid_network V → StronglySorted before V →
  ∀ n, n ∈ skip_subsumed None V ↔ maximal_in V n.
Proof.
  intros Hvalid Hsorted n. unfold maximal_in.
  destruct V as [|net nets]; simpl.
  { split; [by intros ?%elem_of_nil|by intros [?%elem_of_nil _]]. }
  rewrite elem_of_cons, skip_subsumed_Some by done.
  pose proof Hvalid as [Hnet Hnets]%Forall_cons.
  pose proof Hsorted as [_ Hbefore]%StronglySorted_inv.
  rewrite Forall_forall in Hnets, Hbefore.
  split.
  - intros [->|[Hn Hmax]]; [|split; [by right|done]].
    split; [by left|]. intros m [->|Hm]%elem_of_cons Hsub; [done|].
    exfalso. apply (before_not_subnet net m); auto.
  - intros [[->|Hn]%elem_of_cons Hmax]; [by left|by right].
Qed.

(** ** What [_collapse_addresses_internal] returns *)

Lemma collapse_addresses_internal_spec (addresses : list IPv4Network) :
  Forall valid_network addresses →
  StronglySorted before (collapse_addresses_internal addresses) ∧
  ∀ n, n ∈ collapse_addresses_internal addresses ↔
       maximal_block (covered addresses) n.
Proof.
  intros Hvalid. unfold collapse_addresses_internal.
  destruct (merged_values addresses Hvalid) as (HV & Hnd & Hsib & Hcov).
  set (V := (map_to_list _).*2) in *.
  set (S := sorted net_lt id V).
  assert (S ≡ₚ V) as Hperm by apply sorted_perm.
  assert (Forall valid_network S) as HS by (by rewrite Hperm).
  assert (StronglySorted before S) as Hsorted
    by (by apply sorted_networks_before).
  assert (no_siblings S) as HsibS.
  { intros v1 v2 H1 H2. rewrite Hperm in H1, H2. by apply Hsib. }
  assert (∀ x, covered S x ↔ covered addresses x) as HcovS.
  { intros x. rewrite <- Hcov. unfold covered.
    by setoid_rewrite Hperm. }
  split; [by apply skip_subsumed_sorted|].
  intros n. rewrite skip_subsumed_None by done.
  rewrite Forall_forall in HS. split.
  - intros [Hn Hmax]. split_and!; [by apply HS| |].
    + intros x Hx. apply HcovS. by exists n.
    + intros m Hm Hsub Hm_cov.
      destruct (covered_block_in_member S) with (B := m) as (v & Hv & Hmv);
        [by apply Forall_forall|done..| |].
      { intros x Hx. by apply HcovS, Hm_cov. }
      assert (v = n) as -> by (apply Hmax; [done|by apply (subnet_of_trans _ m)]).
      apply subnet_of_antisym; auto.
  - intros (Hn & Hn_cov & Hmax).
    destruct (covered_block_in_member S) with (B := n) as (v & Hv & Hnv);
      [by apply Forall_forall|done..| |].
    { intros x Hx. by apply HcovS, Hn_cov. }
    assert (∀ m, m ∈ S → subnet_of n m → m = n) as Hmax'.
    { intros m Hm Hsub. apply Hmax; [by apply HS|done|].
      intros x Hx. apply HcovS. by exists m. }
    assert (v = n) as <- by (by apply Hmax'). done.
Qed.

(** The result depends only on the set of addresses covered. *)
Lemma collapse_addresses_internal_ext (l1 l2 : list IPv4Network) :
  Forall valid_network l1 → Forall valid_network l2 →
  (∀ x, covered l1 x ↔ covered l2 x) →
  collapse_addresses_internal l1 = collapse_addresses_internal l2.
Proof.
  intros H1 H2 Hcov.
  destruct (collapse_addresses_internal_spec l1 H1) as [Hs1 Hin1].
  destruct (collapse_addresses_internal_spec l2 H2) as [Hs2 Hin2].
  apply (StronglySorted_unique_strong before); [|done..|].
  { intros x1 x2 _ _ Hx Hy. by destruct (before_asym x1 x2). }
  apply NoDup_Permutation; [by apply StronglySorted_before_NoDup..|].
  intros n. rewrite Hin1, Hin2. unfold maximal_block.
  by setoid_rewrite Hcov.
Qed.

Lemma covered_Permutation l1 l2 x : l1 ≡ₚ l2 → covered l1 x ↔ covered l2 x.
Proof. intros Hp. unfold covered. by setoid_rewrite Hp. Qed.

Lemma collapse_addresses_internal_valid (addresses : list IPv4Network) :
  Forall valid_network addresses →
  Forall valid_network (collapse_addresses_internal addresses).
Proof.
  intros Hvalid. apply Forall_forall. intros n Hn.
  by apply (collapse_addresses_internal_spec addresses Hvalid) in Hn as [? _].
Qed.

(** ** Counting zero bits *)

Lemma bit_length_nonneg n : 0 ≤ bit_length n.
Proof.
  unfold bit_length. destruct (n =? 0); [done|].
  pose proof (Z.log2_nonneg (Z.abs n)). lia.
Qed.

Lemma count_righthand_zero_bits_range number bits :
  0 ≤ bits → 0 ≤ count_righthand_zero_bits number bits ≤ bits.
Proof.
  intros Hbits. unfold count_righthand_zero_bits.
  destruct (number =? 0); [lia|].
  pose proof (bit_length_nonneg (Z.land (Z.lnot number) (number - 1))). lia.
Qed.

(** A number whose bit [h] is clear while bit [h] of its predecessor is
    set is a multiple of [2 ^ (h + 1)]. *)
Lemma borrow_through_bit n h :
  0 ≤ h → Z.testbit n h = false → Z.testbit (n - 1) h = true →
  n mod 2 ^ (h + 1) = 0.
Proof.
  intros Hh Hn Hpred.
  apply Z.testbit_false in Hn; [|done]. apply Z.testbit_true in Hpred; [|done].
  assert (0 < 2 ^ h) as Hpos by (apply Z.pow_pos_nonneg; lia).
  pose proof (Z.div_mod n (2 ^ h) ltac:(lia)) as Hdiv.
  pose proof (Z.mod_pos_bound n (2 ^ h) Hpos) as Hbound.
  set (q := n / 2 ^ h) in *. set (s := n mod 2 ^ h) in *.
  assert (s = 0) as Hs.
  { destruct (decide (s = 0)) as [|Hs]; [done|]. exfalso.
    assert ((n - 1) / 2 ^ h = q) as Hq.
    { symmetry. apply (Z.div_unique_pos _ _ q (s - 1)); lia. }
    rewrite Hq in Hpred. lia. }
  apply Z.mod_divide; [apply Z.pow_nonzero; lia|].
  exists (q / 2). rewrite Z.pow_add_r by lia.
  pose proof (Z.div_mod q 2 ltac:(lia)). rewrite Hn in *. lia.
Qed.

Lemma count_righthand_zero_bits_divides number bits :
  0 ≤ number → 0 ≤ bits →
  number mod 2 ^ count_righthand_zero_bits number bits = 0.
Proof.
  intros Hnum Hbits. unfold count_righthand_zero_bits.
  destruct (Z.eqb_spec number 0) as [->|Hne]; [apply Zmod_0_l|].
  set (y := Z.land (Z.lnot number) (number - 1)).
  assert (0 ≤ y) as Hy by (apply Z.land_nonneg; lia).
  assert (number mod 2 ^ bit_length y = 0) as Hfull.
  { unfold bit_length. destruct (Z.eqb_spec y 0) as [|Hy0]; [apply Z.mod_1_r|].
    rewrite Z.abs_eq by done.
    pose proof (Z.log2_nonneg y).
    assert (Z.testbit y (Z.log2 y) = true) as Hbit by (apply Z.bit_log2; lia).
    unfold y in Hbit at 1. rewrite Z.land_spec, Z.lnot_spec in Hbit by done.
    apply andb_true_iff in Hbit as [Hnot Hpred].
    apply negb_true_iff in Hnot. by apply borrow_through_bit. }
  pose proof (bit_length_nonneg y).
  destruct (Z.min_spec bits (bit_length y)) as [[Hlt ->]|[_ ->]]; [|done].
  apply Z.mod_divide in Hfull; [|apply Z.pow_nonzero; lia].
  apply Z.mod_divide; [apply Z.pow_nonzero; lia|].
  etrans; [|done].
  exists (2 ^ (bit_length y - bits)). rewrite <- Z.pow_add_r by lia.
  f_equal. lia.
Qed.

(** ** [summarize_address_range] *)

Lemma summarize_nbits first_int last_int :
  first_int ≤ last_int →
  0 ≤ Z.min (count_righthand_zero_bits first_int IPV4LENGTH)
            (bit_length (last_int - first_int + 1) - 1) ≤ IPV4LENGTH.
Proof.
  intros Hle.
  pose proof (count_righthand_zero_bits_range first_int IPV4LENGTH).
  unfold IPV4LENGTH in *.
  assert (1 ≤ bit_length (last_int - first_int + 1)).
  { unfold bit_length. destruct (Z.eqb_spec (last_int - first_int + 1) 0); [lia|].
    pose proof (Z.log2_nonneg (Z.abs (last_int - first_int + 1))). lia. }
  lia.
Qed.

(** With enough fuel, [summarize_loop] is a run of the loop to its end. *)
Lemma summarize_loop_run fuel first_int last_int :
  last_int - first_int + 1 < Z.of_nat fuel →
  summarize_run last_int first_int (summarize_loop fuel first_int last_int).
Proof.
  revert first_int. induction fuel as [|fuel IH]; intros first_int Hfuel.
  { simpl. apply summarize_done. lia. }
  simpl. destruct (Z.leb_spec first_int last_int) as [Hle|Hgt];
    [|by apply summarize_done].
  pose proof (summarize_nbits first_int last_int Hle) as Hnbits.
  set (nbits := Z.min _ _) in *.
  assert (0 < Z.shiftl 1 nbits).
  { rewrite Z.shiftl_1_l. apply Z.pow_pos_nonneg; lia. }
  destruct (Z.eqb_spec (first_int + Z.shiftl 1 nbits - 1) ALL_ONES).
  - by apply summarize_break.
  - apply summarize_next; [done..|]. apply IH. lia.
Qed.

Lemma summarize_run_valid last_int first_int nets :
  summarize_run last_int first_int nets →
  0 ≤ first_int → last_int < 2 ^ 32 →
  Forall valid_network nets.
Proof.
  assert (∀ first_int, 0 ≤ first_int → first_int ≤ last_int → last_int < 2 ^ 32 →
    let nbits := Z.min (count_righthand_zero_bits first_int IPV4LENGTH)
                       (bit_length (last_int - first_int + 1) - 1) in
    valid_network (Network first_int (IPV4LENGTH - nbits))) as Hnet.
  { intros f Hf Hle Hlast nbits.
    pose proof (summarize_nbits f last_int Hle) as Hnbits. fold nbits in Hnbits.
    unfold valid_network, IPV4LENGTH in *. simpl.
    split_and!; [lia..|].
    replace (32 - (32 - nbits)) with nbits by lia.
    pose proof (count_righthand_zero_bits_divides f 32 Hf ltac:(lia)) as Hdiv.
    pose proof (count_righthand_zero_bits_range f 32 ltac:(lia)).
    apply Z.mod_divide in Hdiv; [|apply Z.pow_nonzero; lia].
    apply Z.mod_divide; [apply Z.pow_nonzero; lia|].
    etrans; [|done].
    exists (2 ^ (count_righthand_zero_bits f 32 - nbits)).
    rewrite <- Z.pow_add_r by lia. f_equal. lia. }
  induction 1 as [f Hgt|f Hle nbits Hbreak|f nets Hle nbits Hcont _ IH];
    intros Hf Hlast.
  - constructor.
  - constructor; [by apply Hnet|constructor].
  - constructor; [by apply Hnet|]. apply IH; [|done].
    pose proof (summarize_nbits f last_int Hle) as Hnbits. fold nbits in Hnbits.
    assert (0 < Z.shiftl 1 nbits);
      [rewrite Z.shiftl_1_l; apply Z.pow_pos_nonneg; lia|lia].
Qed.

Lemma summarize_address_range_valid first last :
  0 ≤ first → first ≤ last → last < 2 ^ 32 →
  ∃ nets, summarize_address_range first last = Ok nets ∧
          Forall valid_network nets.
Proof.
  intros Hfirst Hle Hlast. unfold summarize_address_range.
  destruct (Z.ltb_spec last first); [lia|].
  eexists. split; [done|].
  apply (summarize_run_valid last first); [|done..].
  apply summarize_loop_run. unfold summarize_fuel. lia.
Qed.

(** ** [_find_address_range] *)

Lemma find_address_range_from_spec first last rest :
  first ≤ last → Forall (λ ip, last ≤ ip) rest →
  StronglySorted Z.le rest →
  Forall (λ r, r.1 ≤ r.2 ∧ r.1 ∈ first :: rest ∧ r.2 ∈ last :: rest)
         (find_address_range_from first last rest).
Proof.
  revert first last.
  induction rest as [|ip rest IH]; intros first last Hle Hlast Hsorted; simpl.
  { constructor; [|constructor]. simpl. split_and!; [done|by left..]. }
  apply Forall_cons in Hlast as [Hip Hlast].
  apply StronglySorted_inv in Hsorted as [Hsorted Hhd].
  destruct (negb (ip =? last + 1)).
  - constructor; [simpl; split_and!; [done|by left..]|].
    eapply Forall_impl; [apply (IH ip ip); [lia|done..]|].
    intros [f l]. simpl. intros (? & Hf & Hl). split_and!; [done|..].
    + by right.
    + apply elem_of_cons in Hl as [->|Hl]; [by right; left|by right; right].
  - eapply Forall_impl; [apply (IH first ip); [lia|done..]|].
    intros [f l]. simpl. intros (? & Hf & Hl). split_and!; [done|..].
    + apply elem_of_cons in Hf as [->|Hf]; [by left|by right; right].
    + by right.
Qed.

Lemma find_address_range_spec addresses :
  StronglySorted Z.le addresses →
  Forall (λ r, r.1 ≤ r.2 ∧ r.1 ∈ addresses ∧ r.2 ∈ addresses)
         (find_address_range addresses).
Proof.
  intros Hsorted. destruct addresses as [|ip rest]; simpl; [constructor|].
  apply StronglySorted_inv in Hsorted as [Hsorted Hhd].
  eapply Forall_impl; [by apply (find_address_range_from_spec ip ip rest)|].
  done.
Qed.

(** ** [ip_network] returns valid networks *)

Lemma digit_value_range c d : digit_value c = Some d → 0 ≤ d ≤ 9.
Proof.
  unfold digit_value. case_match eqn:Hc; [|done]. intros [= <-].
  apply andb_true_iff in Hc as [?%Z.leb_le ?%Z.leb_le]. lia.
Qed.

Lemma int_digits_nonneg acc s : 0 ≤ acc → 0 ≤ int_digits acc s.
Proof.
  revert acc. induction s as [|c s IH]; intros acc Hacc; simpl; [done|].
  apply IH. destruct (digit_value c) as [d|] eqn:Hd; simpl; [|lia].
  apply digit_value_range in Hd. lia.
Qed.

Lemma parse_octet_range s v : parse_octet s = Some v → 0 ≤ v ≤ 255.
Proof.
  unfold parse_octet. repeat case_match; try done. intros [= <-].
  pose proof (int_digits_nonneg 0 s ltac:(lia)). unfold int in *. lia.
Qed.

Lemma ip_int_from_string_range s v :
  ip_int_from_string s = Some v → 0 ≤ v < 2 ^ 32.
Proof.
  unfold ip_int_from_string.
  destruct (split "." s) as [|o1 [|o2 [|o3 [|o4 [|??]]]]]; try done.
  destruct (parse_octet o1) as [a|] eqn:Ha; [|done].
  destruct (parse_octet o2) as [b|] eqn:Hb; [|done].
  destruct (parse_octet o3) as [c|] eqn:Hc; [|done].
  destruct (parse_octet o4) as [d|] eqn:Hd; [|done].
  simpl. intros [= <-].
  apply parse_octet_range in Ha, Hb, Hc, Hd. lia.
Qed.

Lemma prefix_from_ip_int_range ip_int p :
  prefix_from_ip_int ip_int = Some p → 0 ≤ p ≤ 32.
Proof.
  unfold prefix_from_ip_int. case_match; [|done]. intros [= <-].
  pose proof (count_righthand_zero_bits_range ip_int IPV4LENGTH).
  unfold IPV4LENGTH in *. lia.
Qed.

Lemma prefix_from_prefix_string_range s p :
  prefix_from_prefix_string s = Some p → 0 ≤ p ≤ 32.
Proof.
  unfold prefix_from_prefix_string. destruct (negb (isdigit s)); [done|].
  destruct ((0 <=? int s) && (int s <=? IPV4LENGTH)) eqn:Hrange; [|done].
  intros [= <-]. apply andb_true_iff in Hrange as [?%Z.leb_le ?%Z.leb_le].
  unfold IPV4LENGTH in *. lia.
Qed.

Lemma prefix_from_ip_string_range s p :
  prefix_from_ip_string s = Some p → 0 ≤ p ≤ 32.
Proof.
  unfold prefix_from_ip_string.
  destruct (ip_int_from_string s) as [ip_int|]; simpl; [|done].
  destruct (prefix_from_ip_int ip_int) eqn:H1.
  - intros [= <-]. by apply prefix_from_ip_int_range in H1.
  - apply prefix_from_ip_int_range.
Qed.

Lemma make_netmask_range arg p : make_netmask arg = Some p → 0 ≤ p ≤ 32.
Proof.
  unfold make_netmask.
  destruct (prefix_from_prefix_string arg) eqn:H1.
  - intros [= <-]. by apply prefix_from_prefix_string_range in H1.
  - apply prefix_from_ip_string_range.
Qed.

Lemma ip_network_valid address n :
  ip_network address = Some n → valid_network n.
Proof.
  unfold ip_network.
  destruct (split "/" address) as [|addr [|mask [|??]]]; try done.
  - destruct (ip_int_from_string addr) as [packed|] eqn:Hpacked; [|done].
    simpl. intros [= <-]. apply ip_int_from_string_range in Hpacked.
    unfold valid_network, IPV4LENGTH. simpl.
    split_and!; [lia..|]. apply Z.mod_1_r.
  - destruct (ip_int_from_string addr) as [packed|] eqn:Hpacked; [|done].
    destruct (make_netmask mask) as [p|] eqn:Hp; [|done].
    simpl. destruct (Z.eqb_spec (Z.land packed (ip_int_from_prefix p)) packed)
      as [Hbits|]; [|done].
    intros [= <-]. apply ip_int_from_string_range in Hpacked.
    apply make_netmask_range in Hp.
    unfold valid_network, IPV4LENGTH. simpl. split_and!; [lia..|].
    rewrite ip_int_from_prefix_eq in Hbits by done.
    rewrite (land_high_mask 32) in Hbits by lia.
    assert (0 < 2 ^ (32 - p)) by (apply Z.pow_pos_nonneg; lia).
    apply Z.div_exact; lia.
Qed.

(** ** [collapse_addresses] *)

Lemma split_ips_nets_eq (addresses : list IPv4Network) :
  split_ips_nets addresses =
  (network_address <$> filter (λ n, prefixlen n = IPV4LENGTH) addresses,
   filter (λ n, prefixlen n ≠ IPV4LENGTH) addresses).
Proof.
  induction addresses as [|ip l IH]; [done|].
  simpl. rewrite IH. rewrite !filter_cons.
  destruct (Z.eqb_spec (prefixlen ip) IPV4LENGTH).
  - rewrite decide_True by done. by rewrite decide_False by naive_solver.
  - rewrite decide_False by done. by rewrite decide_True by done.
Qed.

Lemma Z_ltb_asym a b : (a <? b) = true → (b <? a) = false.
Proof. rewrite Z.ltb_lt, Z.ltb_ge. lia. Qed.

Lemma Z_ltb_negtrans a b c :
  (b <? a) = false → (c <? b) = false → (c <? a) = false.
Proof. rewrite !Z.ltb_ge. lia. Qed.

Lemma StronglySorted_impl {A} (R R' : relation A) l :
  (∀ a b, R a b → R' a b) → StronglySorted R l → StronglySorted R' l.
Proof.
  intros HR. induction 1 as [|x l _ IH Hx]; constructor; [done|].
  eapply Forall_impl; [done|]. auto.
Qed.

Lemma sorted_Z_le l : StronglySorted Z.le (sorted Z.ltb id l).
Proof.
  apply (StronglySorted_impl (in_order Z.ltb id)).
  - intros a b. unfold in_order. simpl. rewrite Z.ltb_ge. lia.
  - apply sorted_in_order; [apply Z_ltb_asym|apply Z_ltb_negtrans].
Qed.

Lemma mapM_result_Forall {A B} (f : A → result B) (P : B → Prop) l :
  Forall (λ x, ∃ y, f x = Ok y ∧ P y) l →
  ∃ ys, mapM f l = Ok ys ∧ Forall P ys.
Proof.
  induction 1 as [|x l (y & Hy & HP) _ (ys & Hys & HPs)]; simpl.
  - exists []. by split.
  - exists (y :: ys). rewrite Hy. simpl. rewrite Hys. simpl.
    split; [done|by constructor].
Qed.

(** The sorted, de-duplicated addresses and what is made of them. *)
Lemma summarized_addresses (ips : list Z) :
  Forall (λ ip, 0 ≤ ip < 2 ^ 32) ips →
  ∃ addrs,
    mapM (λ '(first, last), summarize_address_range first last)
         (find_address_range
            (sorted Z.ltb id (elements (list_to_set ips : gset Z))))
    = Ok addrs ∧
    Forall (Forall valid_network) addrs.
Proof.
  intros Hips. apply mapM_result_Forall.
  set (sorted_ips := sorted Z.ltb id (elements (list_to_set ips : gset Z))).
  assert (∀ ip, ip ∈ sorted_ips → 0 ≤ ip < 2 ^ 32) as Hrange.
  { intros ip. unfold sorted_ips. rewrite sorted_perm.
    rewrite elem_of_elements, elem_of_list_to_set.
    rewrite Forall_forall in Hips. apply Hips. }
  eapply Forall_impl; [apply find_address_range_spec, sorted_Z_le|].
  intros [first last]. simpl. intros (Hle & Hfirst%Hrange & Hlast%Hrange).
  apply summarize_address_range_valid; lia.
Qed.

Lemma collapse_addresses_perm (l l' : list IPv4Network) :
  Forall valid_network l → l ≡ₚ l' →
  ∃ collapsed,
    collapse_addresses l = Ok collapsed ∧
    collapse_addresses l' = Ok collapsed ∧
    Forall valid_network collapsed ∧
    StronglySorted before collapsed.
Proof.
  intros Hvalid Hperm.
  assert (Forall valid_network l') as Hvalid' by (by rewrite <- Hperm).
  unfold collapse_addresses. rewrite !split_ips_nets_eq.
  set (ips := network_address <$> filter _ l).
  set (ips' := network_address <$> filter _ l').
  assert (ips ≡ₚ ips') as Hips by (unfold ips, ips'; by rewrite Hperm).
  assert ((list_to_set ips' : gset Z) = list_to_set ips) as ->
    by (by rewrite Hips).
  destruct (summarized_addresses ips) as (addrs & -> & Haddrs).
  { unfold ips. apply Forall_fmap, Forall_forall.
    intros n [_ Hn]%list_elem_of_filter. simpl.
    rewrite Forall_forall in Hvalid. by destruct (Hvalid n Hn) as (_ & ? & _). }
  simpl.
  assert (Forall valid_network (concat addrs)) as Hconcat
    by (by apply Forall_concat).
  assert (∀ l0, Forall valid_network l0 →
            Forall valid_network
              (concat addrs ++ filter (λ n, prefixlen n ≠ IPV4LENGTH) l0))
    as Hall.
  { intros l0 Hl0. apply Forall_app. split; [done|].
    apply Forall_forall. intros n [_ Hn]%list_elem_of_filter.
    by eapply Forall_forall in Hl0. }
  pose proof (Hall l Hvalid). pose proof (Hall l' Hvalid').
  eexists. split_and!; [done| | |].
  - f_equal. apply collapse_addresses_internal_ext; [done..|].
    intros x. apply covered_Permutation. by rewrite Hperm.
  - by apply collapse_addresses_internal_valid.
  - by apply collapse_addresses_internal_spec.
Qed.

(** ** Lines 49 to 51 *)

Lemma parse_all_ok (cidrs : list string) :
  Forall (λ c, is_Some (ip_network c)) cidrs →
  mapM (λ c, or_raise ValueError (ip_network c)) cidrs
  = Ok (omap ip_network cidrs).
Proof.
  induction 1 as [|c l [n Hn] _ IH]; [done|].
  simpl. rewrite Hn. simpl. by rewrite IH.
Qed.

Lemma key_lt_asym a b : key_lt a b = true → key_lt b a = false.
Proof.
  unfold key_lt. intros H. apply not_true_is_false. revert H.
  rewrite !orb_true_iff, !andb_true_iff, !Z.ltb_lt, !Z.eqb_eq. lia.
Qed.

Lemma key_lt_negtrans a b c :
  key_lt b a = false → key_lt c b = false → key_lt c a = false.
Proof.
  unfold key_lt. intros H1%not_true_iff_false H2%not_true_iff_false.
  apply not_true_is_false. revert H1 H2.
  rewrite !orb_true_iff, !andb_true_iff, !Z.ltb_lt, !Z.eqb_eq. lia.
Qed.

Lemma key_lt_before a b : key_lt (sort_key a) (sort_key b) = true ↔ before a b.
Proof.
  unfold key_lt, sort_key, before. simpl.
  rewrite !orb_true_iff, !andb_true_iff, !Z.ltb_lt, !Z.eqb_eq. done.
Qed.

(** Sorting by line 51's key puts networks in ascending order of
    (address, prefix length). *)
Lemma sorted_by_key_before (nets : list IPv4Network) :
  NoDup nets → StronglySorted before (sorted key_lt sort_key nets).
Proof.
  intros Hnd.
  apply (StronglySorted_strengthen (in_order key_lt sort_key) before (λ _, True)).
  - intros a b _ _ Hne Hab. unfold in_order in Hab.
    destruct (before_total a b) as [?|[?|Hba]]; [done..|].
    apply key_lt_before in Hba. congruence.
  - by apply Forall_true.
  - by rewrite sorted_perm.
  - apply sorted_in_order; [apply key_lt_asym|apply key_lt_negtrans].
Qed.

(** C6. For every list of valid CIDR strings, collapsing the list and
    collapsing any permutation of it give the same sequence of strings.
    That sequence is the strings of valid networks (addresses of 32 bits
    without host bits, prefix lengths from 0 to 32, so each string
    determines its network) which are listed in strictly ascending order
    of (network address, prefix length). *)
Theorem collapse_order_independent (cidrs cidrs' : list string) :
  Forall (λ c, is_Some (ip_network c)) cidrs →
  cidrs ≡ₚ cidrs' →
  ∃ nets : list IPv4Network,
    collapse_cidrs cidrs = Ok (str <$> nets) ∧
    collapse_cidrs cidrs' = Ok (str <$> nets) ∧
    Forall valid_network nets ∧
    StronglySorted before nets.
Proof.
  intros Hvalid Hperm.
  assert (Forall (λ c, is_Some (ip_network c)) cidrs') as Hvalid'
    by (by rewrite <- Hperm).
  destruct (collapse_addresses_perm (omap ip_network cidrs)
              (omap ip_network cidrs'))
    as (collapsed & Hc & Hc' & Hnets & Hsorted).
  { apply Forall_forall. intros n (c & _ & Hn)%list_elem_of_omap.
    by apply (ip_network_valid c). }
  { by rewrite Hperm. }
  exists (sorted key_lt sort_key collapsed).
  unfold collapse_cidrs. rewrite !parse_all_ok by done. simpl.
  rewrite Hc, Hc'. simpl. split_and!; [done..| |].
  - by rewrite sorted_perm.
  - by apply sorted_by_key_before, StronglySorted_before_NoDup.
Qed.

Lemma collapse_scenario_A :
  collapse_cidrs ["10.0.0.0/24"; "10.0.1.0/24"]%string
  = Ok ["10.0.0.0/23"%string].
Proof. vm_compute. reflexivity. Qed.

Lemma collapse_order_independent_witness :
  let cidrs := ["10.0.1.0/24"; "10.0.0.0/24"; "192.168.7.9"]%string in
  let cidrs' := ["10.0.0.0/24"; "10.0.1.0/24"; "192.168.7.9"]%string in
  ∃ nets : list IPv4Network,
    collapse_cidrs cidrs = Ok (str <$> nets) ∧
    collapse_cidrs cidrs' = Ok (str <$> nets) ∧
    Forall valid_network nets ∧
    StronglySorted before nets.
Proof.
  intros cidrs cidrs'. apply collapse_order_independent.
  - repeat constructor; vm_compute; eauto.
  - apply Permutation_swap.
Defined.

(** * Further properties of the program *)

(** ** Further properties of the runs *)

Lemma contains_char_elem_of (c : ascii) (s : string) :
  contains_char c s = true ↔ c ∈ list_ascii_of_string s.
Proof.
  induction s as [|c' s IH]; simpl.
  - split; [done|]. by intros ?%elem_of_nil.
  - rewrite elem_of_cons. destruct (decide (c' = c)) as [->|Hne].
    + naive_solver.
    + rewrite IH. naive_solver.
Qed.

(** X1. When the comprehension of lines 41 to 47 returns, it returns the
    CIDRs of exactly the entries whose product list holds "bitbucket",
    whose direction list holds "egress" (an absent list counting as
    empty) and whose CIDR holds no ':' character, once for each such
    entry and in the order of the feed; no string of the result holds
    a ':'. *)
Theorem filter_keeps_matching_entries (l : list FeedItem)
    (kept : list string) :
  filter_items l = Ok kept →
  kept = omap cidr
           (filter (λ item,
                      "bitbucket"%string ∈ default [] (product item) ∧
                      "egress"%string ∈ default [] (direction item) ∧
                      ":"%char ∉ list_ascii_of_string
                                   (default ""%string (cidr item))) l) ∧
  Forall (λ c, ":"%char ∉ list_ascii_of_string c) kept.
Proof.
  revert kept. induction l as [|item l IH]; intros kept Hkept.
  - simpl in Hkept. by assert (kept = []) as -> by congruence.
  - rewrite filter_cons. simpl in Hkept.
    pose proof (keep_item_iff item) as Hiff.
    rewrite <- not_true_iff_false, contains_char_elem_of in Hiff.
    destruct (keep_item item).
    + destruct (cidr item) as [c|] eqn:Hc; [|done]. simpl in Hkept.
      destruct (filter_items l) as [cs|] eqn:Hcs; [|done]. simpl in Hkept.
      assert (kept = c :: cs) as -> by congruence.
      destruct (IH cs eq_refl) as [IH1 IH2].
      rewrite ?Hc in Hiff. simpl in Hiff.
      assert (Hitem : "bitbucket"%string ∈ default [] (product item) ∧
                      "egress"%string ∈ default [] (direction item) ∧
                      ":"%char ∉ list_ascii_of_string c)
        by (by apply Hiff).
      rewrite decide_True by done. csimpl. rewrite ?Hc. csimpl.
      split; [by f_equal|]. constructor; [apply Hitem|done].
    + rewrite decide_False; [by apply IH|].
      intros Hitem. by apply Hiff in Hitem.
Qed.

Lemma main_read_quiet cfg w t lists :
  main_read cfg w = (t, lists) → mutations t = [] ∧ slack_posts t = [].
Proof.
  intros H. pose proof (main_read_mutations cfg w) as Hm.
  pose proof (main_read_slack_posts cfg w) as Hs.
  rewrite H in Hm, Hs. done.
Qed.

(** X2. A run whose desired list is empty (a feed without ["items"], or
    without any Bitbucket egress IPv4 entry) while the group has
    port-443 rules revokes every one of them, outside dry-run mode, and
    authorizes nothing. *)
Theorem empty_feed_revokes_all (cfg : Config) (w : World) (t : list event)
    (current_cidrs : list string) :
  main_read cfg w = (t, Return ([], current_cidrs)) →
  current_cidrs ≠ [] →
  DRY_RUN cfg = false →
  mutations (main cfg w).1 =
    [RevokeSecurityGroupIngress (AWS_SG_ID cfg)
       (revoke_payload (list_to_set current_cidrs))] ∧
  ∀ c, c ∈ current_cidrs ↔
       c ∈ payload_cidrs (revoke_payload (list_to_set current_cidrs)).
Proof.
  intros Hread Hne Hdry.
  destruct (main_read_quiet _ _ _ _ Hread) as [Hm0 _].
  pose proof (main_read_boto3_client _ _ _ _ Hread) as Hb.
  assert (to_remove [] current_cidrs = list_to_set current_cidrs) as Hrm.
  { unfold to_remove. set_solver. }
  assert (to_add [] current_cidrs = ∅) as Hadd.
  { unfold to_add. set_solver. }
  assert ((list_to_set current_cidrs : gset string) ≠ ∅) as Hrm_ne.
  { destruct current_cidrs as [|c l]; [done|]. set_solver. }
  split.
  - rewrite (main_after_read _ _ _ _ _ Hread). simpl.
    rewrite mutations_app, Hm0. simpl.
    unfold main_update. rewrite bool_decide_eq_false_2 by done.
    rewrite bool_decide_eq_false_2 by (simpl; unfold AWS_SG_RULE_LIMIT; lia).
    unfold replace_sg_ingress_rules. rewrite Hb, Hdry, Hrm, Hadd.
    rewrite (bool_decide_eq_true_2 (∅ = ∅)) by done.
    rewrite (bool_decide_eq_false_2 _ Hrm_ne). simpl.
    rewrite !for_each_print. unfold send_slack_alert, slack_try, call.
    destruct (revoke_response w) as [[]|e]; simpl;
      [destruct (truthy (SLACK_BOT_TOKEN cfg)); simpl;
         [destruct (slack_response w) as [e| | |[]]|]|]; simpl;
      rewrite ?app_nil_r; by mutations_simpl.
  - intros c. rewrite revoke_payload_cidrs, elem_of_elements.
    by rewrite elem_of_list_to_set.
Qed.

(** X3. When the desired and the current list are equal, the run ends
    successfully after logging that nothing changed: no mutation call, no
    Slack post, exit status 0, also when the list has more than 60
    entries. *)
Theorem equal_lists_no_change (cfg : Config) (w : World) (t : list event)
    (cidrs : list string) :
  main_read cfg w = (t, Return (cidrs, cidrs)) →
  main cfg w = (t ++ [Print LogNoChangesDetected], Return tt) ∧
  mutations (main cfg w).1 = [] ∧
  slack_posts (main cfg w).1 = [] ∧
  exit_status (main cfg w).2 = 0.
Proof.
  intros Hread. destruct (main_read_quiet _ _ _ _ Hread) as [Hm0 Hs0].
  assert (main cfg w = (t ++ [Print LogNoChangesDetected], Return tt)) as ->.
  { rewrite (main_after_read _ _ _ _ _ Hread). unfold main_update.
    by rewrite bool_decide_eq_true_2. }
  simpl. rewrite mutations_app, slack_posts_app, Hm0, Hs0. done.
Qed.

(** X4. If the run fails before both lists are known (the feed request,
    the parsing, the boto3 client or the read of the group raises), it
    ends with that exception and exit status 1, having made no mutation
    call and no Slack post. *)
Theorem read_failure_changes_nothing (cfg : Config) (w : World) (e : exn) :
  (main_read cfg w).2 = Uncaught e →
  (main cfg w).2 = Uncaught e ∧
  exit_status (main cfg w).2 = 1 ∧
  mutations (main cfg w).1 = [] ∧
  slack_posts (main cfg w).1 = [].
Proof.
  intros Hread. destruct (main_read cfg w) as [t o] eqn:Hmr.
  simpl in Hread. subst o.
  destruct (main_read_quiet _ _ _ _ Hmr) as [Hm0 Hs0].
  unfold main. rewrite Hmr. done.
Qed.

Lemma main_update_apply cfg w after_cidrs current_cidrs :
  after_cidrs ≠ current_cidrs →
  Z.of_nat (length after_cidrs) ≤ AWS_SG_RULE_LIMIT →
  main_update cfg w after_cidrs current_cidrs =
  (replace_sg_ingress_rules cfg w after_cidrs current_cidrs ;;
   print (LogUpdated (length after_cidrs)) ;;
   send_slack_alert cfg w
     (SuccessMsg (length after_cidrs) (AWS_SG_ID cfg) (JENKINS_URL cfg)
                 (JOB_NAME cfg))).
Proof.
  intros Hne Hlimit. unfold main_update.
  rewrite bool_decide_eq_false_2 by done.
  by rewrite bool_decide_eq_false_2 by lia.
Qed.

Lemma diff_nonempty_lists_differ (after_cidrs current_cidrs : list string) :
  to_add after_cidrs current_cidrs ≠ ∅ ∨
    to_remove after_cidrs current_cidrs ≠ ∅ →
  after_cidrs ≠ current_cidrs.
Proof. intros Hdiff ->. unfold to_add, to_remove in Hdiff. set_solver. Qed.

(** The update step outside dry-run mode, by what the two calls answer. *)
Lemma replace_sg_ingress_rules_live cfg w after_cidrs current_cidrs :
  DRY_RUN cfg = false → boto3_client w = Ok tt →
  let rm := to_remove after_cidrs current_cidrs in
  let add := to_add after_cidrs current_cidrs in
  let revoke :=
    RevokeSecurityGroupIngress (AWS_SG_ID cfg) (revoke_payload rm) in
  let authorize :=
    AuthorizeSecurityGroupIngress (AWS_SG_ID cfg) (auth_payload add) in
  let r := replace_sg_ingress_rules cfg w after_cidrs current_cidrs in
  slack_posts r.1 = [] ∧
  match decide (rm = ∅), revoke_response w with
  | right _, Raise e => r.2 = Uncaught e ∧ mutations r.1 = [revoke]
  | is_empty, _ =>
      let revokes := if is_empty then [] else [revoke] in
      match decide (add = ∅), authorize_response w with
      | left _, _ => r.2 = Return tt ∧ mutations r.1 = revokes
      | right _, Ok _ => r.2 = Return tt ∧ mutations r.1 = revokes ++ [authorize]
      | right _, Raise e =>
          r.2 = Uncaught e ∧ mutations r.1 = revokes ++ [authorize]
      end
  end.
Proof.
  intros Hdry Hb rm add revoke authorize r. subst r revoke authorize.
  unfold replace_sg_ingress_rules. fold rm add. rewrite Hdry, Hb.
  rewrite !for_each_print. unfold call, print, emit, lift, ret, raise.
  destruct (decide (rm = ∅)) as [Hrm|Hrm], (decide (add = ∅)) as [Hadd|Hadd];
    rewrite ?(bool_decide_eq_true_2 _ Hrm), ?(bool_decide_eq_false_2 _ Hrm),
      ?(bool_decide_eq_true_2 _ Hadd), ?(bool_decide_eq_false_2 _ Hadd);
    destruct (revoke_response w) as [[]|e1];
    destruct (authorize_response w) as [[]|e2]; simpl;
    (split; [by slack_simpl|]); split; try done; by mutations_simpl.
Qed.

Section update.
Context (cfg : Config) (w : World) (t : list event).
Context (after_cidrs current_cidrs : list string).
Hypothesis Hread : main_read cfg w = (t, Return (after_cidrs, current_cidrs)).
Hypothesis Hlimit : Z.of_nat (length after_cidrs) ≤ AWS_SG_RULE_LIMIT.
Hypothesis Hdry : DRY_RUN cfg = false.

Let rm := to_remove after_cidrs current_cidrs.
Let add := to_add after_cidrs current_cidrs.
Let revoke := RevokeSecurityGroupIngress (AWS_SG_ID cfg) (revoke_payload rm).
Let authorize :=
  AuthorizeSecurityGroupIngress (AWS_SG_ID cfg) (auth_payload add).
Let success :=
  SlackPost (default ""%string (SLACK_BOT_TOKEN cfg)) SLACK_CHANNEL
    (SuccessMsg (length after_cidrs) (AWS_SG_ID cfg) (JENKINS_URL cfg)
       (JOB_NAME cfg)).

Lemma main_live_run :
  rm ≠ ∅ ∨ add ≠ ∅ →
  main cfg w =
  (t ++ (replace_sg_ingress_rules cfg w after_cidrs current_cidrs ;;
         print (LogUpdated (length after_cidrs)) ;;
         send_slack_alert cfg w
           (SuccessMsg (length after_cidrs) (AWS_SG_ID cfg) (JENKINS_URL cfg)
              (JOB_NAME cfg))).1,
   (replace_sg_ingress_rules cfg w after_cidrs current_cidrs ;;
    print (LogUpdated (length after_cidrs)) ;;
    send_slack_alert cfg w
      (SuccessMsg (length after_cidrs) (AWS_SG_ID cfg) (JENKINS_URL cfg)
         (JOB_NAME cfg))).2).
Proof using Hread Hlimit.
  intros Hdiff. rewrite (main_after_read _ _ _ _ _ Hread).
  rewrite main_update_apply; [done| |done].
  apply diff_nonempty_lists_differ. subst rm add. tauto.
Qed.

(** X5. Outside dry-run mode, with a non-empty diff within the rule
    limit, when the mutation calls succeed and the Slack token is set,
    the run makes exactly the revoke and authorize calls the diff asks
    for, posts the success message once and ends with exit status 0. *)
Theorem successful_apply :
  rm ≠ ∅ ∨ add ≠ ∅ →
  revoke_response w = Ok tt → authorize_response w = Ok tt →
  truthy (SLACK_BOT_TOKEN cfg) = true →
  mutations (main cfg w).1 =
    (if decide (rm = ∅) then [] else [revoke]) ++
    (if decide (add = ∅) then [] else [authorize]) ∧
  slack_posts (main cfg w).1 = [success] ∧
  (main cfg w).2 = Return tt ∧
  exit_status (main cfg w).2 = 0.
Proof using Hread Hlimit Hdry.
  intros Hdiff Hrevoke Hauth Htoken. rewrite (main_live_run Hdiff).
  destruct (main_read_quiet _ _ _ _ Hread) as [Hm0 Hs0].
  pose proof (main_read_boto3_client _ _ _ _ Hread) as Hb.
  destruct (replace_sg_ingress_rules_live cfg w after_cidrs current_cidrs
              Hdry Hb) as [Hs Hcases].
  fold rm add revoke authorize in Hcases. rewrite Hrevoke, Hauth in Hcases.
  destruct (replace_sg_ingress_rules cfg w after_cidrs current_cidrs)
    as [t' o]. simpl in Hs, Hcases.
  assert (o = Return tt ∧
          mutations t' = (if decide (rm = ∅) then [] else [revoke]) ++
                         (if decide (add = ∅) then [] else [authorize]))
    as [-> Hm].
  { destruct (decide (rm = ∅)), (decide (add = ∅)); simpl in *;
      rewrite ?app_nil_r; done. }
  unfold send_slack_alert, slack_try. rewrite Htoken. simpl.
  destruct (slack_response w) as [e| | |[]]; simpl;
    mutations_simpl; slack_simpl; rewrite Hm0, Hs0, Hm, Hs;
    by rewrite ?app_nil_r.
Qed.

(** X6. When the revoke call fails, the run ends with its exception and
    exit status 1: the authorize call is not attempted and nothing is
    posted to Slack. *)
Theorem failed_revoke_stops_run (e : exn) :
  rm ≠ ∅ → revoke_response w = Raise e →
  (main cfg w).2 = Uncaught e ∧
  exit_status (main cfg w).2 = 1 ∧
  mutations (main cfg w).1 = [revoke] ∧
  slack_posts (main cfg w).1 = [].
Proof using Hread Hlimit Hdry.
  intros Hrm Hrevoke. rewrite (main_live_run (or_introl Hrm)).
  destruct (main_read_quiet _ _ _ _ Hread) as [Hm0 Hs0].
  pose proof (main_read_boto3_client _ _ _ _ Hread) as Hb.
  destruct (replace_sg_ingress_rules_live cfg w after_cidrs current_cidrs
              Hdry Hb) as [Hs Hcases].
  fold rm add revoke authorize in Hcases. rewrite Hrevoke in Hcases.
  destruct (decide (rm = ∅)); [done|]. destruct Hcases as [Ho Hm].
  destruct (replace_sg_ingress_rules cfg w after_cidrs current_cidrs)
    as [t' o]. simpl in *. subst o. simpl.
  by rewrite mutations_app, slack_posts_app, Hm0, Hs0, Hm, Hs.
Qed.

End update.

(** X8. In dry-run mode no run makes a mutation call, whatever the feed,
    the group and the collaborators' answers are. *)
Theorem dry_run_never_mutates (cfg : Config) (w : World) :
  DRY_RUN cfg = true → mutations (main cfg w).1 = [].
Proof.
  intros Hdry. apply mutations_nil_Forall.
  unfold main, main_update, main_read, get_sg_ingress_rules, fetch_ip_ranges,
    replace_sg_ingress_rules, send_slack_alert, slack_try, print.
  rewrite Hdry. trace_solve; done.
Qed.

(** The exit codes a piece of the script can pass to [sys.exit]. *)
Lemma exit_code_bind {A B} (m : prog A) (f : A → prog B) :
  exit_status m.2 ∈ [0; 1] → (∀ a, exit_status (f a).2 ∈ [0; 1]) →
  exit_status (bind m f).2 ∈ [0; 1].
Proof.
  intros Hm Hf. rewrite bind_snd. destruct m as [t [a| |]]; simpl in *; auto.
Qed.

(** X9. The exit status of a run is 0 or 1; no other status is used, in
    particular none for dry runs. *)
Theorem exit_status_0_or_1 (cfg : Config) (w : World) :
  exit_status (main cfg w).2 = 0 ∨ exit_status (main cfg w).2 = 1.
Proof.
  assert (exit_status (main cfg w).2 ∈ [0; 1]) as H; [|set_solver].
  assert (∀ A (r : result A), exit_status (lift r).2 ∈ [0; 1]) as Hlift.
  { intros A [a|e]; simpl; set_solver. }
  assert (∀ l, exit_status (print l).2 ∈ [0; 1]) as Hprint.
  { intros l. simpl. set_solver. }
  assert (∀ A ev (r : result A), exit_status (call ev r).2 ∈ [0; 1]) as Hcall.
  { intros A ev r. apply exit_code_bind; [simpl; set_solver|auto]. }
  assert (∀ A (l : list A) f, exit_status (for_each l (λ x, print (f x))).2
                              ∈ [0; 1]) as Hfor.
  { intros A l f. rewrite for_each_print. simpl. set_solver. }
  assert (∀ text, exit_status (send_slack_alert cfg w text).2 ∈ [0; 1])
    as Hslack.
  { intros text. unfold send_slack_alert, slack_try.
    destruct (truthy (SLACK_BOT_TOKEN cfg)); simpl; [|set_solver].
    destruct (slack_response w) as [e| | |[]]; simpl; set_solver. }
  unfold main, main_update, main_read, get_sg_ingress_rules, fetch_ip_ranges,
    replace_sg_ingress_rules.
  repeat first
    [ apply exit_code_bind; [|intros]
    | apply Hlift | apply Hprint | apply Hcall | apply Hfor | apply Hslack
    | match goal with
      | |- exit_status (if ?b then _ else _).2 ∈ _ => destruct b
      | |- exit_status (let '(_, _) := ?x in _).2 ∈ _ => destruct x
      end
    | (simpl; set_solver) ].
Qed.

(** ** What [summarize_address_range] covers *)

Lemma bit_length_pow2_le n : 1 ≤ n → 2 ^ (bit_length n - 1) ≤ n.
Proof.
  intros Hn. unfold bit_length. destruct (Z.eqb_spec n 0); [lia|].
  rewrite Z.abs_eq by lia.
  replace (Z.log2 n + 1 - 1) with (Z.log2 n) by lia.
  apply Z.log2_spec. lia.
Qed.

Lemma summarize_block first_int last_int :
  0 ≤ first_int → first_int ≤ last_int → last_int < 2 ^ 32 →
  let nbits := Z.min (count_righthand_zero_bits first_int IPV4LENGTH)
                     (bit_length (last_int - first_int + 1) - 1) in
  let net := Network first_int (IPV4LENGTH - nbits) in
  valid_network net ∧ 0 < Z.shiftl 1 nbits ∧
  first_int + Z.shiftl 1 nbits - 1 ≤ last_int ∧
  ∀ x, contains net x ↔ first_int ≤ x < first_int + Z.shiftl 1 nbits.
Proof.
  intros Hfirst Hle Hlast nbits net.
  pose proof (summarize_nbits first_int last_int Hle) as Hnbits.
  fold nbits in Hnbits. unfold IPV4LENGTH in *.
  assert (valid_network net) as Hvalid.
  { unfold valid_network, IPV4LENGTH. subst net. simpl.
    split_and!; [lia..|].
    replace (32 - (32 - nbits)) with nbits by lia.
    pose proof (count_righthand_zero_bits_divides first_int 32 Hfirst
                  ltac:(lia)) as Hdiv.
    pose proof (count_righthand_zero_bits_range first_int 32 ltac:(lia)).
    apply Z.mod_divide in Hdiv; [|apply Z.pow_nonzero; lia].
    apply Z.mod_divide; [apply Z.pow_nonzero; lia|].
    etrans; [|done].
    exists (2 ^ (count_righthand_zero_bits first_int 32 - nbits)).
    rewrite <- Z.pow_add_r by lia. f_equal. unfold IPV4LENGTH. lia. }
  rewrite Z.shiftl_1_l.
  assert (0 < 2 ^ nbits) by (apply Z.pow_pos_nonneg; lia).
  assert (2 ^ nbits ≤ last_int - first_int + 1).
  { etrans; [|apply bit_length_pow2_le; lia].
    apply Z.pow_le_mono_r; lia. }
  split_and!; [done|done|lia|].
  intros x. rewrite contains_iff by done. unfold block_size. subst net. simpl.
  by replace (32 - (32 - nbits)) with nbits by lia.
Qed.

Lemma summarize_run_covers last_int first_int nets :
  summarize_run last_int first_int nets →
  0 ≤ first_int → last_int < 2 ^ 32 →
  ∀ x, covered nets x ↔ first_int ≤ x ≤ last_int.
Proof.
  induction 1 as [f Hgt|f Hle nbits Hbreak|f nets Hle nbits Hcont _ IH];
    intros Hf Hlast x.
  - unfold covered. split; [|lia]. by intros (n & ?%elem_of_nil & _).
  - destruct (summarize_block f last_int Hf Hle Hlast)
      as (_ & Hpos & Hend & Hcov).
    fold nbits in Hpos, Hend, Hcov. unfold ALL_ONES, IPV4LENGTH in *.
    unfold covered. split.
    + intros (n & ->%list_elem_of_singleton & Hx). apply Hcov in Hx. lia.
    + intros Hx. eexists. split; [by apply list_elem_of_singleton|].
      apply Hcov. lia.
  - destruct (summarize_block f last_int Hf Hle Hlast)
      as (_ & Hpos & Hend & Hcov).
    fold nbits in Hpos, Hend, Hcov.
    specialize (IH ltac:(lia) Hlast x). unfold covered in *. split.
    + intros (n & [->|Hn]%elem_of_cons & Hx).
      * apply Hcov in Hx. lia.
      * assert (f + Z.shiftl 1 nbits ≤ x ≤ last_int) by (apply IH; eauto). lia.
    + intros Hx. destruct (decide (x < f + Z.shiftl 1 nbits)) as [Hlt|Hge].
      * eexists. split; [by left|]. apply Hcov. lia.
      * destruct IH as [_ (n & Hn & Hnx)]; [lia|].
        exists n. split; [by right|done].
Qed.

Lemma summarize_address_range_covers first last :
  0 ≤ first → first ≤ last → last < 2 ^ 32 →
  ∃ nets, summarize_address_range first last = Ok nets ∧
          Forall valid_network nets ∧
          ∀ x, covered nets x ↔ first ≤ x ≤ last.
Proof.
  intros Hfirst Hle Hlast. unfold summarize_address_range.
  destruct (Z.ltb_spec last first); [lia|].
  assert (summarize_run last first
            (summarize_loop (summarize_fuel first last) first last)) as Hrun.
  { apply summarize_loop_run. unfold summarize_fuel. lia. }
  eexists. split_and!; [done| |].
  - by apply (summarize_run_valid last first).
  - by apply summarize_run_covers.
Qed.

(** ** What [_find_address_range] covers *)

(** Every address between [first] and [last] is taken to be present. *)
Lemma find_address_range_from_covers first last rest x :
  first ≤ last →
  (∃ r, r ∈ find_address_range_from first last rest ∧ r.1 ≤ x ≤ r.2) ↔
  first ≤ x ≤ last ∨ x ∈ rest.
Proof.
  revert first last. induction rest as [|ip rest IH]; intros first last Hle.
  { simpl. split.
    - intros (r & ->%list_elem_of_singleton & Hx). by left.
    - intros [Hx|?%elem_of_nil]; [|done].
      exists (first, last). split; [by apply list_elem_of_singleton|done]. }
  simpl. destruct (Z.eqb_spec ip (last + 1)) as [->|Hne]; simpl.
  - rewrite IH by lia. rewrite elem_of_cons. intuition lia.
  - split.
    + intros (r & [->|Hr]%elem_of_cons & Hx); [by left|].
      right. apply elem_of_cons.
      destruct (IH ip ip ltac:(lia)) as [[Hx'|Hx'] _]; [by exists r|..].
      * left. lia.
      * by right.
    + intros [Hx|[->|Hx]%elem_of_cons].
      * exists (first, last). split; [by left|done].
      * destruct (IH ip ip ltac:(lia)) as [_ (r & Hr & Hrx)]; [left; lia|].
        exists r. split; [by right|done].
      * destruct (IH ip ip ltac:(lia)) as [_ (r & Hr & Hrx)]; [by right|].
        exists r. split; [by right|done].
Qed.

Lemma find_address_range_covers addresses x :
  (∃ r, r ∈ find_address_range addresses ∧ r.1 ≤ x ≤ r.2) ↔ x ∈ addresses.
Proof.
  destruct addresses as [|ip rest]; simpl.
  { split; [by intros (r & ?%elem_of_nil & _)|by intros ?%elem_of_nil]. }
  rewrite find_address_range_from_covers by lia. rewrite elem_of_cons.
  intuition lia.
Qed.

(** ** The addresses [collapse_addresses] covers *)

Lemma covered_app l1 l2 x : covered (l1 ++ l2) x ↔ covered l1 x ∨ covered l2 x.
Proof.
  unfold covered. setoid_rewrite elem_of_app. naive_solver.
Qed.

Lemma covered_cons n l x : covered (n :: l) x ↔ contains n x ∨ covered l x.
Proof.
  unfold covered. setoid_rewrite elem_of_cons. naive_solver.
Qed.

Lemma covered_nil x : ¬ covered [] x.
Proof. by intros (n & ?%elem_of_nil & _). Qed.

(** Among the networks of a list that contain [x], one has the shortest
    prefix. *)
Lemma shortest_prefix_containing (V : list IPv4Network) x :
  covered V x →
  ∃ v, v ∈ V ∧ contains v x ∧
       ∀ m, m ∈ V → contains m x → prefixlen v ≤ prefixlen m.
Proof.
  induction V as [|n V IH]; [by intros ?%covered_nil|].
  assert (Decision (contains n x)) as Hdec by (unfold contains; apply _).
  assert (Decision (covered V x)) as HdecV.
  { clear. induction V as [|m V IHV]; [right; apply covered_nil|].
    assert (Decision (contains m x)) as [Hm|Hm] by (unfold contains; apply _).
    - left. apply covered_cons. by left.
    - destruct IHV as [HV|HV]; [left|right]; rewrite covered_cons; tauto. }
  intros Hcov%covered_cons.
  destruct HdecV as [HV|HV].
  - destruct (IH HV) as (v & Hv & Hvx & Hmin).
    destruct Hdec as [Hn|Hn].
    + destruct (decide (prefixlen n ≤ prefixlen v)).
      * exists n. split_and!; [by left|done|].
        intros m [->|Hm]%elem_of_cons Hmx; [done|].
        specialize (Hmin m Hm Hmx). lia.
      * exists v. split_and!; [by right|done|].
        intros m [->|Hm]%elem_of_cons Hmx; [lia|by apply Hmin].
    + exists v. split_and!; [by right|done|].
      intros m [->|Hm]%elem_of_cons Hmx; [done|by apply Hmin].
  - destruct Hcov as [Hn|?]; [|done].
    exists n. split_and!; [by left|done|].
    intros m [->|Hm]%elem_of_cons Hmx; [done|].
    exfalso. apply HV. by exists m.
Qed.

Lemma collapse_addresses_internal_covers (addresses : list IPv4Network) :
  Forall valid_network addresses →
  ∀ x, covered (collapse_addresses_internal addresses) x ↔
       covered addresses x.
Proof.
  intros Hvalid x. split.
  - intros (n & Hn & Hx).
    apply (collapse_addresses_internal_spec addresses Hvalid) in Hn
      as (_ & Hcov & _). by apply Hcov.
  - intros Hx. unfold collapse_addresses_internal.
    destruct (merged_values addresses Hvalid) as (HV & Hnd & Hsib & Hcov).
    set (V := (map_to_list _).*2) in *.
    set (S := sorted net_lt id V).
    assert (S ≡ₚ V) as Hperm by apply sorted_perm.
    assert (Forall valid_network S) as HS by (by rewrite Hperm).
    assert (StronglySorted before S) as Hsorted
      by (by apply sorted_networks_before).
    assert (covered S x) as HxS.
    { apply Hcov in Hx. destruct Hx as (n & Hn & Hnx). exists n.
      by rewrite Hperm. }
    destruct (shortest_prefix_containing S x HxS) as (v & Hv & Hvx & Hmin).
    exists v. split; [|done]. apply skip_subsumed_None; [done..|].
    split; [done|]. intros m Hm Hsub.
    rewrite Forall_forall in HS.
    assert (contains m x) as Hmx by (by apply (subnet_of_contains v)).
    pose proof (Hmin m Hm Hmx).
    pose proof (subnet_of_prefixlen v m (HS v Hv) (HS m Hm) Hsub).
    apply subnet_of_antisym; auto.
    apply (networks_nested m v x); auto; lia.
Qed.

Lemma mapM_result_Forall2 {A B} (f : A → result B) (Q : A → B → Prop) l :
  Forall (λ x, ∃ y, f x = Ok y ∧ Q x y) l →
  ∃ ys, mapM f l = Ok ys ∧ Forall2 Q l ys.
Proof.
  induction 1 as [|x l (y & Hy & HQ) _ (ys & Hys & HQs)]; simpl.
  - exists []. by split.
  - exists (y :: ys). rewrite Hy. simpl. rewrite Hys. simpl.
    split; [done|by constructor].
Qed.

Lemma summarized_addresses_cover (ips : list Z) :
  Forall (λ ip, 0 ≤ ip < 2 ^ 32) ips →
  ∃ addrs,
    mapM (λ '(first, last), summarize_address_range first last)
         (find_address_range
            (sorted Z.ltb id (elements (list_to_set ips : gset Z))))
    = Ok addrs ∧
    Forall valid_network (concat addrs) ∧
    ∀ x, covered (concat addrs) x ↔ x ∈ ips.
Proof.
  intros Hips.
  set (sorted_ips := sorted Z.ltb id (elements (list_to_set ips : gset Z))).
  assert (∀ ip, ip ∈ sorted_ips ↔ ip ∈ ips) as Hsame.
  { intros ip. unfold sorted_ips. rewrite sorted_perm.
    by rewrite elem_of_elements, elem_of_list_to_set. }
  destruct (mapM_result_Forall2
    (λ '(first, last), summarize_address_range first last)
    (λ r nets, Forall valid_network nets ∧
               ∀ x, covered nets x ↔ r.1 ≤ x ≤ r.2)
    (find_address_range sorted_ips)) as (addrs & Hmap & Hall).
  { eapply Forall_impl; [apply find_address_range_spec, sorted_Z_le|].
    intros [first last]. simpl.
    intros (Hle & Hfirst%Hsame & Hlast%Hsame).
    rewrite Forall_forall in Hips.
    apply summarize_address_range_covers;
      [apply (Hips first Hfirst)|done|apply (Hips last Hlast)]. }
  exists addrs. split; [done|].
  assert (Forall valid_network (concat addrs) ∧
          ∀ x, covered (concat addrs) x ↔
               ∃ r, r ∈ find_address_range sorted_ips ∧ r.1 ≤ x ≤ r.2)
    as [Hvalid Hcov].
  { clear Hmap. induction Hall as [|r nets rs addrs [Hnets Hr] _ [IH1 IH2]].
    - split; [constructor|]. intros x. split; [by intros ?%covered_nil|].
      by intros (r & ?%elem_of_nil & _).
    - simpl. split; [by apply Forall_app|]. intros x.
      rewrite covered_app, Hr, IH2. setoid_rewrite elem_of_cons.
      naive_solver. }
  split; [done|]. intros x.
  by rewrite Hcov, find_address_range_covers, Hsame.
Qed.

(** A network of full prefix length contains its address only. *)
Lemma contains_host n x :
  valid_network n → prefixlen n = IPV4LENGTH →
  contains n x ↔ x = network_address n.
Proof.
  intros Hvalid Hp. rewrite contains_iff by done.
  unfold block_size. rewrite Hp. unfold IPV4LENGTH. simpl. lia.
Qed.

(** [collapse_addresses] returns, in ascending order, the largest blocks
    inside the set of addresses its argument covers, and they cover that
    set. *)
Lemma collapse_addresses_spec (l : list IPv4Network) :
  Forall valid_network l →
  ∃ collapsed,
    collapse_addresses l = Ok collapsed ∧
    StronglySorted before collapsed ∧
    (∀ n, n ∈ collapsed ↔ maximal_block (covered l) n) ∧
    ∀ x, covered collapsed x ↔ covered l x.
Proof.
  intros Hvalid. unfold collapse_addresses. rewrite split_ips_nets_eq.
  set (ips := network_address <$> filter _ l).
  destruct (summarized_addresses_cover ips) as (addrs & -> & Haddrs & Hcov).
  { unfold ips. apply Forall_fmap, Forall_forall.
    intros n [_ Hn]%list_elem_of_filter. simpl.
    rewrite Forall_forall in Hvalid. by destruct (Hvalid n Hn) as (_ & ? & _). }
  simpl.
  set (nets := filter (λ n, prefixlen n ≠ IPV4LENGTH) l).
  assert (Forall valid_network (concat addrs ++ nets)) as Hall.
  { apply Forall_app. split; [done|].
    apply Forall_forall. intros n [_ Hn]%list_elem_of_filter.
    by eapply Forall_forall in Hvalid. }
  assert (∀ x, covered (concat addrs ++ nets) x ↔ covered l x) as Hsame.
  { intros x. rewrite covered_app, Hcov. unfold ips, nets, covered.
    rewrite list_elem_of_fmap. setoid_rewrite list_elem_of_filter.
    rewrite Forall_forall in Hvalid. split.
    - intros [(n & -> & Hp & Hn)|(n & [Hp Hn] & Hx)]; [|by eauto].
      exists n. split; [done|]. apply contains_host; auto.
    - intros (n & Hn & Hx).
      destruct (decide (prefixlen n = IPV4LENGTH)) as [Hp|Hp].
      + left. exists n. split; [|done]. apply contains_host in Hx; auto.
      + right. by exists n. }
  destruct (collapse_addresses_internal_spec _ Hall) as [Hsorted Hmax].
  eexists. split_and!; [done|done| |].
  - intros n. rewrite Hmax. unfold maximal_block. by setoid_rewrite Hsame.
  - intros x. by rewrite collapse_addresses_internal_covers, Hsame.
Qed.

(** ** Printing and parsing back *)

Lemma contains_char_app c s1 s2 :
  contains_char c (s1 +:+ s2) = contains_char c s1 || contains_char c s2.
Proof.
  induction s1 as [|c1 s1 IH]; simpl; [done|].
  by destruct (decide (c1 = c)).
Qed.

Lemma split_without_sep sep s : contains_char sep s = false → split sep s = [s].
Proof.
  induction s as [|c s IH]; simpl; [done|].
  destruct (decide (c = sep)); [done|]. intros H. by rewrite IH.
Qed.

Lemma split_at_sep sep s1 s2 :
  contains_char sep s1 = false →
  split sep (s1 +:+ String sep s2) = s1 :: split sep s2.
Proof.
  induction s1 as [|c s1 IH]; simpl.
  - intros _. by rewrite decide_True.
  - destruct (decide (c = sep)); [done|]. intros H. by rewrite IH.
Qed.

Lemma split_at_sep_app sep s1 s2 :
  contains_char sep s1 = false →
  split sep (s1 +:+ String sep EmptyString +:+ s2) = s1 :: split sep s2.
Proof. apply split_at_sep. Qed.

Lemma reads_back_spec bound read z :
  reads_back bound read = true → 0 ≤ z < Z.of_nat bound →
  read (pretty z) = Some z ∧
  contains_char "." (pretty z) = false ∧
  contains_char "/" (pretty z) = false.
Proof.
  unfold reads_back. rewrite forallb_forall. intros Hall Hz.
  specialize (Hall (Z.to_nat z)). rewrite Z2Nat.id in Hall by lia.
  assert (In (Z.to_nat z) (seq 0 bound)) as Hin by (apply in_seq; lia).
  apply Hall in Hin. apply andb_true_iff in Hin as [Hin H3].
  apply andb_true_iff in Hin as [H1 H2].
  apply bool_decide_eq_true in H1. apply negb_true_iff in H2, H3. done.
Qed.

Lemma octets_read_back : reads_back 256 parse_octet = true.
Proof. vm_compute. reflexivity. Qed.

Lemma prefixes_read_back : reads_back 33 make_netmask = true.
Proof. vm_compute. reflexivity. Qed.

Lemma octet_range a k : 0 ≤ Z.land (Z.shiftr a k) 255 < 256.
Proof.
  change 255 with (Z.ones 8). rewrite Z.land_ones by lia.
  apply Z.mod_pos_bound. lia.
Qed.

Lemma octets_recombine a :
  0 ≤ a < 2 ^ 32 →
  ((Z.land (Z.shiftr a 24) 255 * 256 + Z.land (Z.shiftr a 16) 255) * 256
   + Z.land (Z.shiftr a 8) 255) * 256 + Z.land a 255 = a.
Proof.
  intros Ha. change 255 with (Z.ones 8).
  rewrite !Z.land_ones, !Z.shiftr_div_pow2 by lia.
  change (2 ^ 8) with 256. change (2 ^ 16) with (256 * 256).
  change (2 ^ 24) with (256 * 256 * 256).
  rewrite <- !Z.div_div by lia.
  pose proof (Z.div_mod a 256 ltac:(lia)).
  pose proof (Z.div_mod (a / 256) 256 ltac:(lia)).
  pose proof (Z.div_mod (a / 256 / 256) 256 ltac:(lia)).
  assert (a / 256 / 256 / 256 < 256).
  { repeat (apply Z.div_lt_upper_bound; [lia|]). lia. }
  assert (0 ≤ a / 256 / 256 / 256) by (repeat apply Z.div_pos; lia).
  rewrite (Z.mod_small (a / 256 / 256 / 256)) by lia. lia.
Qed.

Lemma ip_int_from_string_str_address a :
  0 ≤ a < 2 ^ 32 →
  ip_int_from_string (str_address a) = Some a ∧
  contains_char "/" (str_address a) = false.
Proof.
  intros Ha. unfold str_address, ip_int_from_string.
  pose proof (reads_back_spec 256 parse_octet _ octets_read_back
                (octet_range a 24)) as (P1 & D1 & S1).
  pose proof (reads_back_spec 256 parse_octet _ octets_read_back
                (octet_range a 16)) as (P2 & D2 & S2).
  pose proof (reads_back_spec 256 parse_octet _ octets_read_back
                (octet_range a 8)) as (P3 & D3 & S3).
  pose proof (reads_back_spec 256 parse_octet (Z.land a 255) octets_read_back)
    as (P4 & D4 & S4).
  { pose proof (octet_range a 0) as H. rewrite Z.shiftr_0_r in H. exact H. }
  split.
  - rewrite !split_at_sep_app by done. rewrite split_without_sep by done.
    rewrite P1, P2, P3, P4. simpl. by rewrite octets_recombine.
  - rewrite !contains_char_app, S1, S2, S3, S4. done.
Qed.

(** Reading back the string of a valid network gives that network. *)
Lemma ip_network_str n : valid_network n → ip_network (str n) = Some n.
Proof.
  intros (Hp & Ha & Hmod). unfold IPV4LENGTH in *. destruct n as [a p].
  cbn [network_address prefixlen] in *. unfold ip_network, str.
  cbn [network_address prefixlen].
  destruct (ip_int_from_string_str_address a Ha) as [Haddr Hslash].
  pose proof (reads_back_spec 33 make_netmask p prefixes_read_back
                ltac:(lia)) as (Hmask & _ & Hslash').
  remember (str_address a) as addr_str eqn:Eaddr.
  remember (pretty p) as mask_str eqn:Emask.
  rewrite split_at_sep_app by done. rewrite split_without_sep by done.
  rewrite Haddr, Hmask. simpl.
  rewrite ip_int_from_prefix_eq by done.
  rewrite (land_high_mask 32) by lia.
  assert (0 < 2 ^ (32 - p)) by (apply Z.pow_pos_nonneg; lia).
  rewrite <- Z.div_exact in Hmod by lia. rewrite <- Hmod.
  by rewrite Z.eqb_refl.
Qed.

(** Different valid networks print differently. *)
Lemma str_inj n1 n2 :
  valid_network n1 → valid_network n2 → str n1 = str n2 → n1 = n2.
Proof.
  intros H1 H2 Heq. apply ip_network_str in H1, H2. congruence.
Qed.

(** ** Lines 49 to 51, characterized *)

Lemma before_sorted_unique (l1 l2 : list IPv4Network) :
  StronglySorted before l1 → StronglySorted before l2 →
  (∀ n, n ∈ l1 ↔ n ∈ l2) → l1 = l2.
Proof.
  intros H1 H2 Hsame.
  apply (StronglySorted_unique_strong before); [|done..|].
  { intros x1 x2 _ _ Hx Hy. by destruct (before_asym x1 x2). }
  apply NoDup_Permutation; [by apply StronglySorted_before_NoDup..|done].
Qed.

(** Sorting an ascending list of networks by line 51's key changes
    nothing. *)
Lemma sorted_by_key_id (nets : list IPv4Network) :
  StronglySorted before nets → sorted key_lt sort_key nets = nets.
Proof.
  intros Hsorted. apply before_sorted_unique; [|done|].
  - by apply sorted_by_key_before, StronglySorted_before_NoDup.
  - intros n. by rewrite sorted_perm.
Qed.

Lemma parse_all_inv (cidrs : list string) nets :
  mapM (λ c, or_raise ValueError (ip_network c)) cidrs = Ok nets →
  Forall (λ c, is_Some (ip_network c)) cidrs ∧ nets = omap ip_network cidrs.
Proof.
  revert nets. induction cidrs as [|c l IH]; intros nets; simpl.
  { intros [= <-]. by split. }
  destruct (ip_network c) as [n|] eqn:Hn; simpl; [|done].
  destruct (mapM _ l) as [ns|] eqn:Hl; simpl; [|done].
  intros [= <-]. destruct (IH ns eq_refl) as [Hall ->].
  split; [constructor; [by rewrite Hn|done]|done].
Qed.

Lemma parsed_valid (cidrs : list string) :
  Forall valid_network (omap ip_network cidrs).
Proof.
  apply Forall_forall. intros n (c & _ & Hn)%list_elem_of_omap.
  by apply (ip_network_valid c).
Qed.

(** What lines 49 to 51 return for strings that all parse. *)
Lemma collapse_cidrs_spec (cidrs : list string) :
  Forall (λ c, is_Some (ip_network c)) cidrs →
  ∃ nets : list IPv4Network,
    collapse_cidrs cidrs = Ok (str <$> nets) ∧
    StronglySorted before nets ∧
    (∀ n, n ∈ nets ↔ maximal_block (covered (omap ip_network cidrs)) n) ∧
    ∀ x, covered nets x ↔ covered (omap ip_network cidrs) x.
Proof.
  intros Hvalid.
  destruct (collapse_addresses_spec (omap ip_network cidrs) (parsed_valid _))
    as (collapsed & Hc & Hsorted & Hmax & Hcov).
  exists collapsed. unfold collapse_cidrs. rewrite parse_all_ok by done.
  simpl. rewrite Hc. simpl. by rewrite sorted_by_key_id.
Qed.

Lemma omap_fmap_inverse {A B} (f : B → option A) (g : A → B) (l : list A) :
  Forall (λ x, f (g x) = Some x) l → omap f (g <$> l) = l.
Proof.
  induction 1 as [|x l Hx _ IH]; [done|].
  csimpl. rewrite Hx. csimpl. by rewrite IH.
Qed.

Lemma omap_ip_network_str (nets : list IPv4Network) :
  Forall valid_network nets → omap ip_network (str <$> nets) = nets.
Proof.
  intros Hvalid. apply omap_fmap_inverse.
  eapply Forall_impl; [done|]. intros n Hn. by apply ip_network_str.
Qed.

(** X10. Collapsing keeps the set of addresses: an address lies in one of
    the collapsed networks exactly when it lies in one of the given
    networks.  The collapsed list is minimal: none of its networks lies
    within another, and no two of them are the two halves of a common
    supernet. *)
Theorem collapse_keeps_addresses (cidrs : list string) :
  Forall (λ c, is_Some (ip_network c)) cidrs →
  ∃ nets : list IPv4Network,
    collapse_cidrs cidrs = Ok (str <$> nets) ∧
    Forall valid_network nets ∧
    (∀ x, covered nets x ↔ covered (omap ip_network cidrs) x) ∧
    (∀ a b, a ∈ nets → b ∈ nets → subnet_of a b → a = b) ∧
    (∀ a b, a ∈ nets → b ∈ nets → a ≠ b → supernet a ≠ supernet b).
Proof.
  intros Hvalid.
  destruct (collapse_cidrs_spec cidrs Hvalid)
    as (nets & Hc & Hsorted & Hmax & Hcov).
  exists nets. split_and!; [done| |done| |].
  - apply Forall_forall. intros n Hn. by apply Hmax in Hn as [? _].
  - intros a b Ha Hb Hsub. apply Hmax in Ha as (Hva & Hca & Hma).
    apply Hmax in Hb as (Hvb & Hcb & _). symmetry. by apply Hma.
  - intros a b Ha Hb Hne Hsuper.
    apply Hmax in Ha as (Hva & Hca & Hma).
    apply Hmax in Hb as (Hvb & Hcb & Hmb).
    assert (supernet a = a) as Ha_top.
    { apply Hma; [by apply supernet_valid|by apply supernet_subnet|].
      intros x Hx. apply (supernet_siblings a b x) in Hx as [?|?]; auto. }
    assert (supernet b = b) as Hb_top.
    { apply Hmb; [by apply supernet_valid|by apply supernet_subnet|].
      intros x Hx. rewrite <- Hsuper in Hx.
      apply (supernet_siblings a b x) in Hx as [?|?]; auto. }
    congruence.
Qed.

(** X11. Collapsing is idempotent: the collapsed list, given back to
    lines 49 to 51, comes out unchanged. *)
Theorem collapse_idempotent (cidrs collapsed : list string) :
  collapse_cidrs cidrs = Ok collapsed →
  collapse_cidrs collapsed = Ok collapsed.
Proof.
  intros Hc.
  assert (Forall (λ c, is_Some (ip_network c)) cidrs) as Hvalid.
  { unfold collapse_cidrs in Hc.
    destruct (mapM _ cidrs) as [ns|] eqn:Hparse; [|done].
    by apply parse_all_inv in Hparse as [? _]. }
  destruct (collapse_cidrs_spec cidrs Hvalid)
    as (nets & Hc' & Hsorted & Hmax & Hcov).
  assert (collapsed = str <$> nets) as -> by congruence.
  assert (Forall valid_network nets) as Hnets.
  { apply Forall_forall. intros n Hn. by apply Hmax in Hn as [? _]. }
  assert (Forall (λ c, is_Some (ip_network c)) (str <$> nets)) as Hvalid'.
  { apply Forall_fmap. eapply Forall_impl; [done|].
    intros n Hn. change (is_Some (ip_network (str n))).
    by rewrite ip_network_str. }
  destruct (collapse_cidrs_spec _ Hvalid')
    as (nets' & -> & Hsorted' & Hmax' & _).
  rewrite omap_ip_network_str in Hmax' by done.
  do 2 f_equal. apply before_sorted_unique; [done..|].
  intros n. rewrite Hmax', Hmax. unfold maximal_block.
  by setoid_rewrite Hcov.
Qed.

(** ** Reading the group back *)

Lemma zip_with_keys {A B} (f : A → option B) (l : list A) :
  Forall (λ x, is_Some (f x)) l →
  zip l (omap f l) = omap (λ x, pair x <$> f x) l.
Proof.
  induction 1 as [|x l [y Hy] _ IH]; [done|].
  csimpl. rewrite Hy. csimpl. by rewrite IH.
Qed.

Lemma omap_fmap_Some {A B C} (f : B → option C) (g : A → B) (h : A → C)
    (l : list A) :
  Forall (λ x, f (g x) = Some (h x)) l → omap f (g <$> l) = h <$> l.
Proof.
  induction 1 as [|x l Hx _ IH]; [done|].
  csimpl. rewrite Hx. csimpl. by rewrite IH.
Qed.

Lemma StronglySorted_fmap_2 {A B} (R : relation B) (f : A → B) (l : list A) :
  StronglySorted (λ x y, R (f x) (f y)) l → StronglySorted R (f <$> l).
Proof.
  induction 1 as [|x l _ IH Hx]; csimpl; constructor; [done|].
  by apply Forall_fmap.
Qed.

(** When the group's rules are the desired CIDRs in some order, each
    once, sorting them by network gives the desired list. *)
Lemma sorted_by_network_desired (rules : list string)
    (nets : list IPv4Network) :
  Forall valid_network nets → StronglySorted before nets →
  rules ≡ₚ str <$> nets →
  sorted_by_network rules = Ok (str <$> nets).
Proof.
  intros Hvalid Hsorted Hperm.
  assert (Forall (λ c, is_Some (ip_network c)) rules) as Hparse.
  { rewrite Hperm. apply Forall_fmap. eapply Forall_impl; [done|].
    intros n Hn. change (is_Some (ip_network (str n))).
    by rewrite ip_network_str. }
  unfold sorted_by_network. rewrite parse_all_ok by done. csimpl.
  rewrite zip_with_keys by done.
  set (pairs := omap (λ c, pair c <$> ip_network c) rules).
  set (wanted := (λ n, (str n, n)) <$> nets).
  assert (pairs ≡ₚ wanted) as Hpairs.
  { unfold pairs. rewrite Hperm. unfold wanted.
    rewrite (omap_fmap_Some _ str (λ n, (str n, n))); [done|].
    eapply Forall_impl; [done|]. intros n Hn. cbv beta.
    by rewrite ip_network_str. }
  assert (sorted net_lt snd pairs = wanted) as ->.
  { apply (StronglySorted_unique_strong (in_order net_lt snd)).
    - intros x1 x2 Hx1 Hx2 H12 H21.
      rewrite sorted_perm, Hpairs in Hx1.
      apply list_elem_of_fmap in Hx1 as (n1 & -> & Hn1).
      apply list_elem_of_fmap in Hx2 as (n2 & -> & Hn2).
      unfold in_order in *. cbn [snd] in *.
      rewrite Forall_forall in Hvalid.
      destruct (before_total n1 n2) as [Hb|[->|Hb]]; [|done|].
      + apply net_lt_before in Hb; auto. congruence.
      + apply net_lt_before in Hb; auto. congruence.
    - apply sorted_in_order; [apply net_lt_asym|apply net_lt_negtrans].
    - apply StronglySorted_fmap_2. unfold in_order. cbn [snd].
      apply (StronglySorted_strengthen before _ valid_network);
        [|done|by apply StronglySorted_before_NoDup|done].
      intros a b Ha Hb _ Hab. apply not_true_is_false.
      rewrite net_lt_before by done. intros Hba. by apply (before_asym a b).
    - by rewrite sorted_perm. }
  unfold wanted. by rewrite <- list_fmap_compose.
Qed.

(** X12. A run that finds the group holding exactly the desired CIDRs,
    each once and in any order, changes nothing: it logs that nothing
    changed, makes no mutation call and no Slack post and ends with exit
    status 0. *)
Theorem rerun_changes_nothing (cfg : Config) (w : World) (data : FeedData)
    (cidrs after_cidrs : list string) (sg : option (list SgPermission)) :
  feed_response w = Ok data →
  extract_bitbucket_egress_ipv4 data = Ok (cidrs, after_cidrs) →
  boto3_client w = Ok tt →
  describe_response w = Ok sg →
  sg_rules (default [] sg) ≡ₚ after_cidrs →
  (main cfg w).2 = Return tt ∧
  exit_status (main cfg w).2 = 0 ∧
  mutations (main cfg w).1 = [] ∧
  slack_posts (main cfg w).1 = [] ∧
  Print LogNoChangesDetected ∈ (main cfg w).1.
Proof.
  intros Hfeed Hextract Hb Hdescribe Hperm.
  assert (sorted_by_network (sg_rules (default [] sg)) = Ok after_cidrs)
    as Hsorted.
  { unfold extract_bitbucket_egress_ipv4 in Hextract.
    destruct (filter_items _) as [cs|]; [|done]. csimpl in Hextract.
    destruct (collapse_cidrs cs) as [collapsed|] eqn:Hc; [|done].
    csimpl in Hextract. injection Hextract as -> ->.
    assert (Forall (λ c, is_Some (ip_network c)) cidrs) as Hvalid.
    { unfold collapse_cidrs in Hc.
      destruct (mapM _ cidrs) as [ns|] eqn:Hparse; [|done].
      by apply parse_all_inv in Hparse as [? _]. }
    destruct (collapse_cidrs_spec cidrs Hvalid)
      as (nets & Hc' & Hsorted & Hmax & _).
    assert (after_cidrs = str <$> nets) as -> by congruence.
    apply sorted_by_network_desired; [|done..].
    apply Forall_forall. intros n Hn. by apply Hmax in Hn as [? _]. }
  assert (∃ t, main_read cfg w = (t, Return (after_cidrs, after_cidrs)))
    as [t Hread].
  { unfold main_read, fetch_ip_ranges, get_sg_ingress_rules, call.
    rewrite Hfeed. simpl. rewrite Hextract. simpl.
    rewrite Hb, Hdescribe. simpl. rewrite Hsorted. simpl.
    rewrite !for_each_print. destruct (bool_decide _); by eexists. }
  destruct (equal_lists_no_change cfg w t after_cidrs Hread)
    as (Hmain & Hm & Hs & Hexit).
  split_and!; [by rewrite Hmain|done..|].
  rewrite Hmain. cbn [fst]. apply elem_of_app. right. by left.
Qed.

Lemma zip_fst_omap {A B} (f : A → option B) (l : list A) :
  Forall (λ x, is_Some (f x)) l → (zip l (omap f l)).*1 = l.
Proof.
  induction 1 as [|x l [y Hy] _ IH]; [done|].
  csimpl. rewrite Hy. csimpl. by rewrite IH.
Qed.

Lemma StronglySorted_impl_Forall {A} (R R' : relation A) (P : A → Prop) l :
  (∀ a b, P a → P b → R a b → R' a b) →
  Forall P l → StronglySorted R l → StronglySorted R' l.
Proof.
  intros HR HP Hs. induction Hs as [|x l _ IH Hx]; [constructor|].
  apply Forall_cons in HP as [Hpx HP]. constructor; [by apply IH|].
  rewrite Forall_forall in HP, Hx. apply Forall_forall. intros y Hy. auto.
Qed.

(** The current list holds every CIDR of every tcp permission whose
    FromPort is 443, repetitions included, ordered by network; it is
    returned only if all of them parse. *)
Lemma current_rules_sorted (rules current_cidrs : list string) :
  sorted_by_network rules = Ok current_cidrs →
  current_cidrs ≡ₚ rules ∧
  Forall (λ c, is_Some (ip_network c)) rules ∧
  StronglySorted
    (λ c1 c2, ∀ n1 n2, ip_network c1 = Some n1 → ip_network c2 = Some n2 →
                       net_lt n2 n1 = false)
    current_cidrs.
Proof.
  unfold sorted_by_network. intros Hsorted.
  destruct (mapM _ rules) as [keys|] eqn:Hkeys; [|done].
  apply parse_all_inv in Hkeys as [Hparse ->]. csimpl in Hsorted.
  injection Hsorted as <-.
  set (pairs := zip rules (omap ip_network rules)).
  assert (Forall (λ p, ip_network p.1 = Some p.2) pairs) as Hpairs.
  { unfold pairs. rewrite zip_with_keys by done. apply Forall_forall.
    intros [c n] (c' & Hc' & Hn)%list_elem_of_omap.
    destruct (ip_network c') as [n'|] eqn:Hp; [|done].
    csimpl in Hn. by injection Hn as <- <-. }
  split_and!; [|done|].
  - rewrite sorted_perm. unfold pairs. by rewrite zip_fst_omap.
  - apply StronglySorted_fmap_2.
    assert (Forall (λ p, ip_network p.1 = Some p.2) (sorted net_lt snd pairs))
      as Hall by (by rewrite sorted_perm).
    apply (StronglySorted_impl_Forall (in_order net_lt snd) _
             (λ p, ip_network p.1 = Some p.2)); [|done|].
    + intros a b Ha Hb Hab n1 n2 H1 H2. unfold in_order in Hab. congruence.
    + apply sorted_in_order; [apply net_lt_asym|apply net_lt_negtrans].
Qed.

(** ** Collapsing never makes the list longer *)

Lemma skip_subsumed_length last nets :
  (length (skip_subsumed last nets) ≤ length nets)%nat.
Proof.
  revert last. induction nets as [|net nets IH]; intros last; simpl; [done|].
  destruct last as [l|].
  - destruct (broadcast_address net <=? broadcast_address l); simpl.
    + specialize (IH (Some l)). lia.
    + specialize (IH (Some net)). lia.
  - specialize (IH (Some net)). simpl. lia.
Qed.

Lemma merge_run_size to_merge subnets result :
  merge_run to_merge subnets result →
  (size result ≤ length to_merge + size subnets)%nat.
Proof.
  induction 1 as [subnets|net to_merge subnets result Hget _ IH
                 |net to_merge subnets result Hget _ IH
                 |net existing to_merge subnets result Hget Hne _ IH]; simpl.
  - lia.
  - rewrite map_size_insert_None in IH by done. lia.
  - lia.
  - pose proof (map_size_delete (supernet net) subnets) as Hsize.
    rewrite Hget in Hsize. simpl in *. lia.
Qed.

Lemma collapse_addresses_internal_length (addresses : list IPv4Network) :
  (length (collapse_addresses_internal addresses) ≤ length addresses)%nat.
Proof.
  unfold collapse_addresses_internal.
  etrans; [apply skip_subsumed_length|].
  rewrite sorted_perm, length_fmap, length_map_to_list.
  etrans; [apply (merge_run_size _ _ _ (merge_fuel_run _))|].
  rewrite map_size_empty, length_reverse. lia.
Qed.

Lemma summarize_run_length last_int first_int nets :
  summarize_run last_int first_int nets →
  Z.of_nat (length nets) ≤ Z.max 0 (last_int - first_int + 1).
Proof.
  induction 1 as [f Hgt|f Hle nbits Hbreak|f nets Hle nbits Hcont _ IH];
    simpl length.
  - lia.
  - lia.
  - pose proof (summarize_nbits f last_int Hle) as Hnbits. fold nbits in Hnbits.
    assert (0 < Z.shiftl 1 nbits)
      by (rewrite Z.shiftl_1_l; apply Z.pow_pos_nonneg; lia).
    lia.
Qed.

Lemma summarize_address_range_length first last nets :
  summarize_address_range first last = Ok nets →
  Z.of_nat (length nets) ≤ last - first + 1.
Proof.
  unfold summarize_address_range.
  destruct (Z.ltb_spec last first); [done|]. intros Heq.
  assert (nets = summarize_loop (summarize_fuel first last) first last)
    as -> by congruence.
  etrans; [apply (summarize_run_length last first)|lia].
  apply summarize_loop_run. unfold summarize_fuel. lia.
Qed.

(** The runs found have as many addresses as the list. *)
Lemma find_address_range_from_total first last rest :
  foldr (λ r acc, r.2 - r.1 + 1 + acc) 0
        (find_address_range_from first last rest)
  = last - first + 1 + Z.of_nat (length rest).
Proof.
  revert first last. induction rest as [|ip rest IH]; intros first last.
  { simpl. lia. }
  cbn [find_address_range_from].
  destruct (Z.eqb_spec ip (last + 1)) as [->|Hne]; cbn [negb].
  - rewrite IH. simpl length. lia.
  - cbn [foldr]. rewrite IH. simpl. lia.
Qed.

Lemma find_address_range_total addresses :
  foldr (λ r acc, r.2 - r.1 + 1 + acc) 0 (find_address_range addresses)
  = Z.of_nat (length addresses).
Proof.
  destruct addresses as [|ip rest]; [done|].
  cbn [find_address_range]. rewrite find_address_range_from_total.
  simpl length. lia.
Qed.

Lemma mapM_summarize_length ranges addrs :
  mapM (λ '(first, last), summarize_address_range first last) ranges
    = Ok addrs →
  Z.of_nat (length (concat addrs))
  ≤ foldr (λ r acc, r.2 - r.1 + 1 + acc) 0 ranges.
Proof.
  revert addrs. induction ranges as [|[first last] ranges IH]; intros addrs.
  { intros [= <-]. done. }
  csimpl.
  destruct (summarize_address_range first last) as [nets|] eqn:Hnets; [|done].
  csimpl. destruct (mapM _ ranges) as [rest|] eqn:Hrest; [|done].
  csimpl. intros [= <-]. simpl. rewrite length_app.
  apply summarize_address_range_length in Hnets. specialize (IH rest eq_refl).
  lia.
Qed.

Lemma split_ips_nets_length addresses :
  (length (split_ips_nets addresses).1 + length (split_ips_nets addresses).2
   = length addresses)%nat.
Proof.
  induction addresses as [|ip l IH]; [done|].
  simpl. destruct (split_ips_nets l) as [ips nets].
  destruct (prefixlen ip =? IPV4LENGTH); simpl in *; lia.
Qed.

Lemma size_list_to_set_le (l : list Z) :
  (size (list_to_set l : gset Z) ≤ length l)%nat.
Proof.
  induction l as [|x l IH].
  - by rewrite list_to_set_nil, size_empty.
  - rewrite list_to_set_cons, size_union_alt, size_singleton. simpl length.
    pose proof (subseteq_size (list_to_set l ∖ {[x]}) (list_to_set l :gset Z)
                  ltac:(set_solver)). lia.
Qed.

Lemma collapse_addresses_length (l collapsed : list IPv4Network) :
  collapse_addresses l = Ok collapsed →
  (length collapsed ≤ length l)%nat.
Proof.
  unfold collapse_addresses.
  pose proof (split_ips_nets_length l) as Hsplit.
  destruct (split_ips_nets l) as [ips nets]. simpl in Hsplit.
  destruct (mapM _ _) as [addrs|] eqn:Haddrs; [|done]. csimpl.
  intros [= <-]. etrans; [apply collapse_addresses_internal_length|].
  rewrite length_app. apply mapM_summarize_length in Haddrs.
  rewrite find_address_range_total, sorted_perm in Haddrs.
  pose proof (size_list_to_set_le ips) as Hsize.
  unfold size, set_size in Hsize. simpl in Hsize. lia.
Qed.

(** X14. The collapsed list is never longer than the list of CIDRs it was
    made from, so the else branch of line 159 is the case of equal
    counts. *)
Theorem collapse_never_longer (cidrs collapsed : list string) :
  collapse_cidrs cidrs = Ok collapsed →
  (length collapsed ≤ length cidrs)%nat.
Proof.
  unfold collapse_cidrs. intros Hc.
  destruct (mapM _ cidrs) as [nets|] eqn:Hparse; [|done].
  csimpl in Hc.
  destruct (collapse_addresses nets) as [merged|] eqn:Hmerged; [|done].
  csimpl in Hc. injection Hc as <-.
  rewrite length_fmap, sorted_perm.
  apply collapse_addresses_length in Hmerged.
  apply parse_all_inv in Hparse as [Hall ->].
  etrans; [done|]. clear. induction cidrs as [|c l IH]; [done|].
  csimpl. destruct (ip_network c); simpl; lia.
Qed.

Lemma elem_of_sg_rules (perms : list SgPermission) c :
  c ∈ sg_rules perms ↔
  ∃ perm, perm ∈ perms ∧ sg_IpProtocol perm = Some "tcp"%string ∧
          sg_FromPort perm = Some AWS_SG_RULE_PORT ∧
          c ∈ default [] (sg_IpRanges perm).
Proof.
  unfold sg_rules. rewrite list_elem_of_In, in_flat_map.
  setoid_rewrite <- list_elem_of_In. split.
  - intros (perm & Hperm & Hc). exists perm. split; [done|].
    destruct (bool_decide (sg_IpProtocol perm = Some "tcp"%string)) eqn:H1;
      destruct (bool_decide (sg_FromPort perm = Some AWS_SG_RULE_PORT)) eqn:H2;
      simpl in Hc; try by apply elem_of_nil in Hc.
    apply bool_decide_eq_true in H1, H2. done.
  - intros (perm & Hperm & H1 & H2 & Hc). exists perm. split; [done|].
    by rewrite !bool_decide_eq_true_2 by done.
Qed.

(** X13. When the read of the group succeeds, the current list holds
    exactly the CIDRs of the tcp permissions whose FromPort is 443,
    whatever their ToPort, each as often as the group lists it, ordered
    by network; the only request made is the one describe call. *)
Theorem current_rules_read (cfg : Config) (w : World) (t : list event)
    (current_cidrs : list string) :
  get_sg_ingress_rules cfg w = (t, Return current_cidrs) →
  ∃ sg,
    describe_response w = Ok sg ∧
    t = [DescribeSecurityGroups [AWS_SG_ID cfg]] ∧
    current_cidrs ≡ₚ sg_rules (default [] sg) ∧
    (∀ c, c ∈ current_cidrs ↔
          ∃ perm, perm ∈ default [] sg ∧
                  sg_IpProtocol perm = Some "tcp"%string ∧
                  sg_FromPort perm = Some 443 ∧
                  c ∈ default [] (sg_IpRanges perm)) ∧
    StronglySorted
      (λ c1 c2, ∀ n1 n2, ip_network c1 = Some n1 → ip_network c2 = Some n2 →
                         net_lt n2 n1 = false)
      current_cidrs.
Proof.
  unfold get_sg_ingress_rules, call. intros Hget.
  destruct (boto3_client w) as [[]|]; [|done]. simpl in Hget.
  destruct (describe_response w) as [sg|]; [|done]. simpl in Hget.
  destruct (sorted_by_network (sg_rules (default [] sg))) as [l|] eqn:Hsorted;
    [|done].
  simpl in Hget. injection Hget as <- <-.
  destruct (current_rules_sorted _ _ Hsorted) as (Hperm & _ & Hs).
  exists sg. split_and!; [done..| |done].
  intros c. rewrite Hperm. apply elem_of_sg_rules.
Qed.

Lemma bind_fst {A B} (m : prog A) (f : A → prog B) :
  (bind m f).1 =
  m.1 ++ match m.2 with
         | Return a => (f a).1
         | _ => []
         end.
Proof.
  destruct m as [t [a| |]]; simpl; rewrite ?app_nil_r; [|done..].
  by destruct (f a).
Qed.

(** X15. Every run is made of three phases in this order: reading (no
    mutation call, no Slack post), updating (no Slack post) and notifying
    (no mutation call).  So no rule is changed before the feed and the
    group were read, and none after a notification. *)
Theorem run_phases (cfg : Config) (w : World) :
  ∃ reading updating notifying,
    (main cfg w).1 = reading ++ updating ++ notifying ∧
    mutations reading = [] ∧ slack_posts reading = [] ∧
    slack_posts updating = [] ∧
    mutations notifying = [] ∧
    (mutations updating ≠ [] →
     HttpGet IP_FEED_URL ∈ reading ∧
     DescribeSecurityGroups [AWS_SG_ID cfg] ∈ reading).
Proof.
  destruct (main_read cfg w) as [t o] eqn:Hread.
  destruct (main_read_quiet _ _ _ _ Hread) as [Hm0 Hs0].
  destruct o as [[after_cidrs current_cidrs]| |].
  2,3: exists t, [], []; unfold main; rewrite Hread; simpl;
       rewrite !app_nil_r; by split_and!.
  assert (HttpGet IP_FEED_URL ∈ t ∧
          DescribeSecurityGroups [AWS_SG_ID cfg] ∈ t) as Hcalls.
  { clear Hm0 Hs0. revert Hread.
    unfold main_read, fetch_ip_ranges, get_sg_ingress_rules, call.
    destruct (feed_response w) as [data|]; simpl; [|done].
    destruct (extract_bitbucket_egress_ipv4 data) as [[b a]|]; simpl; [|done].
    rewrite for_each_print.
    destruct (boto3_client w) as [[]|]; simpl;
      [|by destruct (bool_decide _)].
    destruct (describe_response w) as [sg|]; simpl;
      [|by destruct (bool_decide _)].
    destruct (sorted_by_network (sg_rules (default [] sg))) as [l|]; simpl;
      [|by destruct (bool_decide _)].
    rewrite for_each_print.
    destruct (bool_decide _); simpl;
      intros Heq; apply (f_equal fst) in Heq; simpl in Heq; subst t; split;
      repeat first [ apply list_elem_of_here | apply list_elem_of_further
                   | apply elem_of_app; right ]. }
  rewrite (main_after_read _ _ _ _ _ Hread). cbn [fst]. unfold main_update.
  case_bool_decide as Heq.
  { exists t, [], [Print LogNoChangesDetected]. by split_and!. }
  case_bool_decide as Hlimit.
  { eexists t, [], _. split_and!; [done..| |done].
    apply mutations_nil_Forall. unfold send_slack_alert, slack_try, print.
    trace_solve; done. }
  rewrite bind_fst.
  exists t, (replace_sg_ingress_rules cfg w after_cidrs current_cidrs).1.
  eexists. split_and!; [done..| | |done].
  - apply slack_posts_nil_Forall.
    unfold replace_sg_ingress_rules, print. trace_solve; done.
  - destruct (replace_sg_ingress_rules cfg w after_cidrs current_cidrs).2;
      [|done..].
    apply mutations_nil_Forall. unfold send_slack_alert, slack_try, print.
    trace_solve; done.
Qed.

(** X16. The desired list is in canonical form: each of its strings parses
    to a network whose string it is (so a host address comes out with its
    /32, and the network address has no host bit set), and no string occurs
    twice. *)
Theorem collapsed_cidrs_canonical (cidrs collapsed : list string) :
  collapse_cidrs cidrs = Ok collapsed →
  Forall (λ c, ∃ n, ip_network c = Some n ∧ valid_network n ∧ str n = c)
         collapsed ∧
  NoDup collapsed.
Proof.
  intros Hc.
  assert (Forall (λ c, is_Some (ip_network c)) cidrs) as Hvalid.
  { unfold collapse_cidrs in Hc.
    destruct (mapM _ cidrs) as [ns|] eqn:Hparse; [|done].
    by apply parse_all_inv in Hparse as [? _]. }
  destruct (collapse_cidrs_spec cidrs Hvalid)
    as (nets & Hc' & Hsorted & Hmax & Hcov).
  assert (collapsed = str <$> nets) as -> by congruence.
  assert (Forall valid_network nets) as Hnets.
  { apply Forall_forall. intros n Hn. by apply Hmax in Hn as [? _]. }
  split.
  - apply Forall_fmap. eapply Forall_impl; [done|].
    intros n Hn. exists n. change (ip_network (str n) = Some n ∧ valid_network n ∧ str n = str n).
    split_and!; [by apply ip_network_str|done|done].
  - apply NoDup_fmap_2_strong; [|by apply StronglySorted_before_NoDup].
    intros n1 n2 H1 H2. apply str_inj; by eapply Forall_forall.
Qed.

(** ** The properties above at concrete inputs *)

Lemma filter_keeps_matching_entries_witness :
  let l := [Examples.bitbucket_item "10.0.0.0/24";
            {| product := Some ["jira"%string]; direction := None;
               cidr := None |};
            Examples.bitbucket_item "2001:db8::/32"] in
  let kept := ["10.0.0.0/24"%string] in
  kept = omap cidr
           (filter (λ item,
                      "bitbucket"%string ∈ default [] (product item) ∧
                      "egress"%string ∈ default [] (direction item) ∧
                      ":"%char ∉ list_ascii_of_string
                                   (default ""%string (cidr item))) l) ∧
  Forall (λ c, ":"%char ∉ list_ascii_of_string c) kept.
Proof.
  intros l kept. apply (filter_keeps_matching_entries l kept).
  vm_compute. reflexivity.
Defined.

Lemma empty_feed_revokes_all_witness :
  let cfg := Examples.config false Examples.token in
  mutations (main cfg Examples.world_no_items).1 =
    [RevokeSecurityGroupIngress (AWS_SG_ID cfg)
       (revoke_payload (list_to_set ["10.0.0.0/24"%string]))].
Proof.
  intros cfg.
  apply (empty_feed_revokes_all cfg Examples.world_no_items
           (main_read cfg Examples.world_no_items).1 ["10.0.0.0/24"%string]).
  - vm_compute. reflexivity.
  - discriminate.
  - reflexivity.
Defined.

Lemma equal_lists_no_change_witness :
  let cfg := Examples.config false Examples.token in
  mutations (main cfg Examples.world_in_sync).1 = [] ∧
  slack_posts (main cfg Examples.world_in_sync).1 = [] ∧
  exit_status (main cfg Examples.world_in_sync).2 = 0.
Proof.
  intros cfg.
  apply (equal_lists_no_change cfg Examples.world_in_sync
           (main_read cfg Examples.world_in_sync).1
           ["10.0.0.0/24"; "10.0.2.0/24"]%string).
  vm_compute. reflexivity.
Defined.

Lemma read_failure_changes_nothing_witness :
  let cfg := Examples.config false Examples.token in
  (main cfg Examples.world_feed_down).2 = Uncaught HTTPError ∧
  exit_status (main cfg Examples.world_feed_down).2 = 1 ∧
  mutations (main cfg Examples.world_feed_down).1 = [] ∧
  slack_posts (main cfg Examples.world_feed_down).1 = [].
Proof.
  intros cfg. apply (read_failure_changes_nothing cfg Examples.world_feed_down).
  vm_compute. reflexivity.
Defined.

Lemma scenario_B_read (dry_run : bool) (w : World) :
  feed_response w = feed_response Examples.world_B →
  boto3_client w = Ok tt →
  describe_response w = describe_response Examples.world_B →
  main_read (Examples.config dry_run Examples.token) w =
  ((main_read (Examples.config dry_run Examples.token) Examples.world_B).1,
   Return (["10.0.0.0/23"], ["10.0.0.0/24"; "10.0.1.0/24"])%string).
Proof.
  intros Hf Hb Hd.
  assert (main_read (Examples.config dry_run Examples.token) w
          = main_read (Examples.config dry_run Examples.token) Examples.world_B) as ->.
  { unfold main_read, fetch_ip_ranges, get_sg_ingress_rules.
    by rewrite Hf, Hb, Hd. }
  destruct dry_run; vm_compute; reflexivity.
Qed.

Lemma successful_apply_witness :
  let cfg := Examples.config false Examples.token in
  length (mutations (main cfg Examples.world_B).1) = 2%nat ∧
  length (slack_posts (main cfg Examples.world_B).1) = 1%nat ∧
  exit_status (main cfg Examples.world_B).2 = 0.
Proof.
  intros cfg.
  destruct (successful_apply cfg Examples.world_B _ _ _
              (scenario_B_read false Examples.world_B eq_refl eq_refl eq_refl))
    as (Hm & Hs & _ & Hexit).
  - vm_compute. discriminate.
  - reflexivity.
  - right. vm_compute. discriminate.
  - reflexivity.
  - reflexivity.
  - reflexivity.
  - rewrite Hm, Hs. split_and!; [|reflexivity|exact Hexit].
    rewrite !decide_False by (vm_compute; discriminate). reflexivity.
Defined.

Lemma failed_revoke_stops_run_witness :
  let cfg := Examples.config false Examples.token in
  (main cfg Examples.world_B_revoke_fails).2 = Uncaught ClientError ∧
  exit_status (main cfg Examples.world_B_revoke_fails).2 = 1 ∧
  length (mutations (main cfg Examples.world_B_revoke_fails).1) = 1%nat ∧
  slack_posts (main cfg Examples.world_B_revoke_fails).1 = [].
Proof.
  intros cfg.
  destruct (failed_revoke_stops_run cfg Examples.world_B_revoke_fails _ _ _
              (scenario_B_read false Examples.world_B_revoke_fails
                 eq_refl eq_refl eq_refl)) with (e := ClientError)
    as (Ho & Hexit & Hm & Hs).
  - vm_compute. discriminate.
  - reflexivity.
  - vm_compute. discriminate.
  - reflexivity.
  - rewrite Hm. split_and!; [exact Ho|exact Hexit|reflexivity|exact Hs].
Defined.


Lemma dry_run_never_mutates_witness :
  mutations (main (Examples.config true Examples.token) Examples.world_B).1 = [].
Proof. apply dry_run_never_mutates. reflexivity. Defined.

Lemma collapse_keeps_addresses_witness :
  let cidrs := ["10.0.0.0/24"; "10.0.1.0/24"; "10.0.1.7"]%string in
  ∃ nets : list IPv4Network,
    collapse_cidrs cidrs = Ok (str <$> nets) ∧
    Forall valid_network nets ∧
    (∀ x, covered nets x ↔ covered (omap ip_network cidrs) x) ∧
    (∀ a b, a ∈ nets → b ∈ nets → subnet_of a b → a = b) ∧
    (∀ a b, a ∈ nets → b ∈ nets → a ≠ b → supernet a ≠ supernet b).
Proof.
  intros cidrs. apply collapse_keeps_addresses.
  repeat constructor; vm_compute; eauto.
Defined.

Lemma collapse_idempotent_witness :
  collapse_cidrs ["10.0.0.0/23"%string] = Ok ["10.0.0.0/23"%string].
Proof.
  apply (collapse_idempotent ["10.0.0.0/24"; "10.0.1.0/24"]%string).
  vm_compute. reflexivity.
Defined.

Lemma rerun_changes_nothing_witness :
  let cfg := Examples.config false Examples.token in
  (main cfg Examples.world_in_sync).2 = Return tt ∧
  exit_status (main cfg Examples.world_in_sync).2 = 0 ∧
  mutations (main cfg Examples.world_in_sync).1 = [] ∧
  slack_posts (main cfg Examples.world_in_sync).1 = [] ∧
  Print LogNoChangesDetected ∈ (main cfg Examples.world_in_sync).1.
Proof.
  intros cfg.
  apply (rerun_changes_nothing cfg Examples.world_in_sync
           (Examples.feed_of ["10.0.0.0/24"; "10.0.2.0/24"]%string)
           ["10.0.0.0/24"; "10.0.2.0/24"]%string
           ["10.0.0.0/24"; "10.0.2.0/24"]%string
           (Some [Examples.tcp_rule 443 ["10.0.2.0/24"; "10.0.0.0/24"]%string])).
  - reflexivity.
  - vm_compute. reflexivity.
  - reflexivity.
  - reflexivity.
  - vm_compute. apply Permutation_swap.
Defined.

Lemma current_rules_read_witness :
  let cfg := Examples.config false Examples.token in
  ∃ sg,
    describe_response Examples.world_twice = Ok sg ∧
    ["10.0.0.0/24"; "10.0.0.0/24"]%string ≡ₚ sg_rules (default [] sg).
Proof.
  intros cfg.
  destruct (current_rules_read cfg Examples.world_twice
              (get_sg_ingress_rules cfg Examples.world_twice).1
              ["10.0.0.0/24"; "10.0.0.0/24"]%string)
    as (sg & Hd & _ & Hperm & _).
  - vm_compute. reflexivity.
  - exists sg. split; [exact Hd|exact Hperm].
Defined.

Lemma collapse_never_longer_witness :
  (length ["10.0.0.0/23"%string] ≤
   length ["10.0.0.0/24"; "10.0.1.0/24"]%string)%nat.
Proof.
  apply collapse_never_longer. vm_compute. reflexivity.
Defined.

Lemma run_phases_witness :
  let cfg := Examples.config false Examples.token in
  ∃ reading updating notifying,
    (main cfg Examples.world_B).1 = reading ++ updating ++ notifying ∧
    mutations reading = [] ∧ slack_posts reading = [] ∧
    slack_posts updating = [] ∧
    mutations notifying = [].
Proof.
  intros cfg.
  destruct (run_phases cfg Examples.world_B) as (t1 & t2 & t3 & H & H1 & H2 & H3 & H4 & _).
  exists t1, t2, t3. split_and!; [exact H|exact H1|exact H2|exact H3|exact H4].
Defined.

Lemma ip_network_str_witness :
  ip_network (str (Network 167772160 23)) = Some (Network 167772160 23).
Proof.
  apply ip_network_str. unfold valid_network. vm_compute.
  split_and!; try reflexivity; discriminate.
Defined.

Lemma collapsed_cidrs_canonical_witness :
  Forall (λ c, ∃ n, ip_network c = Some n ∧ valid_network n ∧ str n = c)
         ["10.0.0.0/23"; "192.168.7.9/32"]%string ∧
  NoDup ["10.0.0.0/23"; "192.168.7.9/32"]%string.
Proof.
  apply (collapsed_cidrs_canonical
           ["10.0.1.0/24"; "192.168.7.9"; "10.0.0.0/24"]%string).
  vm_compute. reflexivity.
Defined.
